(** * SolarSystem_Simulation: the simulation engine of [solarsystem_simyulation.py]

    A shallow embedding of the physics update, the curvature grid, picking,
    the input handler, the drawing code and the main loop of
    [SolarSystemSimulation], over binary64 floats (Python's [float]),
    followed by the properties proved of them.

    Conventions.
    - Python's [float] is Rocq's primitive binary64 [float]; [+], [-], [*],
      [abs], the comparisons and the correctly rounded [sqrt] are the
      kernel's.  An [int] that meets a [float] in an expression is the
      float of the same value ([0 - x], [1 + p], [max(10, d)]).
    - What raises in Python raises here: [result] is the outcome of a
      computation, [Raise e] an exception nobody catches (the main loop has
      no handler, so the program ends there).
    - [x ** y], [math.cos] and [math.sin] reach the platform's C library;
      they are the fields of a [Libm] every definition that uses them takes
      as a parameter.
    - [CustomMass] objects live in a store indexed by references, since the
      list [custom_masses] and the attribute [selected_mass] share them;
      [h !!! r] is the object behind the reference [r], which every
      reference of a state the program reaches has ([well_formed]).
      A planet is referenced from the list [planets] alone and is kept
      there by value.
    - Drawing is the list of the OpenGL calls made, in order and with
      their arguments; the calls themselves do not raise, and what is
      printed on the console is left out.
    - What OpenGL answers to [screen_to_world] is a [GLContext]; in the
      main loop it is the one of the camera the last [render] set. *)

From Stdlib Require Import ZArith Floats Lia.
From Stdlib Require Uint63.
From stdpp Require Import base option list gmap strings.

Set Warnings "-inexact-float".
Set Default Proof Using "Type".

(** ** Exceptions *)

Inductive exn : Type :=
| ZeroDivisionError
| OverflowError
| ValueError
| IndexError
| NotImplementedError.

Inductive result (A : Type) : Type :=
| Ok (a : A)
| Raise (e : exn).
Arguments Ok {A} a.
Arguments Raise {A} e.

#[global] Instance result_ret : MRet result := @Ok.
#[global] Instance result_bind : MBind result :=
  λ A B f m, match m with Ok a => f a | Raise e => Raise e end.
#[global] Instance result_fmap : FMap result :=
  λ A B f m, match m with Ok a => Ok (f a) | Raise e => Raise e end.

(** A [for] loop whose body may raise: the state [a] is threaded through
    the elements in order and the first exception ends the loop. *)
Fixpoint for_each {A B : Type} (body : A → B → result A) (a : A) (xs : list B)
  : result A :=
  match xs with
  | [] => Ok a
  | x :: xs' => a' ← body a x; for_each body a' xs'
  end.

(** [enumerate(xs)], counting from [n]. *)
Fixpoint enumerate_from {A : Type} (n : nat) (xs : list A) : list (nat * A) :=
  match xs with
  | [] => []
  | x :: xs' => (n, x) :: enumerate_from (S n) xs'
  end.

Definition enumerate {A : Type} (xs : list A) : list (nat * A) :=
  enumerate_from 0 xs.

(** ** Floats as Python computes with them *)

Module Py.
Local Open Scope float_scope.

(** [float(z)] for an integer of magnitude below 2^53 (exact there). *)
Definition float_of_Z (z : Z) : float :=
  match z with
  | Z0 => 0
  | Zpos _ => of_uint63 (Uint63.of_Z z)
  | Zneg p => - of_uint63 (Uint63.of_Z (Zpos p))
  end.

(** [x / y]: a zero divisor raises instead of returning an infinity. *)
Definition div (x y : float) : result float :=
  if y =? 0 then Raise ZeroDivisionError else Ok (x / y).

(** [math.sqrt(x)]: a negative argument is a domain error. *)
Definition math_sqrt (x : float) : result float :=
  if x <? 0 then Raise ValueError else Ok (sqrt x).

(** The builtins [max(a, b)] and [min(a, b)]: the first argument is kept
    unless the second is strictly greater (smaller). *)
Definition max (a b : float) : float := if a <? b then b else a.
Definition min (a b : float) : float := if b <? a then b else a.

(** [math.pi]. *)
Definition math_pi : float := 3.141592653589793.

End Py.

(** The C library behind [**], [math.cos] and [math.sin].  [float_pow x y]
    is [x ** y] (it raises [OverflowError] when the result overflows and
    [ZeroDivisionError] on [0.0 ** negative]); the trigonometric functions
    raise [ValueError] on an infinity. *)
Record Libm : Type := {
  float_pow : float → float → result float;
  math_cos : float → result float;
  math_sin : float → result float
}.

(** ** The body model *)

(** A three-element Python list of floats ([position], [velocity]) or a
    colour tuple; [v_0 p] is [p[0]]. *)
Record vec3 : Type := Vec3 { v_0 : float; v_1 : float; v_2 : float }.

Definition set_0 (x : float) (p : vec3) : vec3 := Vec3 x (v_1 p) (v_2 p).
Definition set_2 (z : float) (p : vec3) : vec3 := Vec3 (v_0 p) (v_1 p) z.

Module Planet.
Record t : Type := mk {
  radius : float;
  orbit_radius : float;
  orbit_speed : float;
  rotation_speed : float;
  color : vec3;
  current_angle : float;
  name : string;
  is_custom : bool;
  position : vec3;
  velocity : vec3;
  mass : float
}.

Definition with_angle (a : float) (p : t) : t :=
  mk (radius p) (orbit_radius p) (orbit_speed p) (rotation_speed p) (color p)
     a (name p) (is_custom p) (position p) (velocity p) (mass p).

(** The three attributes the solver and the reset write. *)
Definition with_orbit (a r w : float) (p : t) : t :=
  mk (radius p) r w (rotation_speed p) (color p)
     a (name p) (is_custom p) (position p) (velocity p) (mass p).
End Planet.

Module CustomMass.
Record t : Type := mk {
  position : vec3;
  mass : float;
  radius : float;
  color : vec3;
  velocity : vec3;
  is_selected : bool;
  trail : list (float * float)
}.

Definition with_selected (b : bool) (m : t) : t :=
  mk (position m) (mass m) (radius m) (color m) (velocity m) b (trail m).

Definition with_motion (p v : vec3) (tr : list (float * float)) (m : t) : t :=
  mk p (mass m) (radius m) (color m) v (is_selected m) tr.
End CustomMass.

(** References to [CustomMass] objects, and the store they point into. *)
Abbreviation ref := nat.
Abbreviation store := (gmap nat CustomMass.t).

#[global] Instance vec3_inhabited : Inhabited vec3 :=
  populate (Vec3 0 0 0).
#[global] Instance CustomMass_inhabited : Inhabited CustomMass.t :=
  populate (CustomMass.mk inhabitant 0%float 0%float inhabitant inhabitant false []).

(** One entry of [original_planets]. *)
Record snapshot : Type := Snapshot {
  snap_angle : float;
  snap_orbit_radius : float;
  snap_orbit_speed : float
}.

(** The attributes of [SolarSystemSimulation] (the window apart), and the
    store of the [CustomMass] objects created so far. *)
Record Sim : Type := mkSim {
  width : Z;
  height : Z;
  camera_angle_x : float;
  camera_angle_y : float;
  camera_distance : float;
  mouse_pressed : bool;
  last_mouse_x : Z;
  last_mouse_y : Z;
  time_speed : float;
  current_time : float;
  paused : bool;
  grid_size : Z;
  grid_spacing : float;
  grid_heights : list (list float);
  objs : store;
  custom_masses : list ref;
  selected_mass : option ref;
  spawn_mode : bool;
  spawn_mass : float;
  show_trails : bool;
  physics_enabled : bool;
  planets : list Planet.t;
  original_planets : list snapshot
}.

(** Attribute assignments: [set_f v s] is the state after [self.f = v]. *)

Definition set_camera_angle_x (v : float) (s : Sim) : Sim :=
  mkSim (width s) (height s) v (camera_angle_y s) (camera_distance s)
    (mouse_pressed s) (last_mouse_x s) (last_mouse_y s) (time_speed s)
    (current_time s) (paused s) (grid_size s) (grid_spacing s) (grid_heights
    s) (objs s) (custom_masses s) (selected_mass s) (spawn_mode s)
    (spawn_mass s) (show_trails s) (physics_enabled s) (planets s)
    (original_planets s).

Definition set_camera_angle_y (v : float) (s : Sim) : Sim :=
  mkSim (width s) (height s) (camera_angle_x s) v (camera_distance s)
    (mouse_pressed s) (last_mouse_x s) (last_mouse_y s) (time_speed s)
    (current_time s) (paused s) (grid_size s) (grid_spacing s) (grid_heights
    s) (objs s) (custom_masses s) (selected_mass s) (spawn_mode s)
    (spawn_mass s) (show_trails s) (physics_enabled s) (planets s)
    (original_planets s).

Definition set_camera_distance (v : float) (s : Sim) : Sim :=
  mkSim (width s) (height s) (camera_angle_x s) (camera_angle_y s) v
    (mouse_pressed s) (last_mouse_x s) (last_mouse_y s) (time_speed s)
    (current_time s) (paused s) (grid_size s) (grid_spacing s) (grid_heights
    s) (objs s) (custom_masses s) (selected_mass s) (spawn_mode s)
    (spawn_mass s) (show_trails s) (physics_enabled s) (planets s)
    (original_planets s).

Definition set_mouse_pressed (v : bool) (s : Sim) : Sim :=
  mkSim (width s) (height s) (camera_angle_x s) (camera_angle_y s)
    (camera_distance s) v (last_mouse_x s) (last_mouse_y s) (time_speed s)
    (current_time s) (paused s) (grid_size s) (grid_spacing s) (grid_heights
    s) (objs s) (custom_masses s) (selected_mass s) (spawn_mode s)
    (spawn_mass s) (show_trails s) (physics_enabled s) (planets s)
    (original_planets s).

Definition set_last_mouse_x (v : Z) (s : Sim) : Sim :=
  mkSim (width s) (height s) (camera_angle_x s) (camera_angle_y s)
    (camera_distance s) (mouse_pressed s) v (last_mouse_y s) (time_speed s)
    (current_time s) (paused s) (grid_size s) (grid_spacing s) (grid_heights
    s) (objs s) (custom_masses s) (selected_mass s) (spawn_mode s)
    (spawn_mass s) (show_trails s) (physics_enabled s) (planets s)
    (original_planets s).

Definition set_last_mouse_y (v : Z) (s : Sim) : Sim :=
  mkSim (width s) (height s) (camera_angle_x s) (camera_angle_y s)
    (camera_distance s) (mouse_pressed s) (last_mouse_x s) v (time_speed s)
    (current_time s) (paused s) (grid_size s) (grid_spacing s) (grid_heights
    s) (objs s) (custom_masses s) (selected_mass s) (spawn_mode s)
    (spawn_mass s) (show_trails s) (physics_enabled s) (planets s)
    (original_planets s).

Definition set_time_speed (v : float) (s : Sim) : Sim :=
  mkSim (width s) (height s) (camera_angle_x s) (camera_angle_y s)
    (camera_distance s) (mouse_pressed s) (last_mouse_x s) (last_mouse_y s)
    v (current_time s) (paused s) (grid_size s) (grid_spacing s)
    (grid_heights s) (objs s) (custom_masses s) (selected_mass s)
    (spawn_mode s) (spawn_mass s) (show_trails s) (physics_enabled s)
    (planets s) (original_planets s).

Definition set_current_time (v : float) (s : Sim) : Sim :=
  mkSim (width s) (height s) (camera_angle_x s) (camera_angle_y s)
    (camera_distance s) (mouse_pressed s) (last_mouse_x s) (last_mouse_y s)
    (time_speed s) v (paused s) (grid_size s) (grid_spacing s) (grid_heights
    s) (objs s) (custom_masses s) (selected_mass s) (spawn_mode s)
    (spawn_mass s) (show_trails s) (physics_enabled s) (planets s)
    (original_planets s).

Definition set_paused (v : bool) (s : Sim) : Sim :=
  mkSim (width s) (height s) (camera_angle_x s) (camera_angle_y s)
    (camera_distance s) (mouse_pressed s) (last_mouse_x s) (last_mouse_y s)
    (time_speed s) (current_time s) v (grid_size s) (grid_spacing s)
    (grid_heights s) (objs s) (custom_masses s) (selected_mass s)
    (spawn_mode s) (spawn_mass s) (show_trails s) (physics_enabled s)
    (planets s) (original_planets s).

Definition set_grid_heights (v : list (list float)) (s : Sim) : Sim :=
  mkSim (width s) (height s) (camera_angle_x s) (camera_angle_y s)
    (camera_distance s) (mouse_pressed s) (last_mouse_x s) (last_mouse_y s)
    (time_speed s) (current_time s) (paused s) (grid_size s) (grid_spacing
    s) v (objs s) (custom_masses s) (selected_mass s) (spawn_mode s)
    (spawn_mass s) (show_trails s) (physics_enabled s) (planets s)
    (original_planets s).

Definition set_objs (v : store) (s : Sim) : Sim :=
  mkSim (width s) (height s) (camera_angle_x s) (camera_angle_y s)
    (camera_distance s) (mouse_pressed s) (last_mouse_x s) (last_mouse_y s)
    (time_speed s) (current_time s) (paused s) (grid_size s) (grid_spacing
    s) (grid_heights s) v (custom_masses s) (selected_mass s) (spawn_mode s)
    (spawn_mass s) (show_trails s) (physics_enabled s) (planets s)
    (original_planets s).

Definition set_custom_masses (v : list ref) (s : Sim) : Sim :=
  mkSim (width s) (height s) (camera_angle_x s) (camera_angle_y s)
    (camera_distance s) (mouse_pressed s) (last_mouse_x s) (last_mouse_y s)
    (time_speed s) (current_time s) (paused s) (grid_size s) (grid_spacing
    s) (grid_heights s) (objs s) v (selected_mass s) (spawn_mode s)
    (spawn_mass s) (show_trails s) (physics_enabled s) (planets s)
    (original_planets s).

Definition set_selected_mass (v : option ref) (s : Sim) : Sim :=
  mkSim (width s) (height s) (camera_angle_x s) (camera_angle_y s)
    (camera_distance s) (mouse_pressed s) (last_mouse_x s) (last_mouse_y s)
    (time_speed s) (current_time s) (paused s) (grid_size s) (grid_spacing
    s) (grid_heights s) (objs s) (custom_masses s) v (spawn_mode s)
    (spawn_mass s) (show_trails s) (physics_enabled s) (planets s)
    (original_planets s).

Definition set_spawn_mode (v : bool) (s : Sim) : Sim :=
  mkSim (width s) (height s) (camera_angle_x s) (camera_angle_y s)
    (camera_distance s) (mouse_pressed s) (last_mouse_x s) (last_mouse_y s)
    (time_speed s) (current_time s) (paused s) (grid_size s) (grid_spacing
    s) (grid_heights s) (objs s) (custom_masses s) (selected_mass s) v
    (spawn_mass s) (show_trails s) (physics_enabled s) (planets s)
    (original_planets s).

Definition set_spawn_mass (v : float) (s : Sim) : Sim :=
  mkSim (width s) (height s) (camera_angle_x s) (camera_angle_y s)
    (camera_distance s) (mouse_pressed s) (last_mouse_x s) (last_mouse_y s)
    (time_speed s) (current_time s) (paused s) (grid_size s) (grid_spacing
    s) (grid_heights s) (objs s) (custom_masses s) (selected_mass s)
    (spawn_mode s) v (show_trails s) (physics_enabled s) (planets s)
    (original_planets s).

Definition set_show_trails (v : bool) (s : Sim) : Sim :=
  mkSim (width s) (height s) (camera_angle_x s) (camera_angle_y s)
    (camera_distance s) (mouse_pressed s) (last_mouse_x s) (last_mouse_y s)
    (time_speed s) (current_time s) (paused s) (grid_size s) (grid_spacing
    s) (grid_heights s) (objs s) (custom_masses s) (selected_mass s)
    (spawn_mode s) (spawn_mass s) v (physics_enabled s) (planets s)
    (original_planets s).

Definition set_physics_enabled (v : bool) (s : Sim) : Sim :=
  mkSim (width s) (height s) (camera_angle_x s) (camera_angle_y s)
    (camera_distance s) (mouse_pressed s) (last_mouse_x s) (last_mouse_y s)
    (time_speed s) (current_time s) (paused s) (grid_size s) (grid_spacing
    s) (grid_heights s) (objs s) (custom_masses s) (selected_mass s)
    (spawn_mode s) (spawn_mass s) (show_trails s) v (planets s)
    (original_planets s).

Definition set_planets (v : list Planet.t) (s : Sim) : Sim :=
  mkSim (width s) (height s) (camera_angle_x s) (camera_angle_y s)
    (camera_distance s) (mouse_pressed s) (last_mouse_x s) (last_mouse_y s)
    (time_speed s) (current_time s) (paused s) (grid_size s) (grid_spacing
    s) (grid_heights s) (objs s) (custom_masses s) (selected_mass s)
    (spawn_mode s) (spawn_mass s) (show_trails s) (physics_enabled s) v
    (original_planets s).

(** [xs[i]]. *)
Definition index {A : Type} (xs : list A) (i : nat) : result A :=
  match xs !! i with
  | Some x => Ok x
  | None => Raise IndexError
  end.

(** [xs.remove(x)]: the first occurrence goes, none is a [ValueError]. *)
Fixpoint list_remove (x : ref) (xs : list ref) : result (list ref) :=
  match xs with
  | [] => Raise ValueError
  | y :: ys => if decide (y = x) then Ok ys else (y ::.) <$> list_remove x ys
  end.

(** [range(n)]. *)
Definition range (n : Z) : list Z := seqZ 0 n.

(** ** The gravity solver: [apply_gravitational_forces] *)

Section Solver.
Context (L : Libm).
Local Open Scope float_scope.

(** The constant [G] of the solver. *)
Definition G : float := 0.1.

(** Lines 230-239, one turn of the inner loop: what [mass2], met at index
    [j], adds to the force accumulated on [mass1], whose index is [i]. *)
Definition add_pair_force (h : store) (i : nat) (mass1 : CustomMass.t)
    (force : float * float) (jm : nat * ref) : result (float * float) :=
  let '(force_x, force_z) := force in
  let '(j, r2) := jm in
  if bool_decide (i ≠ j) then
    let mass2 := h !!! r2 in
    let dx := v_0 (CustomMass.position mass2) - v_0 (CustomMass.position mass1) in
    let dz := v_2 (CustomMass.position mass2) - v_2 (CustomMass.position mass1) in
    distance ← Py.math_sqrt (dx * dx + dz * dz);
    if 0.1 <? distance then
      d2 ← float_pow L distance 2;
      force_magnitude ←
        Py.div (G * CustomMass.mass mass1 * CustomMass.mass mass2) d2;
      fx ← Py.div (force_magnitude * dx) distance;
      fz ← Py.div (force_magnitude * dz) distance;
      Ok (force_x + fx, force_z + fz)
    else Ok (force_x, force_z)
  else Ok (force_x, force_z).

(** Lines 241-250: the pull of the sun, [planets[0]], which sits at the
    origin. *)
Definition add_sun_force (ps : list Planet.t) (mass1 : CustomMass.t)
    (force : float * float) : result (float * float) :=
  let '(force_x, force_z) := force in
  let dx := 0 - v_0 (CustomMass.position mass1) in
  let dz := 0 - v_2 (CustomMass.position mass1) in
  distance ← Py.math_sqrt (dx * dx + dz * dz);
  if 0.1 <? distance then
    sun ← index ps 0;
    r3 ← float_pow L (Planet.radius sun) 3;
    let sun_mass := r3 * 10 in
    d2 ← float_pow L distance 2;
    force_magnitude ← Py.div (G * CustomMass.mass mass1 * sun_mass) d2;
    fx ← Py.div (force_magnitude * dx) distance;
    fz ← Py.div (force_magnitude * dz) distance;
    Ok (force_x + fx, force_z + fz)
  else Ok (force_x, force_z).

(** Lines 265-268: the trail gets the new point, after losing its oldest
    one when it already holds more than 100. *)
Definition add_to_trail (trail : list (float * float)) (p : float * float)
  : list (float * float) :=
  (if (100 <? length trail)%nat then drop 1 trail else trail) ++ [p].

(** Velocity and position of [mass1] after lines 252-263, under the force
    [(force_x, force_z)]. *)
Definition integrate (dt : float) (mass1 : CustomMass.t)
    (force : float * float) : result (vec3 * vec3) :=
  let '(force_x, force_z) := force in
  let vel := CustomMass.velocity mass1 in
  let pos := CustomMass.position mass1 in
  ax ← Py.div force_x (CustomMass.mass mass1);
  let vel_0 := v_0 vel + ax * dt in
  az ← Py.div force_z (CustomMass.mass mass1);
  let vel_2 := v_2 vel + az * dt in
  let damping := 0.999 in
  let vel_0 := vel_0 * damping in
  let vel_2 := vel_2 * damping in
  let pos_0 := v_0 pos + vel_0 * dt in
  let pos_2 := v_2 pos + vel_2 * dt in
  Ok (Vec3 pos_0 (v_1 pos) pos_2, Vec3 vel_0 (v_1 vel) vel_2).

(** Lines 226-268, one turn of the outer loop: the object behind the
    [i]-th reference is moved in the store, so the masses after it see
    its new position. *)
Definition move_mass (ps : list Planet.t) (masses : list ref) (dt : float)
    (h : store) (im : nat * ref) : result store :=
  let '(i, r1) := im in
  let mass1 := h !!! r1 in
  force ← for_each (add_pair_force h i mass1) (0, 0) (enumerate masses);
  force ← add_sun_force ps mass1 force;
  '(pos, vel) ← integrate dt mass1 force;
  let trail := add_to_trail (CustomMass.trail mass1) (v_0 pos, v_2 pos) in
  Ok (<[r1 := CustomMass.with_motion pos vel trail mass1]> h).

(** Lines 277-286, one turn of the inner loop of the second pass. *)
Definition add_perturbation (h : store) (planet_x planet_z : float)
    (total : float * float) (r : ref) : result (float * float) :=
  let '(total_perturbation_x, total_perturbation_z) := total in
  let mass := h !!! r in
  let dx := v_0 (CustomMass.position mass) - planet_x in
  let dz := v_2 (CustomMass.position mass) - planet_z in
  distance ← Py.math_sqrt (dx * dx + dz * dz);
  if 0.1 <? distance then
    d2 ← float_pow L distance 2;
    q ← Py.div (CustomMass.mass mass) d2;
    let perturbation_strength := q * 0.001 in
    px ← Py.div (perturbation_strength * dx) distance;
    pz ← Py.div (perturbation_strength * dz) distance;
    Ok (total_perturbation_x + px, total_perturbation_z + pz)
  else Ok (total_perturbation_x, total_perturbation_z).

(** Lines 272-292, one turn of the loop over [planets[1:]]. *)
Definition perturb_planet (h : store) (masses : list ref) (planet : Planet.t)
  : result Planet.t :=
  c ← math_cos L (Planet.current_angle planet);
  let planet_x := Planet.orbit_radius planet * c in
  s ← math_sin L (Planet.current_angle planet);
  let planet_z := Planet.orbit_radius planet * s in
  '(total_perturbation_x, total_perturbation_z) ←
    for_each (add_perturbation h planet_x planet_z) (0, 0) masses;
  if (0.001 <? abs total_perturbation_x) || (0.001 <? abs total_perturbation_z)
  then
    Ok (Planet.with_orbit (Planet.current_angle planet)
          (Planet.orbit_radius planet * (1 + total_perturbation_z * 0.001))
          (Planet.orbit_speed planet * (1 + total_perturbation_x * 0.01))
          planet)
  else Ok planet.

(** The loop over [planets[1:]]: the first planet is skipped. *)
Definition perturb_planets (h : store) (masses : list ref)
    (ps : list Planet.t) : result (list Planet.t) :=
  match ps with
  | [] => Ok []
  | sun :: rest => (sun ::.) <$> mapM (perturb_planet h masses) rest
  end.

Definition apply_gravitational_forces (dt : float) (s : Sim) : result Sim :=
  if negb (physics_enabled s) then Ok s
  else
    h ← for_each (move_mass (planets s) (custom_masses s) dt) (objs s)
          (enumerate (custom_masses s));
    ps ← perturb_planets h (custom_masses s) (planets s);
    Ok (set_planets ps (set_objs h s)).

End Solver.

(** ** The curvature grid: [update_spacetime_grid] *)

Section Grid.
Context (L : Libm).
Local Open Scope float_scope.

(** [grid[i][j] += c] on an array of rows. *)
Definition grid_add (i j : nat) (c : float) (g : list (list float))
  : result (list (list float)) :=
  row ← index g i;
  old ← index row j;
  Ok (<[i := <[j := old + c]> row]> g).

(** Lines 324-331: the curvature the body of mass [mass] at [(x, z)]
    causes at the sample point [(i, j)]. *)
Definition curvature_at (size : Z) (spacing : float) (x z mass : float)
    (i j : Z) : result float :=
  let grid_x := Py.float_of_Z (i - size `div` 2) * spacing in
  let grid_z := Py.float_of_Z (j - size `div` 2) * spacing in
  sx ← float_pow L (grid_x - x) 2;
  sz ← float_pow L (grid_z - z) 2;
  distance ← Py.math_sqrt (sx + sz);
  let distance := Py.max distance 0.1 in
  d2 ← float_pow L distance 2;
  q ← Py.div (- mass) d2;
  Ok (q * 2.0).

Definition _add_mass_to_grid (size : Z) (spacing : float) (x z mass : float)
    (g : list (list float)) : result (list (list float)) :=
  for_each (λ g i,
    for_each (λ g j,
      curvature ← curvature_at size spacing x z mass i j;
      grid_add (Z.to_nat i) (Z.to_nat j) curvature g)
    g (range size))
  g (range size).

(** Lines 307-312: where a planet is drawn on the plane. *)
Definition planet_xz (planet : Planet.t) : result (float * float) :=
  if Planet.orbit_radius planet =? 0 then Ok (0, 0)
  else
    c ← math_cos L (Planet.current_angle planet);
    s ← math_sin L (Planet.current_angle planet);
    Ok (Planet.orbit_radius planet * c, Planet.orbit_radius planet * s).

(** [grid_heights.fill(0.0)]. *)
Definition fill_zero (g : list (list float)) : list (list float) :=
  (λ row : list float, (λ _ : float, 0) <$> row) <$> g.

Definition update_spacetime_grid (s : Sim) : result Sim :=
  let g := fill_zero (grid_heights s) in
  g ← for_each (λ g planet,
         '(planet_x, planet_z) ← planet_xz planet;
         m ← float_pow L (Planet.radius planet) 2;
         _add_mass_to_grid (grid_size s) (grid_spacing s) planet_x planet_z m g)
       g (planets s);
  g ← for_each (λ g r,
         let mass := objs s !!! r in
         _add_mass_to_grid (grid_size s) (grid_spacing s)
           (v_0 (CustomMass.position mass)) (v_2 (CustomMass.position mass))
           (CustomMass.mass mass) g)
       g (custom_masses s);
  Ok (set_grid_heights g s).

End Grid.

(** ** Picking: [screen_to_world] and [find_nearest_mass] *)

(** What the OpenGL context answers: the viewport, and [gluUnProject] on
    the current modelview and projection matrices and that viewport (it
    raises on a matrix it cannot invert). *)
Record GLContext : Type := {
  viewport : Z * Z * Z * Z;
  gluUnProject : float → float → float → result vec3
}.

Section Picking.
Local Open Scope float_scope.

Definition screen_to_world (gl : GLContext) (screen_x screen_y : Z) : vec3 :=
  let opengl_y := ((viewport gl).2 - screen_y)%Z in
  let attempt : result (option vec3) :=
    near_point ←
      gluUnProject gl (Py.float_of_Z screen_x) (Py.float_of_Z opengl_y) 0.0;
    far_point ←
      gluUnProject gl (Py.float_of_Z screen_x) (Py.float_of_Z opengl_y) 1.0;
    if 0.001 <? abs (v_1 far_point - v_1 near_point) then
      t ← Py.div (- v_1 near_point) (v_1 far_point - v_1 near_point);
      let world_x := v_0 near_point + t * (v_0 far_point - v_0 near_point) in
      let world_z := v_2 near_point + t * (v_2 far_point - v_2 near_point) in
      Ok (Some (Vec3 world_x 0.0 world_z))
    else Ok None in
  match attempt with
  | Ok (Some world) => world
  | Ok None | Raise _ => Vec3 0.0 0.0 0.0
  end.

(** Lines 207-214, one turn of the scan: the pair is [(nearest,
    min_distance)]. *)
Definition nearer (h : store) (world_pos : vec3)
    (best : option ref * float) (r : ref) : result (option ref * float) :=
  let '(nearest, min_distance) := best in
  let mass := h !!! r in
  let dx := v_0 (CustomMass.position mass) - v_0 world_pos in
  let dz := v_2 (CustomMass.position mass) - v_2 world_pos in
  distance ← Py.math_sqrt (dx * dx + dz * dz);
  if distance <? min_distance then Ok (Some r, distance)
  else Ok (nearest, min_distance).

Definition find_nearest_mass (s : Sim) (world_pos : vec3)
    (max_distance : float) : result (option ref) :=
  fst <$> for_each (nearer (objs s) world_pos) (None, max_distance)
            (custom_masses s).

End Picking.

(** ** The controller: [spawn_custom_mass], [reset_simulation],
    [handle_input], [update] *)

Inductive key : Type :=
| K_ESCAPE | K_SPACE | K_PLUS | K_EQUALS | K_MINUS | K_UNDERSCORE
| K_f | K_s | K_r | K_c | K_m | K_t | K_p
| K_1 | K_2 | K_3 | K_4 | K_5 | K_DELETE | K_other.

Inductive event : Type :=
| QUIT
| KEYDOWN (k : key)
| MOUSEBUTTONDOWN (button : Z) (pos : Z * Z)
| MOUSEBUTTONUP (button : Z)
| MOUSEMOTION (pos : Z * Z)
| OTHER.

Section Controller.
Context (L : Libm).
Local Open Scope float_scope.

Definition colors : list vec3 :=
  [ Vec3 0.8 0.2 0.8; Vec3 1.0 0.5 0.0; Vec3 0.0 1.0 0.5;
    Vec3 1.0 0.2 0.2; Vec3 0.5 0.5 1.0 ].

(** [CustomMass(x, z, mass, color)], the constructor. *)
Definition new_mass (x z mass : float) (color : vec3) : result CustomMass.t :=
  p ← float_pow L mass (1 / 3);
  Ok (CustomMass.mk (Vec3 x 0.0 z) mass (p * 0.5) color (Vec3 0.0 0.0 0.0)
        false []).

Definition spawn_custom_mass (x z : float) (s : Sim) : result Sim :=
  color ← index colors (length (custom_masses s) `mod` length colors)%nat;
  custom_mass ← new_mass x z (spawn_mass s) color;
  let r := fresh (dom (objs s)) in
  Ok (set_custom_masses (custom_masses s ++ [r])
        (set_objs (<[r := custom_mass]> (objs s)) s)).

Definition reset_planet (originals : list snapshot) (ip : nat * Planet.t)
  : result Planet.t :=
  let '(i, planet) := ip in
  o ← index originals i;
  Ok (Planet.with_orbit (snap_angle o) (snap_orbit_radius o)
        (snap_orbit_speed o) planet).

Definition reset_simulation (s : Sim) : result Sim :=
  let s := set_current_time 0 s in
  let s := set_custom_masses [] s in
  let s := set_selected_mass None s in
  ps ← mapM (reset_planet (original_planets s)) (enumerate (planets s));
  Ok (set_planets ps s).

(** The [KEYDOWN] branch of [handle_input]; [None] is [return False]. *)
Definition handle_keydown (k : key) (s : Sim) : result (option Sim) :=
  match k with
  | K_ESCAPE => Ok None
  | K_SPACE => Ok (Some (set_paused (negb (paused s)) s))
  | K_PLUS | K_EQUALS =>
      Ok (Some (set_camera_distance (Py.max 10 (camera_distance s - 2)) s))
  | K_MINUS | K_UNDERSCORE =>
      Ok (Some (set_camera_distance (Py.min 100 (camera_distance s + 2)) s))
  | K_f => Ok (Some (set_time_speed (Py.min 5.0 (time_speed s + 0.5)) s))
  | K_s => Ok (Some (set_time_speed (Py.max 0.5 (time_speed s - 0.5)) s))
  | K_r => Some <$> reset_simulation s
  | K_c => Ok (Some (set_custom_masses [] s))
  | K_m => Ok (Some (set_spawn_mode (negb (spawn_mode s)) s))
  | K_t => Ok (Some (set_show_trails (negb (show_trails s)) s))
  | K_p => Ok (Some (set_physics_enabled (negb (physics_enabled s)) s))
  | K_1 => Ok (Some (set_spawn_mass 1.0 s))
  | K_2 => Ok (Some (set_spawn_mass 5.0 s))
  | K_3 => Ok (Some (set_spawn_mass 10.0 s))
  | K_4 => Ok (Some (set_spawn_mass 20.0 s))
  | K_5 => Ok (Some (set_spawn_mass 50.0 s))
  | K_DELETE =>
      match selected_mass s with
      | Some r =>
          masses ← list_remove r (custom_masses s);
          Ok (Some (set_selected_mass None (set_custom_masses masses s)))
      | None => Ok (Some s)
      end
  | K_other => Ok (Some s)
  end.

(** The left button, outside spawn mode: select the mass under the
    pointer or start turning the camera. *)
Definition click_select (gl : GLContext) (pos : Z * Z) (s : Sim)
  : result Sim :=
  let world_pos := screen_to_world gl pos.1 pos.2 in
  nearest_mass ← find_nearest_mass s world_pos 2.0;
  match nearest_mass with
  | Some r =>
      let h :=
        match selected_mass s with
        | Some old => alter (CustomMass.with_selected false) old (objs s)
        | None => objs s
        end in
      Ok (set_objs (alter (CustomMass.with_selected true) r h)
            (set_selected_mass (Some r) s))
  | None =>
      Ok (set_last_mouse_y pos.2 (set_last_mouse_x pos.1
            (set_mouse_pressed true s)))
  end.

(** The right button: the selected mass goes under the pointer, at rest
    and with an empty trail. *)
Definition click_move (gl : GLContext) (pos : Z * Z) (s : Sim) : Sim :=
  match selected_mass s with
  | Some r =>
      let world_pos := screen_to_world gl pos.1 pos.2 in
      let move (m : CustomMass.t) :=
        CustomMass.with_motion
          (set_2 (v_2 world_pos) (set_0 (v_0 world_pos) (CustomMass.position m)))
          (Vec3 0.0 0.0 0.0) [] m in
      set_objs (alter move r (objs s)) s
  | None => s
  end.

Definition drag_camera (pos : Z * Z) (s : Sim) : Sim :=
  if mouse_pressed s && negb (spawn_mode s) then
    let dx := (pos.1 - last_mouse_x s)%Z in
    let dy := (pos.2 - last_mouse_y s)%Z in
    let angle_y := camera_angle_y s + Py.float_of_Z dx * 0.5 in
    let angle_x := camera_angle_x s + Py.float_of_Z dy * 0.5 in
    let angle_x := Py.max (-90) (Py.min 90 angle_x) in
    set_last_mouse_y pos.2 (set_last_mouse_x pos.1
      (set_camera_angle_x angle_x (set_camera_angle_y angle_y s)))
  else s.

(** One turn of the loop over [pygame.event.get()]. *)
Definition handle_event (gl : GLContext) (ev : event) (s : Sim)
  : result (option Sim) :=
  match ev with
  | QUIT => Ok None
  | KEYDOWN k => handle_keydown k s
  | MOUSEBUTTONDOWN button pos =>
      if (button =? 1)%Z then
        if spawn_mode s then
          let world_pos := screen_to_world gl pos.1 pos.2 in
          Some <$> spawn_custom_mass (v_0 world_pos) (v_2 world_pos) s
        else Some <$> click_select gl pos s
      else if (button =? 3)%Z then Ok (Some (click_move gl pos s))
      else Ok (Some s)
  | MOUSEBUTTONUP button =>
      if (button =? 1)%Z then Ok (Some (set_mouse_pressed false s))
      else Ok (Some s)
  | MOUSEMOTION pos => Ok (Some (drag_camera pos s))
  | OTHER => Ok (Some s)
  end.

(** [handle_input]: the pair is the returned flag and the state. *)
Fixpoint handle_input (gl : GLContext) (events : list event) (s : Sim)
  : result (bool * Sim) :=
  match events with
  | [] => Ok (true, s)
  | ev :: events' =>
      o ← handle_event gl ev s;
      match o with
      | None => Ok (false, s)
      | Some s' => handle_input gl events' s'
      end
  end.

(** Lines 575-577, one turn of the loop over [planets[1:]]. *)
Definition advance (dt time_speed : float) (planet : Planet.t) : Planet.t :=
  let angle :=
    Planet.current_angle planet + Planet.orbit_speed planet * dt * time_speed in
  let angle :=
    if 2 * Py.math_pi <? angle then angle - 2 * Py.math_pi else angle in
  Planet.with_angle angle planet.

Definition advance_planets (dt time_speed : float) (ps : list Planet.t)
  : list Planet.t :=
  match ps with
  | [] => []
  | sun :: rest => sun :: (advance dt time_speed <$> rest)
  end.

Definition update (dt : float) (s : Sim) : result Sim :=
  if negb (paused s) then
    let s := set_current_time (current_time s + dt * time_speed s) s in
    let s := set_planets (advance_planets dt (time_speed s) (planets s)) s in
    s ← apply_gravitational_forces L (dt * time_speed s) s;
    update_spacetime_grid L s
  else Ok s.

(** [Planet(radius, orbit_radius, orbit_speed, rotation_speed, color,
    name)], the constructor. *)
Definition new_planet (radius orbit_radius orbit_speed rotation_speed : float)
    (color : vec3) (name : string) : result Planet.t :=
  mass ← float_pow L radius 3;
  Ok (Planet.mk radius orbit_radius orbit_speed rotation_speed color 0.0 name
        false (Vec3 0.0 0.0 0.0) (Vec3 0.0 0.0 0.0) mass).

Definition init_planets : result (list Planet.t) :=
  sun ← new_planet 2.0 0.0 0.0 0.1 (Vec3 1.0 1.0 0.2) "Sun";
  mercury ← new_planet 0.3 5.0 2.0 0.5 (Vec3 0.8 0.7 0.6) "Mercury";
  venus ← new_planet 0.5 7.0 1.5 0.3 (Vec3 1.0 0.8 0.4) "Venus";
  earth ← new_planet 0.6 10.0 1.0 0.8 (Vec3 0.2 0.5 1.0) "Earth";
  mars ← new_planet 0.4 13.0 0.8 0.7 (Vec3 1.0 0.3 0.2) "Mars";
  jupiter ← new_planet 1.5 18.0 0.5 1.2 (Vec3 1.0 0.7 0.3) "Jupiter";
  saturn ← new_planet 1.2 23.0 0.3 1.0 (Vec3 1.0 0.9 0.6) "Saturn";
  uranus ← new_planet 0.8 28.0 0.2 0.6 (Vec3 0.4 0.8 1.0) "Uranus";
  neptune ← new_planet 0.7 33.0 0.15 0.5 (Vec3 0.2 0.3 1.0) "Neptune";
  Ok [sun; mercury; venus; earth; mars; jupiter; saturn; uranus; neptune].

(** The state [__init__] builds, for a window of 1200 by 800. *)
Definition init : result Sim :=
  ps ← init_planets;
  Ok (mkSim 1200 800 30.0 0.0 50.0 false 0 0 1.0 0.0 false 80 0.6
        (replicate 80 (replicate 80 0.0)) ∅ [] None false 5.0 true true ps
        ((λ p, Snapshot (Planet.current_angle p) (Planet.orbit_radius p)
                 (Planet.orbit_speed p)) <$> ps)).

End Controller.

(** ** Drawing: [render] and the [draw_*] methods *)

Inductive gl_cap : Type := GL_LIGHTING | GL_BLEND.

Inductive gl_mode : Type := GL_LINES | GL_LINE_LOOP | GL_LINE_STRIP.

(** The OpenGL, GLU and pygame calls of the drawing code, with the
    arguments the code computes. *)
Inductive gl_call : Type :=
| glClear
| glLoadIdentity
| glTranslatef (x y z : float)
| glRotatef (angle x y z : float)
| glDisable (cap : gl_cap)
| glEnable (cap : gl_cap)
| glBlendFunc
| glColor3f (r g b : float)
| glColor4f (r g b a : float)
| glLineWidth (w : float)
| glBegin (mode : gl_mode)
| glVertex3f (x y z : float)
| glEnd
| glPushMatrix
| glPopMatrix
| gluNewQuadric
| gluSphere (radius : float) (slices stacks : Z)
| gluDeleteQuadric
| display_flip.

(** The calls of a loop whose body may raise: those of its turns, in
    order. *)
Definition draw_each {A : Type} (body : A → result (list gl_call))
    (xs : list A) : result (list gl_call) :=
  mjoin <$> mapM body xs.

Section Drawing.
Context (L : Libm).
Local Open Scope float_scope.

Definition draw_sphere (radius : float) : list gl_call :=
  [gluNewQuadric; gluSphere radius 20 20; gluDeleteQuadric].

Definition glColor (color : vec3) : gl_call :=
  glColor3f (v_0 color) (v_1 color) (v_2 color).

(** Lines 344-355, one turn of the inner loop: the two segments that
    leave the sample point [(i, j)]. *)
Definition draw_grid_cell (s : Sim) (i j : Z) : result (list gl_call) :=
  let x1 := Py.float_of_Z (i - grid_size s `div` 2) * grid_spacing s in
  let z1 := Py.float_of_Z (j - grid_size s `div` 2) * grid_spacing s in
  let x2 := Py.float_of_Z (i + 1 - grid_size s `div` 2) * grid_spacing s in
  let z2 := Py.float_of_Z (j + 1 - grid_size s `div` 2) * grid_spacing s in
  row ← index (grid_heights s) (Z.to_nat i);
  here ← index row (Z.to_nat j);
  row' ← index (grid_heights s) (Z.to_nat (i + 1));
  below ← index row' (Z.to_nat j);
  beside ← index row (Z.to_nat (j + 1));
  Ok [ glVertex3f x1 here z1; glVertex3f x2 below z1;
       glVertex3f x1 here z1; glVertex3f x1 beside z2 ].

Definition draw_spacetime_grid (s : Sim) : result (list gl_call) :=
  lines ← draw_each (λ i, draw_each (draw_grid_cell s i)
                            (range (grid_size s - 1)))
             (range (grid_size s - 1));
  Ok ([glDisable GL_LIGHTING; glColor3f 0.3 0.3 0.8; glLineWidth 1.0;
       glBegin GL_LINES] ++ lines ++ [glEnd; glEnable GL_LIGHTING]).

(** Lines 369-372: the [i]-th of the hundred points of an orbit. *)
Definition orbit_vertex (planet : Planet.t) (i : Z) : result gl_call :=
  let angle := 2.0 * Py.math_pi * Py.float_of_Z i / 100.0 in
  c ← math_cos L angle;
  let x := Planet.orbit_radius planet * c in
  s ← math_sin L angle;
  let z := Planet.orbit_radius planet * s in
  Ok (glVertex3f x 0 z).

Definition draw_orbits (s : Sim) : result (list gl_call) :=
  loops ← draw_each (λ planet,
             vertices ← mapM (orbit_vertex planet) (range 100);
             Ok ([glBegin GL_LINE_LOOP] ++ vertices ++ [glEnd]))
           (drop 1 (planets s));
  Ok ([glDisable GL_LIGHTING; glColor3f 0.5 0.5 0.5; glLineWidth 1.0]
      ++ loops ++ [glEnable GL_LIGHTING]).

(** Lines 380-405, one turn of the loop of [draw_planets]. *)
Definition draw_planet (s : Sim) (ip : nat * Planet.t)
  : result (list gl_call) :=
  let '(i, planet) := ip in
  body ←
    (if bool_decide (i = 0%nat) then
       Ok ([glDisable GL_LIGHTING; glEnable GL_BLEND; glBlendFunc;
            glColor4f 1.0 1.0 0.5 0.3]
           ++ draw_sphere (Planet.radius planet * 1.2)
           ++ [glDisable GL_BLEND; glEnable GL_LIGHTING;
               glColor (Planet.color planet)]
           ++ draw_sphere (Planet.radius planet))
     else
       c ← math_cos L (Planet.current_angle planet);
       let x := Planet.orbit_radius planet * c in
       sn ← math_sin L (Planet.current_angle planet);
       let z := Planet.orbit_radius planet * sn in
       Ok ([glTranslatef x 0 z;
            glRotatef (current_time s * Planet.rotation_speed planet * 50)
              0 1 0;
            glColor (Planet.color planet)]
           ++ draw_sphere (Planet.radius planet)));
  Ok ([glPushMatrix] ++ body ++ [glPopMatrix]).

Definition draw_planets (s : Sim) : result (list gl_call) :=
  draw_each (draw_planet s) (enumerate (planets s)).

(** Lines 414-420: the trail of one mass, drawn when it has two points. *)
Definition draw_trail (mass : CustomMass.t) : list gl_call :=
  if (1 <? length (CustomMass.trail mass))%nat then
    [glColor (CustomMass.color mass); glBegin GL_LINE_STRIP]
    ++ ((λ point : float * float, glVertex3f point.1 0 point.2)
          <$> CustomMass.trail mass)
    ++ [glEnd]
  else [].

(** Lines 425-438: one mass, under a larger white sphere when it is
    selected. *)
Definition draw_mass (mass : CustomMass.t) : list gl_call :=
  [glPushMatrix;
   glTranslatef (v_0 (CustomMass.position mass))
     (v_1 (CustomMass.position mass)) (v_2 (CustomMass.position mass))]
  ++ (if CustomMass.is_selected mass then
        [glDisable GL_LIGHTING; glColor3f 1.0 1.0 1.0]
        ++ draw_sphere (CustomMass.radius mass * 1.3)
        ++ [glEnable GL_LIGHTING]
      else [])
  ++ [glColor (CustomMass.color mass)]
  ++ draw_sphere (CustomMass.radius mass)
  ++ [glPopMatrix].

Definition draw_custom_masses (s : Sim) : list gl_call :=
  [glDisable GL_LIGHTING]
  ++ (if show_trails s then
        glLineWidth 2.0
        :: mjoin ((λ r, draw_trail (objs s !!! r)) <$> custom_masses s)
      else [])
  ++ [glEnable GL_LIGHTING]
  ++ mjoin ((λ r, draw_mass (objs s !!! r)) <$> custom_masses s).

Definition render (s : Sim) : result (list gl_call) :=
  grid ← draw_spacetime_grid s;
  orbits ← draw_orbits s;
  bodies ← draw_planets s;
  Ok ([glClear; glLoadIdentity;
       glTranslatef 0 0 (- camera_distance s);
       glRotatef (camera_angle_x s) 1 0 0;
       glRotatef (camera_angle_y s) 0 1 0]
      ++ grid ++ orbits ++ bodies ++ draw_custom_masses s ++ [display_flip]).

(** ** The main loop: [run] *)

(** The camera [render] sets: [camera_distance], [camera_angle_x] and
    [camera_angle_y]. *)
Definition camera (s : Sim) : float * float * float :=
  (camera_distance s, camera_angle_x s, camera_angle_y s).

(** What OpenGL answers [screen_to_world] depends on the modelview matrix
    it reads.  [setup_opengl] leaves the identity there; [render] (lines
    588-593) loads the identity and applies the camera, and every later
    change of the matrix in a frame is between a [glPushMatrix] and its
    [glPopMatrix].  So the context [handle_input] finds is [view None]
    until the first [render], and [view (Some c)] after a [render] that
    found the camera [c]. *)

(** Lines 640-644, one turn of the loop: the clock ticked [ms]
    milliseconds, the queue holds [events], and [rendered] is the camera
    of the last [render], if there was one. *)
Definition frame (view : option (float * float * float) → GLContext)
    (rendered : option (float * float * float)) (ms : Z)
    (events : list event) (s : Sim) : result (bool * Sim) :=
  let dt := Py.float_of_Z ms / 1000.0 in
  '(running, s) ← handle_input L (view rendered) events s;
  s ← update L dt s;
  _ ← render s;
  Ok (running, s).

(** The [while] loop on the frames given: the state when the loop ends,
    or after the last frame. *)
Fixpoint main_loop (view : option (float * float * float) → GLContext)
    (rendered : option (float * float * float))
    (frames : list (Z * list event)) (s : Sim) : result Sim :=
  match frames with
  | [] => Ok s
  | (ms, events) :: frames' =>
      '(running, s') ← frame view rendered ms events s;
      if running : bool
      then main_loop view (Some (camera s')) frames' s'
      else Ok s'
  end.

(** [run]: the loop starts before anything was rendered. *)
Definition run (view : option (float * float * float) → GLContext)
    (frames : list (Z * list event)) (s : Sim) : result Sim :=
  main_loop view None frames s.

End Drawing.

(** ** What [render] asks of the C library *)

(** The angles [draw_orbits] takes the cosine and sine of. *)
Definition orbit_angles : list float :=
  (λ i, 2.0 * Py.math_pi * Py.float_of_Z i / 100.0)%float <$> range 100.

(** [math.cos] and [math.sin] return at [x]. *)
Definition trig_returns (L : Libm) (x : float) : Prop :=
  (∃ c, math_cos L x = Ok c) ∧ (∃ sn, math_sin L x = Ok sn).

(** Checking that the trigonometry returns, by evaluation. *)
Definition trig_returnsb (L : Libm) (x : float) : bool :=
  match math_cos L x, math_sin L x with
  | Ok _, Ok _ => true
  | _, _ => false
  end.

(** ** Running the model *)

(** A libm for running the model on concrete inputs.  It answers where the
    correctly rounded result is known: a square is the rounded product; the
    cubes are those of the nine radii of [init_planets] and the cube roots
    those of the five spawn masses, as exact arithmetic rounds them (and as
    CPython on glibc returns them); the cosine and sine of 0 are 1 and 0.
    Any other argument raises [NotImplementedError], so a run that returns
    used no value outside this table. *)
Module Table.
Local Open Scope float_scope.

Fixpoint lookup (x : float) (table : list (float * float)) : result float :=
  match table with
  | [] => Raise NotImplementedError
  | (a, b) :: table' => if x =? a then Ok b else lookup x table'
  end.

Definition cubes : list (float * float) :=
  [ (2.0, 8.0); (0.3, 0.026999999999999996); (0.5, 0.125);
    (0.6, 0.21599999999999997); (0.4, 0.06400000000000002); (1.5, 3.375);
    (1.2, 1.7279999999999998); (0.8, 0.5120000000000001);
    (0.7, 0.3429999999999999) ].

Definition cube_roots : list (float * float) :=
  [ (1.0, 1.0); (5.0, 1.7099759466766968); (10.0, 2.154434690031884);
    (20.0, 2.7144176165949063); (50.0, 3.6840314986403864) ].

Definition pow (x y : float) : result float :=
  if y =? 2 then
    if is_infinity (x * x) && negb (is_infinity x) then Raise OverflowError
    else Ok (x * x)
  else if y =? 3 then lookup x cubes
  else if y =? 1 / 3 then lookup x cube_roots
  else Raise NotImplementedError.

Definition cos (x : float) : result float :=
  if x =? 0 then Ok 1 else Raise NotImplementedError.

Definition sin (x : float) : result float :=
  if x =? 0 then Ok x else Raise NotImplementedError.

Definition libm : Libm :=
  {| float_pow := pow; math_cos := cos; math_sin := sin |}.

(** A camera straight above the plane, a hundred pixels to the unit: the
    pixel [(x, y)] unprojects to the vertical line through
    [(x / 100, y / 100)], met at height 10 on the near plane and -10 on the
    far one. *)
Definition gl : GLContext :=
  {| viewport := (0, 0, 1200, 800)%Z;
     gluUnProject x y z := Ok (Vec3 (x / 100) (10 - 20 * z) (y / 100)) |}.

(** The value of a run that returned. *)
Definition run {A : Type} `{Inhabited A} (r : result A) : A :=
  match r with Ok a => a | Raise _ => inhabitant end.

#[local] Instance Sim_inhabited : Inhabited Sim :=
  populate (mkSim 0 0 0 0 0 false 0 0 0 0 false 0 0 [] ∅ [] None false 0
              false false [] []).

(** The program as it starts. *)
Definition startup : Sim := run (init libm).

(** Mercury as it starts, [planets[1]]. *)
Definition mercury : Planet.t :=
  Planet.mk 0.3 5.0 2.0 0.5 (Vec3 0.8 0.7 0.6) 0.0 "Mercury" false
    (Vec3 0.0 0.0 0.0) (Vec3 0.0 0.0 0.0) 0.026999999999999996.

(** [handle_input] on [events], from [s]. *)
Definition after (events : list event) (s : Sim) : Sim :=
  run (snd <$> handle_input libm gl events s).

(** Spawn mode on, then a left click on each pixel of [pixels]. *)
Definition spawn_at (pixels : list (Z * Z)) : list event :=
  KEYDOWN K_m :: (MOUSEBUTTONDOWN 1 <$> pixels).

(** One mass of 5.0 at [(3.0, 4.0)]. *)
Definition one_mass : Sim := after (spawn_at [(300, 400)%Z]) startup.

(** Two masses of 5.0, at the origin and at [(0.1, 0.0)]. *)
Definition two_close : Sim := after (spawn_at [(0, 800)%Z; (10, 800)%Z]) startup.

(** Two masses of 5.0, at [(3.0, 4.0)] and at [(5.0, 4.0)]. *)
Definition two_apart : Sim :=
  after (spawn_at [(300, 400)%Z; (500, 400)%Z]) startup.

(** One mass of 5.0 at [(5.0, 0.1)], beside Mercury, which starts at
    [(5.0, 0.0)]. *)
Definition beside_mercury : Sim := after (spawn_at [(500, 790)%Z]) startup.

(** [n] physics steps of [dt] each. *)
Fixpoint steps (n : nat) (dt : float) (s : Sim) : result Sim :=
  match n with
  | O => Ok s
  | S n' => s' ← apply_gravitational_forces libm dt s; steps n' dt s'
  end.

End Table.

(** A libm with the trigonometry of one frame: the squares, cubes and cube
    roots of [Table.libm], and the correctly rounded cosines and sines of
    the hundred angles [draw_orbits] asks for and of the angles of the
    eight planets after a first frame of 16 ms.  (They are also what
    CPython on glibc returns at these points.) *)
Module Orbit.
Local Open Scope float_scope.

Definition frame_angles : list float :=
  (λ orbit_speed, 0.0 + orbit_speed * (Py.float_of_Z 16 / 1000.0) * 1.0)
    <$> [2.0; 1.5; 1.0; 0.8; 0.5; 0.3; 0.2; 0.15].

Definition orbit_cosines : list float :=
  [
    1.0; 0.9980267284282716; 0.9921147013144779; 0.9822872507286887;
    0.9685831611286311; 0.9510565162951535; 0.9297764858882515;
    0.9048270524660196; 0.8763066800438636; 0.8443279255020151;
    0.8090169943749475; 0.7705132427757893; 0.7289686274214116;
    0.6845471059286886; 0.6374239897486897; 0.5877852522924732;
    0.5358267949789965; 0.48175367410171516; 0.42577929156507266;
    0.3681245526846781; 0.30901699437494745; 0.24868988716485474;
    0.18738131458572474; 0.12533323356430448; 0.06279051952931353;
    6.123233995736766e-17; -0.0627905195293134; -0.12533323356430415;
    -0.1873813145857246; -0.24868988716485485; -0.3090169943749471;
    -0.36812455268467775; -0.4257792915650727; -0.48175367410171543;
    -0.5358267949789969; -0.587785252292473; -0.6374239897486897;
    -0.6845471059286887; -0.7289686274214113; -0.7705132427757891;
    -0.8090169943749473; -0.8443279255020149; -0.8763066800438636;
    -0.9048270524660194; -0.9297764858882513; -0.9510565162951535;
    -0.968583161128631; -0.9822872507286887; -0.9921147013144778;
    -0.9980267284282716; -1.0; -0.9980267284282716; -0.9921147013144779;
    -0.9822872507286886; -0.9685831611286312; -0.9510565162951536;
    -0.9297764858882515; -0.9048270524660197; -0.8763066800438635;
    -0.8443279255020152; -0.8090169943749478; -0.7705132427757893;
    -0.7289686274214118; -0.6845471059286886; -0.6374239897486895;
    -0.5877852522924732; -0.5358267949789963; -0.48175367410171527;
    -0.42577929156507216; -0.3681245526846778; -0.30901699437494756;
    -0.24868988716485443; -0.18738131458572463; -0.1253332335643046;
    -0.06279051952931321; -1.8369701987210297e-16; 0.06279051952931283;
    0.12533323356430423; 0.18738131458572427; 0.24868988716485493;
    0.30901699437494723; 0.3681245526846774; 0.4257792915650718;
    0.4817536741017157; 0.5358267949789968; 0.5877852522924729;
    0.6374239897486893; 0.684547105928688; 0.7289686274214112;
    0.7705132427757894; 0.8090169943749473; 0.8443279255020147;
    0.8763066800438631; 0.9048270524660194; 0.9297764858882515;
    0.9510565162951535; 0.968583161128631; 0.9822872507286887;
    0.9921147013144778; 0.9980267284282716 ].

Definition orbit_sines : list float :=
  [
    0.0; 0.06279051952931337; 0.12533323356430426; 0.1873813145857246;
    0.2486898871648548; 0.3090169943749474; 0.3681245526846779;
    0.42577929156507266; 0.4817536741017153; 0.5358267949789967;
    0.5877852522924731; 0.6374239897486896; 0.6845471059286886;
    0.7289686274214116; 0.7705132427757893; 0.8090169943749473;
    0.8443279255020151; 0.8763066800438637; 0.9048270524660196;
    0.9297764858882513; 0.9510565162951535; 0.9685831611286311;
    0.9822872507286886; 0.9921147013144778; 0.9980267284282716; 1.0;
    0.9980267284282716; 0.9921147013144779; 0.9822872507286887;
    0.9685831611286311; 0.9510565162951536; 0.9297764858882515;
    0.9048270524660195; 0.8763066800438635; 0.844327925502015;
    0.8090169943749475; 0.7705132427757893; 0.7289686274214114;
    0.6845471059286888; 0.6374239897486899; 0.5877852522924732;
    0.535826794978997; 0.4817536741017152; 0.4257792915650729;
    0.36812455268467814; 0.3090169943749475; 0.24868988716485524;
    0.18738131458572457; 0.12533323356430454; 0.06279051952931358;
    1.2246467991473532e-16; -0.06279051952931335; -0.12533323356430429;
    -0.18738131458572477; -0.24868988716485457; -0.3090169943749473;
    -0.3681245526846779; -0.42577929156507227; -0.4817536741017154;
    -0.5358267949789964; -0.5877852522924727; -0.6374239897486896;
    -0.6845471059286884; -0.7289686274214116; -0.7705132427757894;
    -0.8090169943749473; -0.8443279255020153; -0.8763066800438636;
    -0.9048270524660198; -0.9297764858882515; -0.9510565162951535;
    -0.9685831611286312; -0.9822872507286887; -0.9921147013144778;
    -0.9980267284282716; -1.0; -0.9980267284282716; -0.9921147013144779;
    -0.9822872507286887; -0.9685831611286311; -0.9510565162951536;
    -0.9297764858882516; -0.9048270524660199; -0.8763066800438634;
    -0.844327925502015; -0.8090169943749476; -0.7705132427757896;
    -0.7289686274214121; -0.684547105928689; -0.6374239897486896;
    -0.5877852522924734; -0.5358267949789971; -0.4817536741017161;
    -0.425779291565073; -0.36812455268467786; -0.3090169943749476;
    -0.24868988716485535; -0.18738131458572468; -0.12533323356430465;
    -0.06279051952931326 ].

Definition frame_cosines : list float :=
  [
    0.9994880436891754; 0.9997120138237345; 0.9998720027306434;
    0.9999180811184749; 0.9999680001706663; 0.9999884800221184;
    0.9999948800043691; 0.9999971200013824 ].

Definition frame_sines : list float :=
  [
    0.03199453894628012; 0.02399769606635429; 0.015999317342071415;
    0.012799650477529968; 0.007999914666939733; 0.004799981568021233;
    0.003199994538669463; 0.0023999976960006634 ].

Definition cos (x : float) : result float :=
  Table.lookup x (zip (orbit_angles ++ frame_angles)
                    (orbit_cosines ++ frame_cosines)).

Definition sin (x : float) : result float :=
  Table.lookup x (zip (orbit_angles ++ frame_angles)
                    (orbit_sines ++ frame_sines)).

Definition libm : Libm :=
  {| float_pow := Table.pow; math_cos := cos; math_sin := sin |}.

End Orbit.

(** A libm with the trigonometry of one frame of [1e80] seconds: the
    squares, cubes and cube roots of [Table.libm], and the correctly
    rounded cosines and sines of the angles of the eight planets after
    such a frame.  (They are also what CPython on glibc returns at these
    points.) *)
Module LongFrame.
Local Open Scope float_scope.

Definition angles : list float :=
  (λ orbit_speed, 0.0 + orbit_speed * 1e80 * 1.0 - 2 * Py.math_pi)
    <$> [2.0; 1.5; 1.0; 0.8; 0.5; 0.3; 0.2; 0.15].

Definition cosines : list float :=
  [ -0.7453047473483136; 0.8261926789023026; -0.356857991820056;
    0.6458815849290837; 0.5670723094015189; 0.682146812820736;
    -0.21545203461259377; -0.9171005432395992 ].

Definition sines : list float :=
  [ -0.6667239560568274; -0.5633876616755434; 0.9341586448104823;
    0.7634376059963872; 0.8236680131643015; -0.7312152390086737;
    0.9765144242566485; 0.39865598401332447 ].

Definition cos (x : float) : result float :=
  Table.lookup x (zip angles cosines).

Definition sin (x : float) : result float :=
  Table.lookup x (zip angles sines).

Definition libm : Libm :=
  {| float_pow := Table.pow; math_cos := cos; math_sin := sin |}.

End LongFrame.

(** Some more states to run the model on. *)

(** A mass of 50.0 at [(5.0, 0.5)], beside Mercury. *)
Definition heavy_beside_mercury : Sim :=
  Table.after [KEYDOWN K_5; KEYDOWN K_m; MOUSEBUTTONDOWN 1 (500, 750)%Z]
    Table.startup.

(** Two masses, the second one selected. *)
Definition second_selected : Sim :=
  Table.after [KEYDOWN K_m; MOUSEBUTTONDOWN 1 (300, 400)%Z;
               MOUSEBUTTONDOWN 1 (500, 400)%Z; KEYDOWN K_m;
               MOUSEBUTTONDOWN 1 (500, 400)%Z] Table.startup.

(** Spawn a mass, select it, then clear all: the selection outlives the
    list. *)
Definition stale_selection : Sim :=
  Table.after [KEYDOWN K_m; MOUSEBUTTONDOWN 1 (300, 400)%Z; KEYDOWN K_m;
               MOUSEBUTTONDOWN 1 (300, 400)%Z; KEYDOWN K_c] Table.startup.

(** The startup state with one body more, [CustomMass(3.0, 4.0, 0.0)]. *)
Definition with_massless_body : Sim :=
  set_custom_masses [0%nat]
    (set_objs
       {[ 0%nat := CustomMass.mk (Vec3 3 0 4) 0%float 0%float
                     (Vec3 0.8 0.2 0.8) (Vec3 0 0 0) false [] ]}
       Table.startup).

(** A view to run the main loop with: [Table.gl] until the first
    [render], then a camera straight above the plane with as many pixels
    to the unit as the camera is far. *)
Definition zooming_view (c : option (float * float * float)) : GLContext :=
  match c with
  | None => Table.gl
  | Some (distance, _, _) =>
      {| viewport := (0, 0, 1200, 800)%Z;
         gluUnProject x y z :=
           Ok (Vec3 (x / distance) (10 - 20 * z) (y / distance))%float |}
  end.

(** Two frames of 16 ms: spawn mode and a click on the pixel
    [(300, 400)], then the space key and a click on the same pixel. *)
Definition two_frames : list (Z * list event) :=
  [ (16, Table.spawn_at [(300, 400)])%Z;
    (16, [KEYDOWN K_SPACE; MOUSEBUTTONDOWN 1 (300, 400)])%Z ].

(** [n] calls of [update] with the same [dt]. *)
Fixpoint updates (L : Libm) (n : nat) (dt : float) (s : Sim) : result Sim :=
  match n with
  | O => Ok s
  | S n' => s' ← update L dt s; updates L n' dt s'
  end.

(** ** The vocabulary of the specification *)

Section Stated.
Context (L : Libm).
Local Open Scope float_scope.

(** The floor on distances, [too_close d]: a body that close exerts
    nothing.  The specification words it [d < 0.1]; the solver's test is
    [not (d > 0.1)]. *)
Definition floor_as_specified (d : float) : bool := d <? 0.1.
Definition floor_as_coded (d : float) : bool := negb (0.1 <? d).

Context (too_close : float → bool).

(** Newton's pull on [m1] of a body of mass [mass2] at [(x2, z2)]: of
    magnitude [G * m1 * mass2 / d ** 2], along the separation divided by
    its length [d]; [None] is no force.  The mass of the other body is
    looked at only when it is far enough. *)
Definition newton (m1 : CustomMass.t) (x2 z2 : float) (mass2 : result float)
  : result (option (float * float)) :=
  let dx := x2 - v_0 (CustomMass.position m1) in
  let dz := z2 - v_2 (CustomMass.position m1) in
  d ← Py.math_sqrt (dx * dx + dz * dz);
  if too_close d then Ok None
  else
    m2 ← mass2;
    d2 ← float_pow L d 2;
    magnitude ← Py.div (G * CustomMass.mass m1 * m2) d2;
    fx ← Py.div (magnitude * dx) d;
    fz ← Py.div (magnitude * dz) d;
    Ok (Some (fx, fz)).

(** The effective mass of the central body: ten times its radius cubed. *)
Definition sun_mass (ps : list Planet.t) : result float :=
  sun ← index ps 0;
  r3 ← float_pow L (Planet.radius sun) 3;
  Ok (r3 * 10).

Definition add_force (total : float * float) (f : option (float * float))
  : float * float :=
  match f with
  | Some (fx, fz) => (total.1 + fx, total.2 + fz)
  | None => total
  end.

(** The net force on the [i]-th mass, [m1]: the pulls of every other
    custom mass, in list order, then the pull of the central body at the
    origin, added up from zero. *)
Definition net_force (ps : list Planet.t) (h : store) (masses : list ref)
    (i : nat) (m1 : CustomMass.t) : result (float * float) :=
  pairs ← mapM (λ r, let m2 := h !!! r in
                  newton m1 (v_0 (CustomMass.position m2))
                    (v_2 (CustomMass.position m2)) (Ok (CustomMass.mass m2)))
             (delete i masses);
  sun ← newton m1 0 0 (sun_mass ps);
  Ok (foldl add_force (0, 0) (pairs ++ [sun])).

(** The tug of the custom mass [m] on a planet at [(planet_x, planet_z)]:
    of strength [mass / d ** 2 * 0.001], along the separation divided by
    its length. *)
Definition tug (planet_x planet_z : float) (m : CustomMass.t)
  : result (option (float * float)) :=
  let dx := v_0 (CustomMass.position m) - planet_x in
  let dz := v_2 (CustomMass.position m) - planet_z in
  d ← Py.math_sqrt (dx * dx + dz * dz);
  if too_close d then Ok None
  else
    d2 ← float_pow L d 2;
    q ← Py.div (CustomMass.mass m) d2;
    let strength := q * 0.001 in
    px ← Py.div (strength * dx) d;
    pz ← Py.div (strength * dz) d;
    Ok (Some (px, pz)).

(** The perturbation vector of a planet: the tugs of all custom masses,
    in list order, added up from zero. *)
Definition perturbation (h : store) (masses : list ref)
    (planet_x planet_z : float) : result (float * float) :=
  tugs ← mapM (λ r, tug planet_x planet_z (h !!! r)) masses;
  Ok (foldl add_force (0, 0) tugs).

(** The planet under the perturbation [(px, pz)]. *)
Definition perturbed (planet : Planet.t) (p : float * float) : Planet.t :=
  if (0.001 <? abs p.1) || (0.001 <? abs p.2) then
    Planet.with_orbit (Planet.current_angle planet)
      (Planet.orbit_radius planet * (1 + p.2 * 0.001))
      (Planet.orbit_speed planet * (1 + p.1 * 0.01)) planet
  else planet.

(** A planet after the feedback pass, from its position on its orbit. *)
Definition feedback (h : store) (masses : list ref) (planet : Planet.t)
  : result Planet.t :=
  c ← math_cos L (Planet.current_angle planet);
  s ← math_sin L (Planet.current_angle planet);
  p ← perturbation h masses (Planet.orbit_radius planet * c)
        (Planet.orbit_radius planet * s);
  Ok (perturbed planet p).

(** The grid [recompute] leaves, a planet of radius [r] weighing
    [r ** exponent]. *)
Definition recompute (exponent : float) (s : Sim)
  : result (list (list float)) :=
  g ← for_each (λ g planet,
         '(planet_x, planet_z) ← planet_xz L planet;
         m ← float_pow L (Planet.radius planet) exponent;
         _add_mass_to_grid L (grid_size s) (grid_spacing s) planet_x planet_z
           m g)
       (fill_zero (grid_heights s)) (planets s);
  for_each (λ g r,
    let mass := objs s !!! r in
    _add_mass_to_grid L (grid_size s) (grid_spacing s)
      (v_0 (CustomMass.position mass)) (v_2 (CustomMass.position mass))
      (CustomMass.mass mass) g)
  g (custom_masses s).

End Stated.

(** [grid[i][j]]. *)
Definition cell (g : list (list float)) (i j : nat) : option float :=
  g !! i ≫= (.!! j).

(** ** Comparing floats: the order of their keys *)

Module FloatOrder.

(** A float that is not a NaN has a key; floats compare as their keys do,
    lexicographically.  The first component tells infinities, finite
    numbers of either sign and zeros apart. *)
Definition key (x : spec_float) : Z * Z * Z :=
  match x with
  | S754_zero _ => (0, 0, 0)%Z
  | S754_infinity s => (if s then (-2)%Z else 2%Z, 0%Z, 0%Z)
  | S754_nan => (3, 0, 0)%Z
  | S754_finite s m e =>
      if s then ((-1)%Z, (- e)%Z, Zneg m) else (1%Z, e, Zpos m)
  end.

Definition lexcmp (a b : Z * Z * Z) : comparison :=
  match (a.1.1 ?= b.1.1)%Z with
  | Eq => match (a.1.2 ?= b.1.2)%Z with
          | Eq => (a.2 ?= b.2)%Z
          | c => c
          end
  | c => c
  end.

Definition klt (a b : Z * Z * Z) : Prop :=
  (a.1.1 < b.1.1
   ∨ (a.1.1 = b.1.1 ∧ (a.1.2 < b.1.2 ∨ (a.1.2 = b.1.2 ∧ a.2 < b.2))))%Z.

Definition is_nan (x : spec_float) : bool :=
  match x with S754_nan => true | _ => false end.

Definition nan (x : float) : Prop := is_nan (Prim2SF x) = true.
Definition fkey (x : float) : Z * Z * Z := key (Prim2SF x).

(** Zero of either sign, positive, or a NaN: what [x < 0] is false of. *)
Definition not_negative (x : spec_float) : bool :=
  match x with
  | S754_zero _ | S754_nan => true
  | S754_infinity s | S754_finite s _ _ => negb s
  end.

End FloatOrder.


(** The distance [find_nearest_mass] measures, in the XZ plane. *)
Definition xz_distance (world_pos : vec3) (m : CustomMass.t) : float :=
  let dx := (v_0 (CustomMass.position m) - v_0 world_pos)%float in
  let dz := (v_2 (CustomMass.position m) - v_2 world_pos)%float in
  sqrt (dx * dx + dz * dz)%float.

(** What the scan knows after the masses [seen]: nothing within reach
    yet, or the first of the nearest ones. *)
Definition scanned (h : store) (world_pos : vec3) (max_distance : float)
    (seen : list ref) (best : option ref * float) : Prop :=
  let dist r := xz_distance world_pos (h !!! r) in
  match best.1 with
  | None =>
      best.2 = max_distance ∧
      ∀ r, r ∈ seen → (dist r <? max_distance)%float = false
  | Some r =>
      best.2 = dist r ∧ (dist r <? max_distance)%float = true ∧
      ∃ k, seen !! k = Some r ∧
           (∀ r', r' ∈ seen → (dist r' <? dist r)%float = false) ∧
           (∀ j r', (j < k)%nat → seen !! j = Some r' →
                    (dist r' <=? dist r)%float = false)
  end.

(** The references of a state the program can reach: the list holds no
    mass twice, and every reference has its object. *)
Definition well_formed (s : Sim) : Prop :=
  NoDup (custom_masses s)
  ∧ (∀ r, r ∈ custom_masses s → r ∈ dom (objs s))
  ∧ (∀ r, selected_mass s = Some r → r ∈ dom (objs s)).

(** The masses met from index [n] on, the [i]-th left out. *)
Definition others_from (n i : nat) (l : list ref) : list ref :=
  if decide (n ≤ i)%nat then delete (i - n)%nat l else l.

(** ** Reachable states and what holds of them *)

(** The states the program reaches: the one [__init__] builds, and from
    a state it reaches the one after an event of [handle_input] and the
    one after a call of [update]. *)
Inductive reachable (L : Libm) (gl : GLContext) : Sim → Prop :=
| reachable_init s :
    init L = Ok s → reachable L gl s
| reachable_event ev s s' :
    reachable L gl s → handle_event L gl ev s = Ok (Some s') →
    reachable L gl s'
| reachable_update dt s s' :
    reachable L gl s → update L dt s = Ok s' → reachable L gl s'.

(** The masses of the list that are drawn highlighted are the selected
    one. *)
Definition highlight_consistent (s : Sim) : Prop :=
  ∀ r, r ∈ custom_masses s →
    (CustomMass.is_selected (objs s !!! r) = true ↔ selected_mass s = Some r).

(** The values the keys give the time scale, the camera distance and the
    spawn mass. *)
Definition speeds : list float :=
  [0.5; 1.0; 1.5; 2.0; 2.5; 3.0; 3.5; 4.0; 4.5; 5.0]%float.

Definition zoom_levels : list float :=
  (λ k, Py.float_of_Z (10 + 2 * k)) <$> seqZ 0 46.

Definition spawn_masses : list float := [1.0; 5.0; 10.0; 20.0; 50.0]%float.

Definition controls_in_range (s : Sim) : Prop :=
  time_speed s ∈ speeds ∧ camera_distance s ∈ zoom_levels
  ∧ spawn_mass s ∈ spawn_masses
  ∧ (-90 <=? camera_angle_x s)%float = true
  ∧ (camera_angle_x s <=? 90)%float = true.

(** A custom mass as [spawn_custom_mass] makes it and the solver and the
    right button leave it: one of the five spawn masses and colours, its
    radius half the cube root of its mass, on the ground plane with no
    vertical velocity, and with a trail of at most 101 points. *)
Definition spawned (L : Libm) (m : CustomMass.t) : Prop :=
  CustomMass.mass m ∈ spawn_masses
  ∧ CustomMass.color m ∈ colors
  ∧ (∃ p, float_pow L (CustomMass.mass m) (1 / 3) = Ok p
          ∧ CustomMass.radius m = (p * 0.5)%float)
  ∧ v_1 (CustomMass.position m) = 0%float
  ∧ v_1 (CustomMass.velocity m) = 0%float
  ∧ (length (CustomMass.trail m) ≤ 101)%nat.

(** [p] is [p0] but for its angle, orbit radius and orbit speed. *)
Definition same_body (p p0 : Planet.t) : Prop :=
  Planet.with_orbit (Planet.current_angle p0) (Planet.orbit_radius p0)
    (Planet.orbit_speed p0) p = p0.

Definition snapshot_of (p : Planet.t) : snapshot :=
  Snapshot (Planet.current_angle p) (Planet.orbit_radius p)
    (Planet.orbit_speed p).

(** The planets are those [init_planets] made, moved on their orbits at
    most, the first one not even that; the snapshots are those taken at
    startup. *)
Definition planets_as_built (L : Libm) (s : Sim) : Prop :=
  ∃ ps0, init_planets L = Ok ps0
    ∧ original_planets s = snapshot_of <$> ps0
    ∧ Forall2 same_body (planets s) ps0
    ∧ planets s !! 0%nat = ps0 !! 0%nat.

(** The grid has [grid_size] rows of [grid_size] heights. *)
Definition square (size : Z) (g : list (list float)) : Prop :=
  length g = Z.to_nat size ∧ Forall (λ row, length row = Z.to_nat size) g.

Definition grid_as_built (s : Sim) : Prop :=
  grid_size s = 80%Z ∧ grid_spacing s = 0.6%float
  ∧ square 80 (grid_heights s).

(** What holds of every state the program reaches. *)
Definition invariant (L : Libm) (s : Sim) : Prop :=
  well_formed s ∧ highlight_consistent s ∧ controls_in_range s
  ∧ (∀ r, r ∈ dom (objs s) → spawned L (objs s !!! r))
  ∧ planets_as_built L s ∧ grid_as_built s.

(** ** The OpenGL state the drawing code relies on *)

(** The part of the OpenGL state the calls of [gl_call] read and write:
    the two capabilities, the depth of the matrix stack above its base,
    whether a [glBegin] is open, and the quadrics alive. *)
Record gl_state : Type := GLState {
  lighting : bool;
  blend : bool;
  matrix_depth : nat;
  in_primitive : bool;
  quadrics : nat
}.

Definition set_cap (cap : gl_cap) (b : bool) (st : gl_state) : gl_state :=
  match cap with
  | GL_LIGHTING =>
      GLState b (blend st) (matrix_depth st) (in_primitive st) (quadrics st)
  | GL_BLEND =>
      GLState (lighting st) b (matrix_depth st) (in_primitive st) (quadrics st)
  end.

(** One call: [None] is a call OpenGL rejects or leaves undefined (a call
    other than a vertex or a colour between [glBegin] and [glEnd], a
    vertex outside, a [glEnd] with nothing open, a pop of the base
    matrix, a sphere or a deletion without a quadric), and also a colour
    between [glBegin] and [glEnd]: OpenGL would take it, the drawing code
    sends none, and so only vertices pass between the two. *)
Definition gl_step (st : gl_state) (c : gl_call) : option gl_state :=
  if in_primitive st then
    match c with
    | glVertex3f _ _ _ => Some st
    | glEnd =>
        Some (GLState (lighting st) (blend st) (matrix_depth st) false
                (quadrics st))
    | _ => None
    end
  else
    match c with
    | glBegin _ =>
        Some (GLState (lighting st) (blend st) (matrix_depth st) true
                (quadrics st))
    | glEnd | glVertex3f _ _ _ => None
    | glEnable cap => Some (set_cap cap true st)
    | glDisable cap => Some (set_cap cap false st)
    | glPushMatrix =>
        Some (GLState (lighting st) (blend st) (S (matrix_depth st)) false
                (quadrics st))
    | glPopMatrix =>
        match matrix_depth st with
        | O => None
        | S d => Some (GLState (lighting st) (blend st) d false (quadrics st))
        end
    | gluNewQuadric =>
        Some (GLState (lighting st) (blend st) (matrix_depth st) false
                (S (quadrics st)))
    | gluSphere _ _ _ =>
        match quadrics st with O => None | S _ => Some st end
    | gluDeleteQuadric =>
        match quadrics st with
        | O => None
        | S q => Some (GLState (lighting st) (blend st) (matrix_depth st) false q)
        end
    | _ => Some st
    end.

Definition gl_run (st : gl_state) (calls : list gl_call) : option gl_state :=
  foldl (λ o c, o ≫= (λ st, gl_step st c)) (Some st) calls.

(** The state [setup_opengl] leaves: lighting on, blending off. *)
Definition gl_ready : gl_state := GLState true false 0 false 0.

(** The grid [g] with [c i j] added to the height of row [i], column [j]. *)
Definition dented (c : nat → nat → float) (g : list (list float))
  : list (list float) :=
  imap (λ i row, imap (λ j old, (old + c i j)%float) row) g.

(** What the solver leaves of a mass: all but the x and z components of
    its position and velocity, and its trail. *)
Definition moved_only (m m' : CustomMass.t) : Prop :=
  CustomMass.mass m' = CustomMass.mass m
  ∧ CustomMass.radius m' = CustomMass.radius m
  ∧ CustomMass.color m' = CustomMass.color m
  ∧ CustomMass.is_selected m' = CustomMass.is_selected m
  ∧ v_1 (CustomMass.position m') = v_1 (CustomMass.position m)
  ∧ v_1 (CustomMass.velocity m') = v_1 (CustomMass.velocity m)
  ∧ ((length (CustomMass.trail m) ≤ 101)%nat →
     (length (CustomMass.trail m') ≤ 101)%nat).

(** The row [i] after the first [k] turns of the inner loop, and the grid
    after the first [k] turns of the outer one. *)
Definition dent_row (c : nat → nat → float) (i k : nat) (row : list float)
  : list float :=
  imap (λ j old, if (j <? k)%nat then (old + c i j)%float else old) row.

Definition dent_rows (c : nat → nat → float) (n k : nat)
    (g : list (list float)) : list (list float) :=
  imap (λ i row, if (i <? k)%nat then dent_row c i n row else row) g.

(** Calls that leave the OpenGL state [st] as they found it. *)
Definition gl_neutral (st : gl_state) (calls : list gl_call) : Prop :=
  gl_run st calls = Some st.

Definition is_vertex (c : gl_call) : Prop :=
  match c with glVertex3f _ _ _ => True | _ => False end.

(** The calls made while a primitive is open, that is after a [glBegin]
    and before the next [glEnd]; [inside] tells whether one is open when
    [calls] start. *)
Fixpoint between_begin_and_end (inside : bool) (calls : list gl_call)
  : list gl_call :=
  match calls with
  | [] => []
  | glBegin _ :: calls' => between_begin_and_end true calls'
  | glEnd :: calls' => between_begin_and_end false calls'
  | c :: calls' =>
      (if inside then [c] else []) ++ between_begin_and_end inside calls'
  end.

(** A state outside [glBegin] and [glEnd], with lighting on. *)
Definition gl_lit (st : gl_state) : Prop :=
  lighting st = true ∧ in_primitive st = false.

(** ** The spheres drawn *)

(** The radii of the spheres among [calls], in the order drawn. *)
Definition spheres (calls : list gl_call) : list float :=
  omap (λ c, match c with gluSphere radius _ _ => Some radius | _ => None end)
    calls.

(** The spheres of one custom mass: its own, after a larger one when it
    is the selected mass. *)
Definition mass_spheres (s : Sim) (r : ref) : list float :=
  let mass := objs s !!! r in
  (if decide (selected_mass s = Some r)
   then [(CustomMass.radius mass * 1.3)%float] else [])
  ++ [CustomMass.radius mass].

(** ** The exceptions of [update] *)

(** The C library raised [e], at some argument. *)
Definition libm_raises (L : Libm) (e : exn) : Prop :=
  (∃ x y, float_pow L x y = Raise e)
  ∨ (∃ x, math_cos L x = Raise e) ∨ (∃ x, math_sin L x = Raise e).

(** A square [x ** 2] came out zero, for an [x] that is not below 0.1. *)
Definition zero_square (L : Libm) : Prop :=
  ∃ x p, (x <? 0.1)%float = false ∧ float_pow L x 2 = Ok p
         ∧ (p =? 0)%float = true.

(** Two squares came out with a sum below zero. *)
Definition negative_squares (L : Libm) : Prop :=
  ∃ x y p q, float_pow L x 2 = Ok p ∧ float_pow L y 2 = Ok q
             ∧ (p + q <? 0)%float = true.

(** The exceptions the arithmetic of [update] can raise. *)
Definition arithmetic_error (L : Libm) (e : exn) : Prop :=
  libm_raises L e
  ∨ (e = ZeroDivisionError ∧ zero_square L)
  ∨ (e = ValueError ∧ negative_squares L).

(** * Properties *)

(** ** Loops and exceptions *)

Lemma bind_Ok {A B : Type} (m : result A) (f : A → result B) (b : B) :
  m ≫= f = Ok b ↔ ∃ a, m = Ok a ∧ f a = Ok b.
Proof.
  destruct m as [a|e]; cbn; split.
  - eauto.
  - now intros (a' & [= <-] & ?).
  - discriminate.
  - now intros (a' & [=] & _).
Qed.

Lemma fmap_Ok {A B : Type} (f : A → B) (m : result A) (b : B) :
  f <$> m = Ok b ↔ ∃ a, m = Ok a ∧ b = f a.
Proof.
  destruct m as [a|e]; cbn; split.
  - intros [= <-]. eauto.
  - now intros (a' & [= <-] & ->).
  - discriminate.
  - now intros (a' & [=] & _).
Qed.

Ltac inv_ok :=
  repeat match goal with
  | H : _ ≫= _ = Ok _ |- _ => apply bind_Ok in H as (? & ? & H)
  | H : _ <$> _ = Ok _ |- _ => apply fmap_Ok in H as (? & H & ?)
  | H : mret _ = Ok _ |- _ => unfold mret, result_ret in H
  | H : Ok _ = Ok _ |- _ => injection H as H
  | H : Raise _ = Ok _ |- _ => discriminate H
  end.

Lemma for_each_app {A B : Type} (body : A → B → result A) a xs ys :
  for_each body a (xs ++ ys) = a' ← for_each body a xs; for_each body a' ys.
Proof.
  revert a. induction xs as [|x xs IH]; intros a; cbn; [done|].
  destruct (body a x) as [a'|e]; cbn; [apply IH | done].
Qed.

Lemma enumerate_from_app {A : Type} n (xs ys : list A) :
  enumerate_from n (xs ++ ys) =
  enumerate_from n xs ++ enumerate_from (n + length xs) ys.
Proof.
  revert n. induction xs as [|x xs IH]; intros n; cbn.
  - now rewrite Nat.add_0_r.
  - rewrite IH. do 3 f_equal. lia.
Qed.

Lemma mapM_result_length {A B : Type} (f : A → result B) xs ys :
  mapM f xs = Ok ys → length ys = length xs.
Proof.
  revert ys. induction xs as [|x xs IH]; intros ys; cbn.
  - now intros [= <-].
  - intros H. inv_ok. subst. cbn. f_equal. eauto.
Qed.

Lemma mapM_result_lookup {A B : Type} (f : A → result B) xs ys i x :
  mapM f xs = Ok ys → xs !! i = Some x → ∃ y, f x = Ok y ∧ ys !! i = Some y.
Proof.
  revert ys i. induction xs as [|x' xs IH]; intros ys i; cbn; [done|].
  intros H Hi. inv_ok. subst. destruct i as [|i]; cbn in *.
  - injection Hi as ->. eauto.
  - eauto.
Qed.

(** ** The order of floats *)

Module FloatFacts.
Import FloatOrder.

Lemma SFcompare_key x y :
  SFcompare x y = if is_nan x || is_nan y then None else Some (lexcmp (key x) (key y)).
Proof.
  destruct x as [[]|[]| |[] m1 e1], y as [[]|[]| |[] m2 e2]; try reflexivity;
    cbn [SFcompare is_nan orb key]; unfold lexcmp; cbn [fst snd]; f_equal.
  change (-1 ?= -1)%Z with Eq. cbv iota.
  rewrite Z.compare_opp, (Z.compare_antisym e1 e2).
  destruct (e1 ?= e2)%Z; cbn; try reflexivity.
Qed.

Lemma lexcmp_Lt a b : lexcmp a b = Lt ↔ klt a b.
Proof.
  destruct a as [[a1 a2] a3], b as [[b1 b2] b3]; unfold lexcmp, klt; cbn [fst snd].
  destruct (Z.compare_spec a1 b1), (Z.compare_spec a2 b2), (Z.compare_spec a3 b3);
    split; intros; try discriminate; try lia; auto.
Qed.

Lemma lexcmp_Eq a b : lexcmp a b = Eq ↔ a = b.
Proof.
  destruct a as [[a1 a2] a3], b as [[b1 b2] b3]; unfold lexcmp; cbn [fst snd].
  destruct (Z.compare_spec a1 b1), (Z.compare_spec a2 b2), (Z.compare_spec a3 b3);
    split; intros E; try discriminate; try (injection E; intros; lia); subst; auto.
Qed.

Lemma lexcmp_Gt a b : lexcmp a b = Gt ↔ klt b a.
Proof.
  destruct a as [[a1 a2] a3], b as [[b1 b2] b3]; unfold lexcmp, klt; cbn [fst snd].
  destruct (Z.compare_spec a1 b1), (Z.compare_spec a2 b2), (Z.compare_spec a3 b3);
    split; intros; try discriminate; try lia; auto.
Qed.

Lemma ltb_iff x y : (x <? y)%float = true ↔ ¬ nan x ∧ ¬ nan y ∧ klt (fkey x) (fkey y).
Proof.
  rewrite FloatAxioms.ltb_spec. unfold SFltb, nan, fkey. rewrite SFcompare_key.
  destruct (is_nan (Prim2SF x)), (is_nan (Prim2SF y)); cbn [orb];
    try (intuition congruence).
  rewrite <- lexcmp_Lt. destruct (lexcmp _ _); intuition congruence.
Qed.

Lemma leb_iff x y :
  (x <=? y)%float = true ↔ ¬ nan x ∧ ¬ nan y ∧ ¬ klt (fkey y) (fkey x).
Proof.
  rewrite FloatAxioms.leb_spec. unfold SFleb, nan, fkey. rewrite SFcompare_key.
  destruct (is_nan (Prim2SF x)), (is_nan (Prim2SF y)); cbn [orb];
    try (intuition congruence).
  rewrite <- lexcmp_Gt. destruct (lexcmp _ _); intuition congruence.
Qed.

Lemma eqb_iff x y :
  (x =? y)%float = true ↔ ¬ nan x ∧ ¬ nan y ∧ fkey x = fkey y.
Proof.
  rewrite FloatAxioms.eqb_spec. unfold SFeqb, nan, fkey. rewrite SFcompare_key.
  destruct (is_nan (Prim2SF x)), (is_nan (Prim2SF y)); cbn [orb];
    try (intuition congruence).
  rewrite <- lexcmp_Eq. destruct (lexcmp _ _); intuition congruence.
Qed.

Lemma klt_trans a b c : klt a b → klt b c → klt a c.
Proof. unfold klt. lia. Qed.

Lemma klt_irrefl a : ¬ klt a a.
Proof. unfold klt. lia. Qed.

Lemma klt_total a b : klt a b ∨ a = b ∨ klt b a.
Proof.
  destruct a as [[a1 a2] a3], b as [[b1 b2] b3]; unfold klt; cbn [fst snd].
  destruct (Z.lt_total a1 b1) as [|[|]], (Z.lt_total a2 b2) as [|[|]],
    (Z.lt_total a3 b3) as [|[|]]; subst; auto; try (left; lia); try (right; right; lia).
Qed.

Lemma ltb_trans x y z :
  (x <? y)%float = true → (y <? z)%float = true → (x <? z)%float = true.
Proof.
  rewrite !ltb_iff. intros (? & ? & ?) (? & ? & ?). eauto using klt_trans.
Qed.

Lemma leb_ltb_trans x y z :
  (x <=? y)%float = true → (y <? z)%float = true → (x <? z)%float = true.
Proof.
  rewrite leb_iff, !ltb_iff. intros (? & ? & H1) (? & ? & H2).
  repeat split; auto.
  destruct (klt_total (fkey x) (fkey y)) as [|[E|]]; try tauto.
  - eauto using klt_trans.
  - now rewrite E.
Qed.

Lemma ltb_leb_trans x y z :
  (x <? y)%float = true → (y <=? z)%float = true → (x <? z)%float = true.
Proof.
  rewrite leb_iff, !ltb_iff. intros (? & ? & H1) (? & ? & H2).
  repeat split; auto.
  destruct (klt_total (fkey y) (fkey z)) as [|[E|]]; try tauto.
  - eauto using klt_trans.
  - now rewrite <- E.
Qed.

Lemma leb_not_ltb x y : (x <=? y)%float = true → (y <? x)%float = false.
Proof.
  rewrite leb_iff. intros (? & ? & H). apply not_true_is_false.
  rewrite ltb_iff. tauto.
Qed.

Lemma ltb_not_leb x y : (x <? y)%float = true → (y <=? x)%float = false.
Proof.
  rewrite ltb_iff. intros (? & ? & H). apply not_true_is_false.
  rewrite leb_iff. tauto.
Qed.

Lemma ltb_leb x y : (x <? y)%float = true → (x <=? y)%float = true.
Proof.
  rewrite ltb_iff, leb_iff. intros (? & ? & H). repeat split; auto.
  intros H'. exact (klt_irrefl _ (klt_trans _ _ _ H H')).
Qed.

Lemma ltb_irrefl x : (x <? x)%float = false.
Proof.
  apply not_true_is_false. rewrite ltb_iff. intros (_ & _ & H).
  exact (klt_irrefl _ H).
Qed.

Lemma ltb_not_eqb x y : (x <? y)%float = true → (y =? x)%float = false.
Proof.
  rewrite ltb_iff. intros (? & ? & H). apply not_true_is_false.
  rewrite eqb_iff. intros (_ & _ & E). rewrite E in H. exact (klt_irrefl _ H).
Qed.


(** A sum of two squares is never negative, so [math.sqrt] of one
    never raises. *)

Lemma binary_round_aux_not_negative m e l :
  not_negative (binary_round_aux prec emax false m e l) = true.
Proof.
  unfold binary_round_aux.
  destruct (shr_fexp _ _ _ _ _) as [mrs' e'].
  destruct (shr_fexp _ _ _ _ _) as [mrs'' e''].
  destruct (shr_m mrs''); try reflexivity.
  destruct (_ <=? _)%Z; reflexivity.
Qed.

Lemma SFmul_self_not_negative x : not_negative (SF64mul x x) = true.
Proof.
  destruct x as [s|s| |s m e]; cbn [SF64mul SFmul not_negative]; try reflexivity; try now destruct s.
  unfold SF64mul, SFmul.
  replace (xorb s s) with false by now destruct s.
  apply binary_round_aux_not_negative.
Qed.

Lemma binary_normalize_not_negative p e :
  not_negative (binary_normalize prec emax (Z.pos p) e false) = true.
Proof.
  cbn [binary_normalize]. unfold binary_round.
  destruct (shl_align _ _ _). apply binary_round_aux_not_negative.
Qed.

Lemma SFadd_not_negative x y :
  not_negative x = true → not_negative y = true →
  not_negative (SF64add x y) = true.
Proof.
  destruct x as [sx|sx| |sx mx ex], y as [sy|sy| |sy my ey]; cbn [not_negative];
    intros Hx Hy; try apply negb_true_iff in Hx; try apply negb_true_iff in Hy;
    subst; try reflexivity; try now destruct sx, sy.
  unfold SF64add, SFadd. cbn [cond_Zopp].
    destruct (shl_align mx _ _), (shl_align my _ _). cbn [fst Z.add].
    apply binary_normalize_not_negative.
Qed.

Lemma not_negative_ltb_zero x :
  not_negative (Prim2SF x) = true → (x <? 0)%float = false.
Proof.
  rewrite FloatAxioms.ltb_spec. change (Prim2SF 0) with (S754_zero false).
  destruct (Prim2SF x) as [s|s| |s m e]; cbn; try reflexivity; now intros ->%negb_true_iff.
Qed.

Lemma sum_of_squares_not_negative a b : (a * a + b * b <? 0)%float = false.
Proof.
  apply not_negative_ltb_zero. rewrite add_spec, !mul_spec.
  apply SFadd_not_negative; apply SFmul_self_not_negative.
Qed.

End FloatFacts.

Import FloatOrder FloatFacts.

(** ** The solver's loops *)

Ltac step_result :=
  match goal with
  | |- context [@mbind result _ _ _ _ ?m] =>
      lazymatch m with
      | mbind _ _ => fail
      | Ok _ => fail
      | Raise _ => fail
      | _ => destruct m as [?|?]; cbn
      end
  end.

Section SolverFacts.
Context (L : Libm).
Local Open Scope float_scope.

Lemma math_sqrt_squares a b :
  Py.math_sqrt (a * a + b * b) = Ok (sqrt (a * a + b * b)).
Proof. unfold Py.math_sqrt. now rewrite sum_of_squares_not_negative. Qed.

Lemma add_pair_force_newton h i m1 acc j r :
  add_pair_force L h i m1 acc (j, r) =
  if decide (i = j) then Ok acc
  else
    f ← newton L floor_as_coded m1 (v_0 (CustomMass.position (h !!! r)))
          (v_2 (CustomMass.position (h !!! r)))
          (Ok (CustomMass.mass (h !!! r)));
    Ok (add_force acc f).
Proof.
  destruct acc as [fx fz]. unfold add_pair_force, newton, floor_as_coded.
  destruct (decide (i = j)) as [->|Hij].
  - rewrite bool_decide_eq_false_2 by (intros H; apply H; reflexivity). reflexivity.
  - rewrite bool_decide_eq_true_2 by done.
    destruct (Py.math_sqrt _) as [d|e]; cbn; [|done].
    destruct (0.1 <? d); cbn; [|done].
    repeat (step_result; try done).
Qed.

Lemma pair_loop h i m1 n l acc :
  for_each (add_pair_force L h i m1) acc (enumerate_from n l) =
  pairs ← mapM (λ r, newton L floor_as_coded m1
                       (v_0 (CustomMass.position (h !!! r)))
                       (v_2 (CustomMass.position (h !!! r)))
                       (Ok (CustomMass.mass (h !!! r))))
            (others_from n i l);
  Ok (foldl add_force acc pairs).
Proof.
  revert n acc. induction l as [|r l IH]; intros n acc.
  - unfold others_from. destruct (decide _); done.
  - cbn [enumerate_from for_each]. rewrite add_pair_force_newton.
    destruct (decide (i = n)) as [->|Hin].
    + cbn. rewrite IH. unfold others_from.
      rewrite decide_False by lia. rewrite decide_True by lia.
      now rewrite Nat.sub_diag.
    + replace (others_from n i (r :: l)) with (r :: others_from (S n) i l).
      2:{ unfold others_from. destruct (decide (n ≤ i)%nat).
          - rewrite decide_True by lia.
            replace (i - n)%nat with (S (i - S n)) by lia. done.
          - rewrite decide_False by lia. done. }
      cbn [mapM]. destruct (newton _ _ _ _ _ _) as [f|e]; cbn; [|done].
      rewrite IH. destruct (mapM _ _) as [fs|e]; cbn; done.
Qed.

Lemma add_sun_force_newton ps m1 acc :
  add_sun_force L ps m1 acc =
  f ← newton L floor_as_coded m1 0 0 (sun_mass L ps); Ok (add_force acc f).
Proof.
  destruct acc as [fx fz]. unfold add_sun_force, newton, floor_as_coded, sun_mass.
  destruct (Py.math_sqrt _) as [d|e]; cbn; [|done].
  destruct (0.1 <? d); cbn; [|done].
  repeat (step_result; try done).
Qed.

(** The two force loops of the solver compute the net force. *)
Lemma force_loops ps h masses i m1 :
  (force ← for_each (add_pair_force L h i m1) (0, 0) (enumerate masses);
   add_sun_force L ps m1 force) =
  net_force L floor_as_coded ps h masses i m1.
Proof.
  unfold enumerate, net_force. rewrite pair_loop.
  unfold others_from. rewrite decide_True by lia. rewrite Nat.sub_0_r.
  destruct (mapM _ _) as [pairs|e]; cbn; [|done].
  rewrite add_sun_force_newton.
  destruct (newton _ _ _ _ _ _) as [f|e]; cbn; [|done].
  now rewrite foldl_app.
Qed.

(** One turn of the outer loop, spelt out. *)
Lemma move_mass_Ok ps masses dt h i r h' :
  move_mass L ps masses dt h (i, r) = Ok h' ↔
  ∃ force pos vel,
    net_force L floor_as_coded ps h masses i (h !!! r) = Ok force ∧
    integrate dt (h !!! r) force = Ok (pos, vel) ∧
    h' = <[r := CustomMass.with_motion pos vel
                 (add_to_trail (CustomMass.trail (h !!! r)) (v_0 pos, v_2 pos))
                 (h !!! r)]> h.
Proof.
  unfold move_mass. rewrite <- force_loops.
  destruct (for_each _ _ _) as [f0|e]; cbn.
  2:{ split; [done | now intros (? & ? & ? & ? & _)]. }
  destruct (add_sun_force L ps (h !!! r) f0) as [f|e]; cbn.
  2:{ split; [done | now intros (? & ? & ? & ? & _)]. }
  destruct (integrate dt (h !!! r) f) as [[pos vel]|e] eqn:E; cbn.
  - split.
    + intros [= <-]. eauto 10.
    + intros (? & ? & ? & [= <-] & H & ->). rewrite E in H. now injection H as <- <-.
  - split; [done|]. intros (? & ? & ? & [= <-] & H & ->). congruence.
Qed.

Lemma move_mass_frame ps masses dt h i r h' r' :
  move_mass L ps masses dt h (i, r) = Ok h' → r' ≠ r → h' !!! r' = h !!! r'.
Proof.
  intros (? & ? & ? & _ & _ & ->)%move_mass_Ok ?.
  now rewrite lookup_total_insert_ne.
Qed.

(** The loop over a segment of the list touches the objects of that
    segment only. *)
Lemma move_loop_frame ps masses dt n l h h' r' :
  for_each (move_mass L ps masses dt) h (enumerate_from n l) = Ok h' →
  r' ∉ l → h' !!! r' = h !!! r'.
Proof.
  revert n h. induction l as [|r l IH]; intros n h; cbn [for_each enumerate_from].
  - now intros [= <-].
  - intros H Hr'. inv_ok. apply not_elem_of_cons in Hr' as [? ?].
    erewrite IH by eauto. eauto using move_mass_frame.
Qed.

(** The turn of the [i]-th mass inside a whole run of the loop: [h1] is
    the store as that turn finds it. *)
Lemma move_loop_turn ps masses dt h h' l i r :
  for_each (move_mass L ps masses dt) h (enumerate l) = Ok h' →
  NoDup l → l !! i = Some r →
  ∃ h1 h2,
    move_mass L ps masses dt h1 (i, r) = Ok h2 ∧
    h' !!! r = h2 !!! r ∧
    ∀ j r', l !! j = Some r' →
      h1 !!! r' = if (j <? i)%nat then h' !!! r' else h !!! r'.
Proof.
  intros Hrun Hnd Hi.
  pose proof (take_drop_middle l i r Hi) as Hl.
  assert (length (take i l) = i) as Hlen.
  { rewrite length_take. apply lookup_lt_Some in Hi. lia. }
  unfold enumerate in Hrun. rewrite <- Hl in Hrun, Hnd.
  rewrite enumerate_from_app, for_each_app in Hrun.
  cbn [for_each enumerate_from] in Hrun.
  rewrite Hlen, Nat.add_0_l in Hrun.
  apply bind_Ok in Hrun as (h1 & Hrun1 & Hrun).
  apply bind_Ok in Hrun as (h2 & Hturn & Hrun2).
  apply NoDup_app in Hnd as (Hpre & Hdisj & Hpost).
  apply NoDup_cons in Hpost as [Hr Hpost].
  exists h1, h2. split; [done|]. split.
  { eapply move_loop_frame; eauto. }
  intros j r' Hj. rewrite <- Hl in Hj. destruct (Nat.ltb_spec j i).
  - rewrite lookup_app_l in Hj by lia.
    apply list_elem_of_lookup_2 in Hj.
    assert (r' ≠ r) by (intros ->; eapply Hdisj; [done | left]).
    assert (r' ∉ drop (S i) l) by (intros ?; eapply Hdisj; [done | now right]).
    rewrite (move_loop_frame _ _ _ _ _ _ _ _ Hrun2) by done.
    symmetry. eapply move_mass_frame; done.
  - rewrite lookup_app_r in Hj by lia.
    apply list_elem_of_lookup_2 in Hj.
    eapply move_loop_frame; [done|]. intros ?. eapply Hdisj; done.
Qed.

Lemma integrate_Ok dt m force pos vel :
  integrate dt m force = Ok (pos, vel) ↔
  ∃ ax az,
    Py.div force.1 (CustomMass.mass m) = Ok ax ∧
    Py.div force.2 (CustomMass.mass m) = Ok az ∧
    vel = Vec3 ((v_0 (CustomMass.velocity m) + ax * dt) * 0.999)
               (v_1 (CustomMass.velocity m))
               ((v_2 (CustomMass.velocity m) + az * dt) * 0.999) ∧
    pos = Vec3 (v_0 (CustomMass.position m) + v_0 vel * dt)
               (v_1 (CustomMass.position m))
               (v_2 (CustomMass.position m) + v_2 vel * dt).
Proof.
  destruct force as [fx fz]. unfold integrate. cbn [fst snd].
  destruct (Py.div fx _) as [ax|e]; cbn.
  2:{ split; [done | now intros (? & ? & ? & _)]. }
  destruct (Py.div fz _) as [az|e]; cbn.
  2:{ split; [done | now intros (? & ? & _ & ? & _)]. }
  split.
  - intros [= <- <-]. eauto 10.
  - intros (? & ? & [= <-] & [= <-] & -> & ->). done.
Qed.

(** What a whole step does to the [i]-th mass. *)
Lemma step_turn dt s s' i r :
  physics_enabled s = true →
  NoDup (custom_masses s) →
  apply_gravitational_forces L dt s = Ok s' →
  custom_masses s !! i = Some r →
  ∃ h force pos vel,
    (∀ j r', custom_masses s !! j = Some r' →
       h !!! r' = if (j <? i)%nat then objs s' !!! r' else objs s !!! r') ∧
    net_force L floor_as_coded (planets s) h (custom_masses s) i (objs s !!! r)
      = Ok force ∧
    integrate dt (objs s !!! r) force = Ok (pos, vel) ∧
    objs s' !!! r =
      CustomMass.with_motion pos vel
        (add_to_trail (CustomMass.trail (objs s !!! r)) (v_0 pos, v_2 pos))
        (objs s !!! r).
Proof.
  intros Hon Hnd Hstep Hi. unfold apply_gravitational_forces in Hstep.
  rewrite Hon in Hstep. cbn [negb] in Hstep.
  apply bind_Ok in Hstep as (hf & Hloop & Hstep).
  apply bind_Ok in Hstep as (ps' & _ & [= <-]). cbn [objs set_planets set_objs].
  destruct (move_loop_turn _ _ _ _ _ _ _ _ Hloop Hnd Hi) as (h1 & h2 & Hturn & Hr & Hh).
  apply move_mass_Ok in Hturn as (force & pos & vel & Hf & Hint & ->).
  assert (h1 !!! r = objs s !!! r) as Hm.
  { rewrite (Hh i r Hi). now rewrite Nat.ltb_irrefl. }
  rewrite Hm in *. exists h1, force, pos, vel. repeat split; try done.
  now rewrite Hr, lookup_total_insert_eq.
Qed.

End SolverFacts.

(** ** The step of one mass *)

Local Open Scope float_scope.

(** C1, as amended.  In a step with physics enabled, the net force on the
    [i]-th custom mass is the sum, over every other custom mass in list
    order, of [G * m_i * m_j / d ** 2] along the separation divided by [d],
    plus the pull towards the origin of a body of ten times the cube of the
    first planet's radius.  A body at a distance that is not above 0.1 (not
    only one below it) adds nothing.  The distances are those of the store
    [h] the mass finds at its turn, in which the masses before it in the
    list have already moved.  The velocity then becomes
    [(v + (F / m) * dt) * 0.999] and the position [p + v' * dt], with the
    new velocity [v']; the y components stay. *)
Theorem C1_net_force_then_damped_euler (L : Libm) (dt : float) (s s' : Sim)
    (i : nat) (r : ref) :
  physics_enabled s = true →
  NoDup (custom_masses s) →
  apply_gravitational_forces L dt s = Ok s' →
  custom_masses s !! i = Some r →
  let m := objs s !!! r in
  let m' := objs s' !!! r in
  (∃ (h : store) (force : float * float) (ax az : float),
     (∀ j r', custom_masses s !! j = Some r' →
        h !!! r' = if (j <? i)%nat then objs s' !!! r' else objs s !!! r') ∧
     net_force L floor_as_coded (planets s) h (custom_masses s) i m = Ok force ∧
     Py.div force.1 (CustomMass.mass m) = Ok ax ∧
     Py.div force.2 (CustomMass.mass m) = Ok az ∧
     CustomMass.velocity m' =
       Vec3 ((v_0 (CustomMass.velocity m) + ax * dt) * 0.999)
            (v_1 (CustomMass.velocity m))
            ((v_2 (CustomMass.velocity m) + az * dt) * 0.999) ∧
     CustomMass.position m' =
       Vec3 (v_0 (CustomMass.position m) + v_0 (CustomMass.velocity m') * dt)
            (v_1 (CustomMass.position m))
            (v_2 (CustomMass.position m) + v_2 (CustomMass.velocity m') * dt))
  ∧ (∀ (m1 : CustomMass.t) (x2 z2 : float) (mass2 : result float),
       let dx := x2 - v_0 (CustomMass.position m1) in
       let dz := z2 - v_2 (CustomMass.position m1) in
       (sqrt (dx * dx + dz * dz) <=? 0.1) = true →
       newton L floor_as_coded m1 x2 z2 mass2 = Ok None).
Proof.
  intros Hon Hnd Hstep Hi m m'. split.
  - destruct (step_turn L dt s s' i r Hon Hnd Hstep Hi)
      as (h & force & pos & vel & Hh & Hf & Hint & Hm').
    apply integrate_Ok in Hint as (ax & az & Hax & Haz & -> & ->).
    exists h, force, ax, az. subst m m'. rewrite Hm'. done.
  - intros m1 x2 z2 mass2 dx dz Hd. unfold newton. fold dx dz.
    rewrite math_sqrt_squares. unfold floor_as_coded. cbn [mbind result_bind].
    now rewrite (leb_not_ltb _ _ Hd).
Qed.

(** A run of the theorem: two masses of 5.0 at [(3.0, 4.0)] and
    [(5.0, 4.0)], one step of 16 ms, at the second mass.  When it has its
    turn the first mass has moved, and the force on it is measured from
    there. *)
Lemma C1_witness :
  physics_enabled Table.two_apart = true ∧
  NoDup (custom_masses Table.two_apart) ∧
  custom_masses Table.two_apart !! 1%nat = Some 1%nat ∧
  ∃ s',
    apply_gravitational_forces Table.libm 0.016 Table.two_apart = Ok s' ∧
    CustomMass.position (objs Table.two_apart !!! 0%nat) = Vec3 3 0 4 ∧
    CustomMass.position (objs s' !!! 0%nat)
      = Vec3 2.999982865152 0 3.999934529536 ∧
    ∃ force : float * float,
      net_force Table.libm floor_as_coded (planets Table.two_apart)
        (objs s') (custom_masses Table.two_apart) 1
        (objs Table.two_apart !!! 1%nat) = Ok force ∧
      force = (-1.3868125185779459, -0.60947904197404601) ∧
      CustomMass.velocity (objs s' !!! 1%nat) =
        Vec3 ((0 + force.1 / 5 * 0.016) * 0.999) 0
             ((0 + force.2 / 5 * 0.016) * 0.999).
Proof.
  assert (NoDup (custom_masses Table.two_apart)) as Hnd
    by (apply (bool_decide_unpack _); by vm_compute).
  split; [by vm_compute|]. split; [exact Hnd|]. split; [by vm_compute|].
  destruct (apply_gravitational_forces Table.libm 0.016 Table.two_apart)
    as [s'|e] eqn:Hstep; [|by vm_compute in Hstep].
  exists s'. split; [reflexivity|]. split; [vm_compute; reflexivity|].
  destruct (C1_net_force_then_damped_euler Table.libm 0.016 Table.two_apart s'
              1%nat 1%nat)
    as [(h & force & ax & az & Hh & Hf & Hax & Haz & Hv & _) _];
    [vm_compute; reflexivity | exact Hnd | exact Hstep | vm_compute; reflexivity |].
  assert (net_force Table.libm floor_as_coded (planets Table.two_apart)
            (objs s') (custom_masses Table.two_apart) 1
            (objs Table.two_apart !!! 1%nat) = Ok force) as Hf'.
  { rewrite <- Hf. unfold net_force.
    change (custom_masses Table.two_apart) with [0%nat; 1%nat].
    cbn [delete list_delete mapM].
    now rewrite (Hh 0%nat 0%nat eq_refl). }
  change (CustomMass.velocity (objs Table.two_apart !!! 1%nat))
    with (Vec3 0 0 0) in Hv.
  change (CustomMass.mass (objs Table.two_apart !!! 1%nat)) with 5 in Hax, Haz.
  unfold Py.div in Hax, Haz. change (5 =? 0) with false in Hax, Haz.
  injection Hax as <-. injection Haz as <-.
  clear Hh Hf. vm_compute in Hstep. injection Hstep as <-.
  split; [vm_compute; reflexivity|].
  exists force. split; [exact Hf'|]. split; [|exact Hv].
  vm_compute in Hf'. injection Hf' as <-. reflexivity.
Defined.

(** The scenario of the specification: two masses 0.05 apart exert
    nothing on each other. *)
Lemma newton_at_0_05 (L : Libm) :
  let m1 := CustomMass.mk (Vec3 0 0 0) 5 1 (Vec3 0 0 0) (Vec3 0 0 0) false [] in
  sqrt ((0.05 - 0) * (0.05 - 0) + (0 - 0) * (0 - 0)) = 0.05 ∧
  newton L floor_as_coded m1 0.05 0 (Ok 5) = Ok None ∧
  newton L floor_as_specified m1 0.05 0 (Ok 5) = Ok None.
Proof. cbv zeta. split; [by vm_compute|]. split; by vm_compute. Qed.

(** C1 as stated fails, at the floor and in the order of the turns.

    At the floor: two masses of 5.0 at the origin and at [(0.1, 0.0)]
    are 0.1 apart, which is not below 0.1, so the claim has the first one
    pulled with a force of about 250 and set in motion; the solver leaves
    it at rest.

    In the order of the turns: of two masses of 5.0 at [(3.0, 4.0)] and
    [(5.0, 4.0)], at rest, the first has moved when the second has its
    turn.  From where the masses are when the step starts, the claim's
    force sets the second in motion at -0.0044333964975877852 along x;
    the solver measures from where the first now is and gives it
    -0.0044333622593899771. *)
Lemma C1_counterexample_floor_and_turns :
  (let s := Table.two_close in
   let m := objs s !!! 0%nat in
   let m2 := objs s !!! 1%nat in
   let dx := v_0 (CustomMass.position m2) - v_0 (CustomMass.position m) in
   let dz := v_2 (CustomMass.position m2) - v_2 (CustomMass.position m) in
   physics_enabled s = true ∧
   custom_masses s = [0%nat; 1%nat] ∧
   sqrt (dx * dx + dz * dz) = 0.1 ∧
   floor_as_specified (sqrt (dx * dx + dz * dz)) = false ∧
   CustomMass.velocity m = Vec3 0 0 0 ∧
   (∃ s', apply_gravitational_forces Table.libm 0.016 s = Ok s' ∧
          CustomMass.velocity (objs s' !!! 0%nat) = Vec3 0 0 0 ∧
          CustomMass.position (objs s' !!! 0%nat) = CustomMass.position m) ∧
   (∃ force ax,
      net_force Table.libm floor_as_specified (planets s) (objs s)
        (custom_masses s) 0 m = Ok force ∧
      Py.div force.1 (CustomMass.mass m) = Ok ax ∧
      ((0 + ax * 0.016) * 0.999 =? 0) = false))
  ∧
  (let s := Table.two_apart in
   let m := objs s !!! 1%nat in
   physics_enabled s = true ∧
   custom_masses s = [0%nat; 1%nat] ∧
   CustomMass.position (objs s !!! 0%nat) = Vec3 3 0 4 ∧
   CustomMass.position m = Vec3 5 0 4 ∧
   CustomMass.velocity m = Vec3 0 0 0 ∧
   (∃ force ax,
      net_force Table.libm floor_as_specified (planets s) (objs s)
        (custom_masses s) 1 m = Ok force ∧
      Py.div force.1 (CustomMass.mass m) = Ok ax ∧
      (0 + ax * 0.016) * 0.999 = -0.0044333964975877852) ∧
   (∃ s', apply_gravitational_forces Table.libm 0.016 s = Ok s' ∧
          CustomMass.position (objs s' !!! 0%nat)
            = Vec3 2.999982865152 0 3.999934529536 ∧
          v_0 (CustomMass.velocity (objs s' !!! 1%nat))
            = -0.0044333622593899771 ∧
          (v_0 (CustomMass.velocity (objs s' !!! 1%nat))
             =? -0.0044333964975877852) = false)).
Proof.
  cbv zeta. split.
  - split; [by vm_compute|]. split; [by vm_compute|]. split; [by vm_compute|].
    split; [by vm_compute|]. split; [by vm_compute|]. split.
    + eexists. split; [by vm_compute|]. split; by vm_compute.
    + eexists _, _. split; [by vm_compute|]. split; by vm_compute.
  - split; [by vm_compute|]. split; [by vm_compute|]. split; [by vm_compute|].
    split; [by vm_compute|]. split; [by vm_compute|]. split.
    + eexists _, _. split; [by vm_compute|]. split; by vm_compute.
    + eexists. split; [by vm_compute|]. split; [by vm_compute|].
      split; by vm_compute.
Qed.

(** C7.  With physics disabled the step returns the state it was given:
    no mass, trail or planet changes. *)
Theorem C7_physics_disabled_is_noop (L : Libm) (dt : float) (s : Sim) :
  physics_enabled s = false → apply_gravitational_forces L dt s = Ok s.
Proof. intros H. unfold apply_gravitational_forces. now rewrite H. Qed.

(** A run of the theorem: the two masses again, physics switched off with
    the P key. *)
Lemma C7_witness :
  physics_enabled (Table.after [KEYDOWN K_p] Table.two_apart) = false ∧
  apply_gravitational_forces Table.libm 0.016
    (Table.after [KEYDOWN K_p] Table.two_apart)
  = Ok (Table.after [KEYDOWN K_p] Table.two_apart).
Proof.
  split; [by vm_compute|].
  apply C7_physics_disabled_is_noop. by vm_compute.
Defined.

(** ** The trail *)

Lemma add_to_trail_length trail p :
  length (add_to_trail trail p) =
  if (100 <? length trail)%nat then length trail else S (length trail).
Proof.
  unfold add_to_trail. rewrite length_app. cbn [length].
  destruct (Nat.ltb_spec 100 (length trail)); [rewrite length_drop|]; lia.
Qed.

(** The trail never holds more than 101 points, and holds 101 from the
    hundred-and-first step on. *)
Lemma add_to_trail_bound trail p :
  (length trail ≤ 101 → length (add_to_trail trail p) ≤ 101)%nat.
Proof.
  rewrite add_to_trail_length. destruct (Nat.ltb_spec 100 (length trail)); lia.
Qed.

Lemma add_to_trail_full trail p :
  (100 ≤ length trail ≤ 101 → length (add_to_trail trail p) = 101)%nat.
Proof.
  rewrite add_to_trail_length. destruct (Nat.ltb_spec 100 (length trail)); lia.
Qed.

(** The points leave in the order they came: what stays is the newest
    of the old points, then the new one. *)
Lemma add_to_trail_fifo trail p :
  (length trail ≤ 101)%nat →
  add_to_trail trail p = drop (length trail - 100) trail ++ [p].
Proof.
  intros Hlen. unfold add_to_trail.
  destruct (Nat.ltb_spec 100 (length trail)).
  - now replace (length trail - 100)%nat with 1%nat by lia.
  - now replace (length trail - 100)%nat with 0%nat by lia.
Qed.

(** What a step does to the trail of a mass. *)
Lemma step_trail (L : Libm) dt s s' i r :
  physics_enabled s = true →
  NoDup (custom_masses s) →
  apply_gravitational_forces L dt s = Ok s' →
  custom_masses s !! i = Some r →
  CustomMass.trail (objs s' !!! r) =
  add_to_trail (CustomMass.trail (objs s !!! r))
    (v_0 (CustomMass.position (objs s' !!! r)),
     v_2 (CustomMass.position (objs s' !!! r))).
Proof.
  intros Hon Hnd Hstep Hi.
  destruct (step_turn L dt s s' i r Hon Hnd Hstep Hi)
    as (h & force & pos & vel & _ & _ & _ & ->). done.
Qed.

(** C2, the failing input.  One mass of 5.0 spawned at [(3.0, 4.0)], 101
    steps of 16 ms: its trail holds 101 points, one more than the
    capacity of 100. *)
Theorem C2_trail_holds_101_points :
  ∃ s', Table.steps 101 0.016 Table.one_mass = Ok s' ∧
        custom_masses s' = [0%nat] ∧
        length (CustomMass.trail (objs s' !!! 0%nat)) = 101%nat.
Proof. eexists. split; [by vm_compute|]. split; by vm_compute. Qed.

(** ** The feedback on the planets *)

Section FeedbackFacts.
Context (L : Libm).

Lemma add_perturbation_tug h px pz acc r :
  add_perturbation L h px pz acc r =
  t ← tug L floor_as_coded px pz (h !!! r); Ok (add_force acc t).
Proof.
  destruct acc as [tx tz]. unfold add_perturbation, tug, floor_as_coded.
  destruct (Py.math_sqrt _) as [d|e]; cbn; [|done].
  destruct (0.1 <? d); cbn; [|done].
  repeat (step_result; try done).
Qed.

Lemma perturbation_loop h px pz masses acc :
  for_each (add_perturbation L h px pz) acc masses =
  tugs ← mapM (λ r, tug L floor_as_coded px pz (h !!! r)) masses;
  Ok (foldl add_force acc tugs).
Proof.
  revert acc. induction masses as [|r masses IH]; intros acc; [done|].
  cbn [for_each mapM]. rewrite add_perturbation_tug.
  destruct (tug _ _ _ _ _) as [t|e]; cbn; [|done].
  rewrite IH. destruct (mapM _ _) as [ts|e]; cbn; done.
Qed.

(** The body of the second loop computes the feedback. *)
Lemma perturb_planet_feedback h masses planet :
  perturb_planet L h masses planet = feedback L floor_as_coded h masses planet.
Proof.
  unfold perturb_planet, feedback, perturbation, perturbed.
  destruct (math_cos L _) as [c|e]; cbn; [|done].
  destruct (math_sin L _) as [sn|e]; cbn; [|done].
  rewrite perturbation_loop.
  destruct (mapM _ _) as [ts|e]; cbn; [|done].
  destruct (foldl add_force _ ts) as [tx tz]. cbn [fst snd].
  destruct (_ || _); done.
Qed.

Lemma feedback_Ok too_close h masses planet planet' :
  feedback L too_close h masses planet = Ok planet' ↔
  ∃ c sn p,
    math_cos L (Planet.current_angle planet) = Ok c ∧
    math_sin L (Planet.current_angle planet) = Ok sn ∧
    perturbation L too_close h masses (Planet.orbit_radius planet * c)
      (Planet.orbit_radius planet * sn) = Ok p ∧
    planet' = perturbed planet p.
Proof.
  unfold feedback. split.
  - intros H. inv_ok. subst. eauto 10.
  - intros (c & sn & p & -> & -> & Hp & ->). cbn. now rewrite Hp.
Qed.

End FeedbackFacts.

(** C4, as amended.  In a step with physics enabled, every planet but the
    first gets the perturbation vector that is the sum, over all custom
    masses in list order, of [mass / d ** 2 * 0.001] along the separation
    from the planet's position divided by [d], a mass at a distance that
    is not above 0.1 (not only one below it) adding nothing; the masses
    are taken where the first pass has just moved them.  When a component
    of the vector exceeds 0.001 in magnitude, the orbit speed is multiplied
    by [1 + px * 0.01] and the orbit radius by [1 + pz * 0.001], with no
    clamp; otherwise the planet is unchanged.  Nothing else of a planet
    changes, the first planet does not change, and without custom masses
    no planet does. *)
Theorem C4_orbit_feedback (L : Libm) (dt : float) (s s' : Sim) :
  physics_enabled s = true →
  apply_gravitational_forces L dt s = Ok s' →
  length (planets s') = length (planets s)
  ∧ planets s' !! 0%nat = planets s !! 0%nat
  ∧ (∀ k planet, planets s !! S k = Some planet →
       ∃ c sn p,
         math_cos L (Planet.current_angle planet) = Ok c ∧
         math_sin L (Planet.current_angle planet) = Ok sn ∧
         perturbation L floor_as_coded (objs s') (custom_masses s)
           (Planet.orbit_radius planet * c) (Planet.orbit_radius planet * sn)
           = Ok p ∧
         planets s' !! S k = Some (perturbed planet p))
  ∧ (∀ planet p,
       perturbed planet p =
       if (0.001 <? abs p.1) || (0.001 <? abs p.2) then
         Planet.with_orbit (Planet.current_angle planet)
           (Planet.orbit_radius planet * (1 + p.2 * 0.001))
           (Planet.orbit_speed planet * (1 + p.1 * 0.01)) planet
       else planet)
  ∧ (∀ planet_x planet_z m,
       let dx := v_0 (CustomMass.position m) - planet_x in
       let dz := v_2 (CustomMass.position m) - planet_z in
       (sqrt (dx * dx + dz * dz) <=? 0.1) = true →
       tug L floor_as_coded planet_x planet_z m = Ok None)
  ∧ (custom_masses s = [] → planets s' = planets s).
Proof.
  intros Hon Hstep.
  assert (∀ planet_x planet_z m,
            let dx := v_0 (CustomMass.position m) - planet_x in
            let dz := v_2 (CustomMass.position m) - planet_z in
            (sqrt (dx * dx + dz * dz) <=? 0.1) = true →
            tug L floor_as_coded planet_x planet_z m = Ok None) as Htug.
  { intros planet_x planet_z m dx dz Hd. unfold tug. fold dx dz.
    rewrite math_sqrt_squares. unfold floor_as_coded. cbn [mbind result_bind].
    now rewrite (leb_not_ltb _ _ Hd). }
  unfold apply_gravitational_forces in Hstep.
  rewrite Hon in Hstep. cbn [negb] in Hstep.
  apply bind_Ok in Hstep as (h & _ & Hstep).
  apply bind_Ok in Hstep as (ps' & Hps & [= <-]).
  cbn [objs planets set_planets set_objs custom_masses].
  unfold perturb_planets in Hps.
  destruct (planets s) as [|sun rest] eqn:Eps.
  { injection Hps as <-. repeat split; done. }
  apply fmap_Ok in Hps as (rest' & Hrest & ->).
  split; [|split; [|split; [|split; [|split]]]].
  - cbn. f_equal. eauto using mapM_result_length.
  - done.
  - intros k planet Hk. cbn in Hk.
    destruct (mapM_result_lookup _ _ _ _ _ Hrest Hk) as (planet' & Hp & Hk').
    rewrite perturb_planet_feedback in Hp.
    apply feedback_Ok in Hp as (c & sn & p & Hc & Hsn & Hp & ->).
    exists c, sn, p. done.
  - done.
  - exact Htug.
  - intros Hnone. f_equal. rewrite Hnone in Hrest.
    apply list_eq. intros k. destruct (rest !! k) as [planet|] eqn:Hk.
    + destruct (mapM_result_lookup _ _ _ _ _ Hrest Hk) as (planet' & Hp & ->).
      rewrite perturb_planet_feedback in Hp.
      apply feedback_Ok in Hp as (c & sn & p & _ & _ & [= <-] & ->).
      done.
    + apply lookup_ge_None in Hk. apply lookup_ge_None.
      now rewrite (mapM_result_length _ _ _ Hrest).
Qed.

(** A run of the theorem: Mercury, the planet of index 1, in a step of
    16 ms with two masses of 5.0 at [(3.0, 4.0)] and [(5.0, 4.0)]. *)
Lemma C4_witness :
  physics_enabled Table.two_apart = true ∧
  ∃ s' mercury p,
    apply_gravitational_forces Table.libm 0.016 Table.two_apart = Ok s' ∧
    planets Table.two_apart !! 1%nat = Some mercury ∧
    perturbation Table.libm floor_as_coded (objs s')
      (custom_masses Table.two_apart) (Planet.orbit_radius mercury * 1)
      (Planet.orbit_radius mercury * 0) = Ok p ∧
    planets s' !! 1%nat = Some (perturbed mercury p).
Proof.
  split; [by vm_compute|].
  destruct (apply_gravitational_forces Table.libm 0.016 Table.two_apart)
    as [s'|e] eqn:Hstep; [|by vm_compute in Hstep].
  destruct (planets Table.two_apart !! 1%nat) as [mercury|] eqn:Hm;
    [|by vm_compute in Hm].
  destruct (C4_orbit_feedback Table.libm 0.016 Table.two_apart s')
    as (_ & _ & Hk & _); [by vm_compute | exact Hstep |].
  destruct (Hk 0%nat mercury Hm) as (c & sn & p & Hc & Hsn & Hp & Hm').
  assert (Planet.current_angle mercury = 0) as Ha.
  { vm_compute in Hm. now injection Hm as <-. }
  rewrite Ha in Hc, Hsn. vm_compute in Hc, Hsn.
  injection Hc as <-. injection Hsn as <-.
  exists s', mercury, p. split; [reflexivity|]. split; [reflexivity|].
  split; [exact Hp | exact Hm'].
Defined.

(** C4 as stated fails: a mass of 5.0 at [(5.0, 0.1)] is 0.1 away from
    Mercury at [(5.0, 0.0)], which is not below 0.1, so the claim has
    Mercury's orbit radius grow to about 5.0025; the solver leaves it
    at 5. *)
Lemma C4_counterexample_at_the_floor :
  let s := Table.beside_mercury in
  let mercury := Table.mercury in
  let m := objs s !!! 0%nat in
  let dx := v_0 (CustomMass.position m) - 5 in
  let dz := v_2 (CustomMass.position m) - 0 in
  custom_masses s = [0%nat] ∧
  planets s !! 1%nat = Some mercury ∧
  Planet.orbit_radius mercury = 5 ∧ Planet.current_angle mercury = 0 ∧
  sqrt (dx * dx + dz * dz) = 0.1 ∧
  floor_as_specified (sqrt (dx * dx + dz * dz)) = false ∧
  perturb_planet Table.libm (objs s) (custom_masses s) mercury = Ok mercury ∧
  ∃ claimed,
    feedback Table.libm floor_as_specified (objs s) (custom_masses s) mercury
      = Ok claimed ∧
    Planet.orbit_radius claimed = 5.0024999999999995.
Proof.
  cbv zeta.
  split; [by vm_compute|]. split; [by vm_compute|]. split; [by vm_compute|].
  split; [by vm_compute|]. split; [by vm_compute|]. split; [by vm_compute|].
  split; [by vm_compute|].
  eexists. split; by vm_compute.
Qed.

(** ** The controller *)

(** The clear-all key empties the list and writes nothing else. *)
Lemma clear_all_keeps_selected_mass (s : Sim) :
  ∃ s', handle_keydown K_c s = Ok (Some s') ∧
        custom_masses s' = [] ∧
        selected_mass s' = selected_mass s ∧
        objs s' = objs s.
Proof. eexists. split; [reflexivity|]. done. Qed.

(** The sibling paths do clear the selection. *)
Lemma delete_clears_selected_mass (s s' : Sim) :
  handle_keydown K_DELETE s = Ok (Some s') → selected_mass s' = None.
Proof.
  cbn. destruct (selected_mass s) as [r|] eqn:Hsel.
  - intros H. inv_ok. now subst.
  - now intros [= <-].
Qed.

Lemma reset_clears_selected_mass (s s' : Sim) :
  reset_simulation s = Ok s' → selected_mass s' = None.
Proof. unfold reset_simulation. intros H. inv_ok. now subst. Qed.

(** C5, the failing input.  From the startup state: spawn a mass at
    [(3.0, 4.0)], leave spawn mode, click on the mass to select it, press
    C.  The list is empty, but [selected_mass] still refers to the mass,
    whose [is_selected] flag is still set, and the delete key now raises
    [ValueError] from [list.remove]. *)
Theorem C5_clear_all_keeps_the_selection :
  let click := MOUSEBUTTONDOWN 1 (300, 400)%Z in
  let s := Table.after [KEYDOWN K_m; click; KEYDOWN K_m; click] Table.startup in
  custom_masses s = [0%nat] ∧ selected_mass s = Some 0%nat ∧
  ∃ s',
    handle_input Table.libm Table.gl [KEYDOWN K_c] s = Ok (true, s') ∧
    custom_masses s' = [] ∧
    selected_mass s' = Some 0%nat ∧
    CustomMass.is_selected (objs s' !!! 0%nat) = true ∧
    handle_input Table.libm Table.gl [KEYDOWN K_DELETE] s' = Raise ValueError.
Proof.
  cbv zeta. split; [by vm_compute|]. split; [by vm_compute|].
  eexists. split; [by vm_compute|].
  split; [by vm_compute|]. split; [by vm_compute|]. split; by vm_compute.
Qed.

Lemma reset_planet_frame originals i planet planet' :
  reset_planet originals (i, planet) = Ok planet' →
  ∃ o, originals !! i = Some o ∧
       planet' = Planet.with_orbit (snap_angle o) (snap_orbit_radius o)
                   (snap_orbit_speed o) planet.
Proof.
  unfold reset_planet, index. destruct (originals !! i) as [o|]; cbn; [|done].
  intros [= <-]. eauto.
Qed.

Lemma mapM_result_total {A B : Type} (f : A → result B) xs :
  (∀ x, x ∈ xs → ∃ y, f x = Ok y) → ∃ ys, mapM f xs = Ok ys.
Proof.
  induction xs as [|x xs IH]; intros Hf; cbn; [eauto|].
  destruct (Hf x) as [y ->]; [left|]. cbn.
  destruct IH as [ys ->]; [intros; apply Hf; now right|]. cbn. eauto.
Qed.

Lemma enumerate_from_lookup {A : Type} n (xs : list A) k i x :
  enumerate_from n xs !! k = Some (i, x) ↔ i = (n + k)%nat ∧ xs !! k = Some x.
Proof.
  revert n k. induction xs as [|y xs IH]; intros n k; cbn.
  - split; [done | now intros [_ ?]].
  - destruct k as [|k]; cbn.
    + split; [intros [= <- <-]; split; [lia|done] | intros [-> [= ->]]; do 2 f_equal; lia].
    + rewrite IH. split; intros [-> ?]; split; try done; lia.
Qed.

Lemma enumerate_from_length {A : Type} n (xs : list A) :
  length (enumerate_from n xs) = length xs.
Proof.
  revert n. induction xs as [|x xs IH]; intros n; cbn; [done|]. now rewrite IH.
Qed.

(** C10.  When every planet has its snapshot, the reset returns, and the
    state it returns differs from the one it was given in the clock, the
    list of custom masses, the selection and the angle, orbit radius and
    orbit speed of the planets only: the pause flag, the time scale, the
    spawn mass and mode, the trail and physics flags and the camera are
    what they were, not what they were at startup. *)
Theorem C10_reset_keeps_configuration (s : Sim) :
  (length (planets s) ≤ length (original_planets s))%nat →
  ∃ s', reset_simulation s = Ok s'
    ∧ current_time s' = 0 ∧ custom_masses s' = [] ∧ selected_mass s' = None
    ∧ paused s' = paused s ∧ time_speed s' = time_speed s
    ∧ spawn_mass s' = spawn_mass s ∧ spawn_mode s' = spawn_mode s
    ∧ show_trails s' = show_trails s ∧ physics_enabled s' = physics_enabled s
    ∧ camera_angle_x s' = camera_angle_x s
    ∧ camera_angle_y s' = camera_angle_y s
    ∧ camera_distance s' = camera_distance s
    ∧ mouse_pressed s' = mouse_pressed s
    ∧ last_mouse_x s' = last_mouse_x s ∧ last_mouse_y s' = last_mouse_y s
    ∧ width s' = width s ∧ height s' = height s
    ∧ grid_size s' = grid_size s ∧ grid_spacing s' = grid_spacing s
    ∧ grid_heights s' = grid_heights s ∧ objs s' = objs s
    ∧ original_planets s' = original_planets s
    ∧ length (planets s') = length (planets s)
    ∧ ∀ i planet, planets s !! i = Some planet →
        ∃ o, original_planets s !! i = Some o ∧
             planets s' !! i =
               Some (Planet.with_orbit (snap_angle o) (snap_orbit_radius o)
                       (snap_orbit_speed o) planet).
Proof.
  intros Hlen. unfold reset_simulation.
  destruct (mapM_result_total (reset_planet (original_planets s))
              (enumerate (planets s))) as [ps' Hps].
  { intros [i planet] Hin. apply list_elem_of_lookup in Hin as [k Hk].
    apply enumerate_from_lookup in Hk as [-> Hk]. unfold reset_planet, index.
    apply lookup_lt_Some in Hk.
    destruct (lookup_lt_is_Some_2 (original_planets s) (0 + k)) as [o ->]; [lia|].
    cbn. eauto. }
  cbn [original_planets planets set_current_time set_custom_masses
       set_selected_mass] in *.
  rewrite Hps. cbn. eexists. split; [reflexivity|].
  cbn. repeat (split; [reflexivity|]).
  split.
  - rewrite (mapM_result_length _ _ _ Hps). apply enumerate_from_length.
  - intros i planet Hi.
    assert (enumerate (planets s) !! i = Some (i, planet)) as Hi'.
    { apply enumerate_from_lookup. split; [reflexivity | exact Hi]. }
    destruct (mapM_result_lookup _ _ _ _ _ Hps Hi') as (planet' & Hp & Hi'').
    apply reset_planet_frame in Hp as (o & Ho & ->). eauto.
Qed.

(** A run of the theorem: physics switched off and the simulation paused
    and sped up before the reset; the flags and the speed stay, where the
    startup state has physics on, no pause and a time scale of 1. *)
Lemma C10_witness :
  let s := Table.after [KEYDOWN K_p; KEYDOWN K_SPACE; KEYDOWN K_f] Table.startup in
  (length (planets s) ≤ length (original_planets s))%nat ∧
  physics_enabled Table.startup = true ∧ paused Table.startup = false ∧
  time_speed Table.startup = 1 ∧
  ∃ s', reset_simulation s = Ok s' ∧
        physics_enabled s' = false ∧ paused s' = true ∧ time_speed s' = 1.5.
Proof.
  cbv zeta.
  assert (length (planets (Table.after [KEYDOWN K_p; KEYDOWN K_SPACE; KEYDOWN K_f]
                             Table.startup))
          ≤ length (original_planets
                      (Table.after [KEYDOWN K_p; KEYDOWN K_SPACE; KEYDOWN K_f]
                         Table.startup)))%nat as Hlen.
  { vm_compute. lia. }
  split; [exact Hlen|].
  split; [by vm_compute|]. split; [by vm_compute|]. split; [by vm_compute|].
  destruct (C10_reset_keeps_configuration _ Hlen)
    as (s' & Hreset & _ & _ & _ & Hp & Ht & _ & _ & _ & Hphys & _).
  exists s'. split; [exact Hreset|].
  rewrite Hphys, Hp, Ht. split; [by vm_compute|]. split; by vm_compute.
Defined.

(** ** Picking *)

Lemma nearer_Ok h world_pos best r :
  nearer h world_pos best r =
  Ok (if xz_distance world_pos (h !!! r) <? best.2
      then (Some r, xz_distance world_pos (h !!! r)) else best).
Proof.
  destruct best as [nearest min_distance]. unfold nearer, xz_distance.
  rewrite math_sqrt_squares. cbn. now destruct (_ <? _).
Qed.

Lemma ltb_false_trans x y z :
  (x <? z) = false → (y <? z) = true → (x <? y) = false.
Proof.
  intros Hxz Hyz. destruct (x <? y) eqn:Hxy; [|done].
  now rewrite (ltb_trans _ _ _ Hxy Hyz) in Hxz.
Qed.

Lemma leb_false_trans x y z :
  (x <? z) = false → (y <? z) = true → (x <=? y) = false.
Proof.
  intros Hxz Hyz. destruct (x <=? y) eqn:Hxy; [|done].
  now rewrite (leb_ltb_trans _ _ _ Hxy Hyz) in Hxz.
Qed.

Lemma scanned_step h world_pos max_distance seen best r :
  scanned h world_pos max_distance seen best →
  scanned h world_pos max_distance (seen ++ [r])
    (if xz_distance world_pos (h !!! r) <? best.2
     then (Some r, xz_distance world_pos (h !!! r)) else best).
Proof.
  destruct best as [[r0|] min_distance]; unfold scanned; cbn [fst snd].
  - intros (-> & Hr0 & k & Hk & Hmin & Hfirst).
    destruct (xz_distance world_pos (h !!! r) <? _) eqn:Hlt; cbn [fst snd].
    + split; [done|]. split; [eauto using ltb_trans|].
      exists (length seen). split; [apply list_lookup_middle; done|]. split.
      * intros r' [Hr'| ->%list_elem_of_singleton]%elem_of_app.
        -- eauto using ltb_false_trans.
        -- apply ltb_irrefl.
      * intros j r' Hj Hr'. rewrite lookup_app_l in Hr' by done.
        apply list_elem_of_lookup_2 in Hr'. eauto using leb_false_trans.
    + split; [done|]. split; [done|]. exists k.
      split; [apply lookup_app_l_Some; done|]. split.
      * intros r' [Hr'| ->%list_elem_of_singleton]%elem_of_app; eauto.
      * intros j r' Hj Hr'. apply lookup_lt_Some in Hk.
        rewrite lookup_app_l in Hr' by lia. eauto.
  - intros (-> & Hnone).
    destruct (xz_distance world_pos (h !!! r) <? _) eqn:Hlt; cbn [fst snd].
    + split; [done|]. split; [done|].
      exists (length seen). split; [apply list_lookup_middle; done|]. split.
      * intros r' [Hr'| ->%list_elem_of_singleton]%elem_of_app.
        -- eauto using ltb_false_trans.
        -- apply ltb_irrefl.
      * intros j r' Hj Hr'. rewrite lookup_app_l in Hr' by done.
        apply list_elem_of_lookup_2 in Hr'. eauto using leb_false_trans.
    + split; [done|].
      intros r' [Hr'| ->%list_elem_of_singleton]%elem_of_app; eauto.
Qed.

Lemma scan_loop h world_pos max_distance seen best masses :
  scanned h world_pos max_distance seen best →
  ∃ best',
    for_each (nearer h world_pos) best masses = Ok best' ∧
    scanned h world_pos max_distance (seen ++ masses) best'.
Proof.
  revert seen best. induction masses as [|r masses IH]; intros seen best Hinv.
  - exists best. now rewrite app_nil_r.
  - cbn [for_each]. rewrite nearer_Ok. cbn [mbind result_bind].
    destruct (IH (seen ++ [r]) _ (scanned_step _ _ _ _ _ r Hinv))
      as (best' & Hrun & Hinv').
    exists best'. now rewrite <- app_assoc in Hinv'.
Qed.

(** C9.  [find_nearest_mass] always returns.  It returns [None] when every
    custom mass is at an XZ distance of at least [max_distance] from
    [world_pos].  When some mass is strictly nearer than [max_distance],
    it returns a mass of the list that is strictly nearer than
    [max_distance] and than which no mass is nearer; every mass before
    it in the list is strictly farther, so of several nearest masses the
    first in iteration order is returned. *)
Theorem C9_find_nearest_mass (s : Sim) (world_pos : vec3) (max_distance : float) :
  let dist r := xz_distance world_pos (objs s !!! r) in
  ∃ nearest,
    find_nearest_mass s world_pos max_distance = Ok nearest
    ∧ ((∀ r, r ∈ custom_masses s → (max_distance <=? dist r) = true) →
       nearest = None)
    ∧ ((∃ r, r ∈ custom_masses s ∧ (dist r <? max_distance) = true) →
       ∃ k r,
         nearest = Some r ∧ custom_masses s !! k = Some r
         ∧ (dist r <? max_distance) = true
         ∧ (∀ r', r' ∈ custom_masses s → (dist r' <? dist r) = false)
         ∧ (∀ j r', (j < k)%nat → custom_masses s !! j = Some r' →
              (dist r' <=? dist r) = false)).
Proof.
  cbv zeta. unfold find_nearest_mass.
  destruct (scan_loop (objs s) world_pos max_distance [] (None, max_distance)
              (custom_masses s)) as ([nearest min_distance] & -> & Hinv).
  { split; [done|]. intros r Hr. by apply elem_of_nil in Hr. }
  exists nearest. split; [done|]. rewrite app_nil_l in Hinv.
  unfold scanned in Hinv. cbn [fst snd] in Hinv.
  destruct nearest as [r|].
  - destruct Hinv as (_ & Hr & k & Hk & Hmin & Hfirst). split.
    + intros Hfar. apply list_elem_of_lookup_2 in Hk.
      now rewrite (leb_not_ltb _ _ (Hfar r Hk)) in Hr.
    + intros _. exists k, r. done.
  - destruct Hinv as (_ & Hnone). split; [done|].
    intros (r & Hr & Hlt). now rewrite (Hnone r Hr) in Hlt.
Qed.

(** The nearer of two masses within reach is picked, whatever their order
    in the list, and none when the pointer is too far from both. *)
Lemma find_nearest_mass_examples :
  custom_masses Table.two_apart = [0%nat; 1%nat] ∧
  CustomMass.position (objs Table.two_apart !!! 0%nat) = Vec3 3 0 4 ∧
  CustomMass.position (objs Table.two_apart !!! 1%nat) = Vec3 5 0 4 ∧
  find_nearest_mass Table.two_apart (Vec3 4.5 0 4) 2 = Ok (Some 1%nat) ∧
  find_nearest_mass Table.two_apart (Vec3 3.5 0 4) 2 = Ok (Some 0%nat) ∧
  find_nearest_mass Table.two_apart (Vec3 4 0 4) 2 = Ok (Some 0%nat) ∧
  find_nearest_mass Table.two_apart (Vec3 4 0 7) 2 = Ok None.
Proof.
  split; [by vm_compute|]. split; [by vm_compute|]. split; [by vm_compute|].
  split; [by vm_compute|]. split; [by vm_compute|]. split; by vm_compute.
Qed.

(** A float whose magnitude is above zero is not zero, so a division by
    it does not raise. *)
Lemma abs_pos_nonzero d : (0 <? abs d) = true → (d =? 0) = false.
Proof.
  rewrite FloatAxioms.ltb_spec, FloatAxioms.eqb_spec, abs_spec.
  change (Prim2SF 0) with (S754_zero false).
  destruct (Prim2SF d) as [s|s| |s m e]; try done; now destruct s.
Qed.

Lemma div_Ok x y : (y =? 0) = false → Py.div x y = Ok (x / y).
Proof. unfold Py.div. now intros ->. Qed.

(** C8.  With the two unprojected points [near_point] and [far_point]:
    when their y components differ by more than 0.001 in magnitude,
    [screen_to_world] returns the point of the line through them at the
    parameter [t = - near_y / (far_y - near_y)], with 0.0 for its y
    component; when they differ by at most 0.001, it returns the origin. *)
Theorem C8_screen_to_world_ground (gl : GLContext) (screen_x screen_y : Z)
    (near_point far_point : vec3) :
  let win_x := Py.float_of_Z screen_x in
  let win_y := Py.float_of_Z ((viewport gl).2 - screen_y) in
  gluUnProject gl win_x win_y 0 = Ok near_point →
  gluUnProject gl win_x win_y 1 = Ok far_point →
  let dy := v_1 far_point - v_1 near_point in
  ((0.001 <? abs dy) = true →
     let t := - v_1 near_point / dy in
     screen_to_world gl screen_x screen_y =
       Vec3 (v_0 near_point + t * (v_0 far_point - v_0 near_point)) 0
            (v_2 near_point + t * (v_2 far_point - v_2 near_point)))
  ∧ ((abs dy <=? 0.001) = true →
     screen_to_world gl screen_x screen_y = Vec3 0 0 0).
Proof.
  intros win_x win_y Hnear Hfar dy. unfold screen_to_world.
  fold win_x win_y. rewrite Hnear, Hfar. cbn [mbind result_bind]. fold dy.
  split.
  - intros Hdy. rewrite Hdy.
    rewrite div_Ok; [done|].
    apply abs_pos_nonzero. eapply ltb_trans; [|exact Hdy]. by vm_compute.
  - intros Hdy. now rewrite (leb_not_ltb _ _ Hdy).
Qed.

(** A failing unprojection gives the origin too. *)
Lemma screen_to_world_unproject_raises (gl : GLContext) (screen_x screen_y : Z) e :
  let win_x := Py.float_of_Z screen_x in
  let win_y := Py.float_of_Z ((viewport gl).2 - screen_y) in
  gluUnProject gl win_x win_y 0 = Raise e ∨
  (∃ near_point, gluUnProject gl win_x win_y 0 = Ok near_point) ∧
    gluUnProject gl win_x win_y 1 = Raise e →
  screen_to_world gl screen_x screen_y = Vec3 0 0 0.
Proof.
  intros win_x win_y. unfold screen_to_world. fold win_x win_y.
  intros [-> | [[near_point ->] ->]]; done.
Qed.

(** A run of the theorem: the pixel (300, 400) under the camera of
    [Table.gl], whose rays are vertical, is the world point (3, 0, 4). *)
Lemma C8_witness :
  gluUnProject Table.gl (Py.float_of_Z 300)
    (Py.float_of_Z ((viewport Table.gl).2 - 400)) 0 = Ok (Vec3 3 10 4) ∧
  gluUnProject Table.gl (Py.float_of_Z 300)
    (Py.float_of_Z ((viewport Table.gl).2 - 400)) 1 = Ok (Vec3 3 (-10) 4) ∧
  (0.001 <? abs (-10 - 10)) = true ∧
  screen_to_world Table.gl 300 400 = Vec3 3 0 4.
Proof.
  split; [by vm_compute|]. split; [by vm_compute|]. split; [by vm_compute|].
  destruct (C8_screen_to_world_ground Table.gl 300 400 (Vec3 3 10 4)
              (Vec3 3 (-10) 4)) as [Hfar _]; [by vm_compute | by vm_compute |].
  rewrite Hfar; by vm_compute.
Defined.

(** ** Subtracting one turn *)

















(** ** The curvature grid *)

(** [update_spacetime_grid] is [recompute] with the exponent 2. *)
Lemma update_spacetime_grid_recompute (L : Libm) (s : Sim) :
  update_spacetime_grid L s =
  (λ g, set_grid_heights g s) <$> recompute L 2 s.
Proof.
  unfold update_spacetime_grid, recompute.
  destruct (for_each _ _ (planets s)) as [g|e]; cbn; [|done].
  destruct (for_each _ _ (custom_masses s)) as [g'|e]; cbn; done.
Qed.

Lemma fill_zero_shape (g g' : list (list float)) :
  length <$> g = length <$> g' → fill_zero g = fill_zero g'.
Proof.
  revert g'. induction g as [|row g IH]; intros [|row' g']; cbn; try done.
  intros [= Hrow Hg]. f_equal; [|eauto].
  clear -Hrow. revert row' Hrow.
  induction row as [|x row IH]; intros [|x' row']; cbn; try done.
  intros [= Hrow]. f_equal. eauto.
Qed.

(** The grid is computed afresh: the heights of the last frame matter by
    their shape only. *)
Lemma update_spacetime_grid_stateless (L : Libm) (s : Sim) (g : list (list float)) :
  length <$> g = length <$> grid_heights s →
  grid_heights <$> update_spacetime_grid L (set_grid_heights g s) =
  grid_heights <$> update_spacetime_grid L s.
Proof.
  intros Hshape. rewrite !update_spacetime_grid_recompute. unfold recompute.
  cbn [grid_heights set_grid_heights planets custom_masses grid_size
       grid_spacing objs].
  rewrite (fill_zero_shape _ _ Hshape).
  destruct (for_each _ _ (planets s)) as [g1|e]; cbn; [|done].
  destruct (for_each _ _ (custom_masses s)) as [g2|e]; cbn; done.
Qed.

(** C3, the failing input.  At startup the sample point of row 40 and
    column 40 is the origin, where the sun sits; with its radius of 2.0
    the sun weighs 4.0 in the grid the code computes and 8.0 in the grid
    of the specification, and the height there is about -800 in the one
    and about -1600 in the other. *)
Theorem C3_grid_weighs_planets_by_radius_squared :
  ∃ s' g3,
    update_spacetime_grid Table.libm Table.startup = Ok s' ∧
    recompute Table.libm 3 Table.startup = Ok g3 ∧
    cell (grid_heights s') 40 40 = Some (-800.0483632572842) ∧
    cell g3 40 40 = Some (-1600.0416419100543).
Proof.
  eexists _, _. split; [by vm_compute|]. split; [by vm_compute|].
  split; by vm_compute.
Qed.

(** ** The states the program reaches *)

Section Reachable.
Context (L : Libm) (gl : GLContext).

Lemma init_well_formed s : init L = Ok s → well_formed s.
Proof.
  unfold init. intros H. apply bind_Ok in H as (ps & _ & [= <-]).
  split; [constructor|]. split; [intros r Hr; by apply elem_of_nil in Hr | done].
Qed.

Lemma list_remove_Ok x xs ys :
  list_remove x xs = Ok ys → NoDup xs → NoDup ys ∧ ∀ r, r ∈ ys → r ∈ xs.
Proof.
  revert ys. induction xs as [|y xs IH]; intros ys; cbn; [done|].
  destruct (decide (y = x)) as [->|Hne].
  - intros [= <-] [_ Hnd]%NoDup_cons. split; [done|]. intros r Hr. now right.
  - intros (ys' & Hrem & ->)%fmap_Ok [Hy Hnd]%NoDup_cons.
    destruct (IH ys' Hrem Hnd) as [Hnd' Hsub]. split.
    + apply NoDup_cons. split; [|done]. intros Hin. apply Hy. eauto.
    + intros r [->|Hr]%elem_of_cons; [left | right; eauto].
Qed.

Lemma move_loop_dom ps masses dt n l h h' :
  for_each (move_mass L ps masses dt) h (enumerate_from n l) = Ok h' →
  dom h ⊆ dom h'.
Proof.
  revert n h. induction l as [|r l IH]; intros n h; cbn [for_each enumerate_from].
  - now intros [= <-].
  - intros (h1 & Hturn & Hrun)%bind_Ok.
    apply move_mass_Ok in Hturn as (? & ? & ? & _ & _ & ->).
    apply IH in Hrun. rewrite dom_insert_L in Hrun. set_solver.
Qed.

Lemma apply_gravitational_forces_well_formed dt s s' :
  apply_gravitational_forces L dt s = Ok s' → well_formed s → well_formed s'.
Proof.
  unfold apply_gravitational_forces. destruct (physics_enabled s); cbn [negb].
  - intros (h & Hloop & (ps & _ & [= <-])%bind_Ok)%bind_Ok (Hnd & Hdom & Hsel).
    apply move_loop_dom in Hloop.
    split; [done|]. split; cbn; intros r Hr; apply Hloop; eauto.
  - now intros [= <-].
Qed.

Lemma update_spacetime_grid_well_formed s s' :
  update_spacetime_grid L s = Ok s' → well_formed s → well_formed s'.
Proof.
  rewrite update_spacetime_grid_recompute. now intros (g & _ & ->)%fmap_Ok.
Qed.

Lemma update_well_formed dt s s' :
  update L dt s = Ok s' → well_formed s → well_formed s'.
Proof.
  unfold update. destruct (paused s); cbn [negb]; [now intros [= <-]|].
  intros (s1 & Hstep & Hgrid)%bind_Ok Hwf.
  eapply update_spacetime_grid_well_formed; [done|].
  eapply apply_gravitational_forces_well_formed; [done|]. exact Hwf.
Qed.

Lemma spawn_custom_mass_well_formed x z s s' :
  spawn_custom_mass L x z s = Ok s' → well_formed s → well_formed s'.
Proof.
  unfold spawn_custom_mass.
  intros (color & _ & (m & _ & [= <-])%bind_Ok)%bind_Ok (Hnd & Hdom & Hsel).
  pose proof (is_fresh (dom (objs s))) as Hfresh.
  split; [|split]; cbn.
  - apply NoDup_app. split; [done|]. split; [|apply NoDup_singleton].
    intros r Hr ->%list_elem_of_singleton. eauto.
  - intros r [Hr| ->%list_elem_of_singleton]%elem_of_app;
      rewrite dom_insert_L; set_solver.
  - intros r Hr. rewrite dom_insert_L. set_solver.
Qed.

Lemma handle_keydown_well_formed k s s' :
  handle_keydown k s = Ok (Some s') → well_formed s → well_formed s'.
Proof.
  intros Hk (Hnd & Hdom & Hsel).
  destruct k; cbn in Hk; try discriminate;
    try (injection Hk as <-; split; [|split]; cbn; done).
  - apply fmap_Ok in Hk as (s1 & Hreset & [= ->]).
    unfold reset_simulation in Hreset.
    apply bind_Ok in Hreset as (ps & _ & [= <-]).
    split; [constructor|]. split; [intros r Hr; by apply elem_of_nil in Hr | done].
  - injection Hk as <-.
    split; [constructor|].
    split; [intros r Hr; by apply elem_of_nil in Hr | exact Hsel].
  - destruct (selected_mass s) as [r|] eqn:Hr;
      [|injection Hk as <-; split; [done|]; split; [done|];
        intros r' Hr'; congruence].
    apply bind_Ok in Hk as (masses & Hrem & [= <-]).
    destruct (list_remove_Ok _ _ _ Hrem Hnd) as [Hnd' Hsub].
    split; [done|]. split; [cbn; eauto | done].
Qed.

Lemma find_nearest_mass_elem s world_pos max_distance r :
  find_nearest_mass s world_pos max_distance = Ok (Some r) →
  r ∈ custom_masses s.
Proof.
  unfold find_nearest_mass.
  destruct (scan_loop (objs s) world_pos max_distance [] (None, max_distance)
              (custom_masses s)) as ([nearest min_distance] & -> & Hinv).
  { split; [done|]. intros r' Hr'. by apply elem_of_nil in Hr'. }
  intros [= ->]. destruct Hinv as (_ & _ & k & Hk & _).
  eauto using list_elem_of_lookup_2.
Qed.

Lemma click_select_well_formed pos s s' :
  click_select gl pos s = Ok s' → well_formed s → well_formed s'.
Proof.
  unfold click_select. intros (nearest & Hnear & Hsel)%bind_Ok (Hnd & Hdom & Hsel').
  destruct nearest as [r|]; injection Hsel as <-; [|done].
  apply find_nearest_mass_elem in Hnear.
  assert (dom (alter (CustomMass.with_selected true) r
                 match selected_mass s with
                 | Some old => alter (CustomMass.with_selected false) old (objs s)
                 | None => objs s
                 end) = dom (objs s)) as Hdom'.
  { rewrite dom_alter_L. destruct (selected_mass s); [apply dom_alter_L | done]. }
  split; [done|]. cbn. rewrite Hdom'. split; [done|].
  intros r' [= <-]. eauto.
Qed.

Lemma click_move_well_formed pos s : well_formed s → well_formed (click_move gl pos s).
Proof.
  unfold click_move. intros (Hnd & Hdom & Hsel).
  destruct (selected_mass s) as [r|] eqn:Hr.
  2:{ split; [done|]. split; [done|]. intros r' Hr'. congruence. }
  split; [done|]. cbn. rewrite dom_alter_L, Hr. split; [done|].
  intros r' [= <-]. eauto.
Qed.

Lemma handle_event_well_formed ev s s' :
  handle_event L gl ev s = Ok (Some s') → well_formed s → well_formed s'.
Proof.
  intros Hev Hwf. destruct ev as [|k|button pos|button|pos|]; cbn in Hev.
  - done.
  - eauto using handle_keydown_well_formed.
  - destruct (button =? 1)%Z.
    + destruct (spawn_mode s).
      * apply fmap_Ok in Hev as (s1 & Hspawn & [= ->]).
        eauto using spawn_custom_mass_well_formed.
      * apply fmap_Ok in Hev as (s1 & Hsel & [= ->]).
        eauto using click_select_well_formed.
    + destruct (button =? 3)%Z; injection Hev as <-;
        [apply click_move_well_formed|]; done.
  - destruct (button =? 1)%Z; injection Hev as <-; done.
  - injection Hev as <-. unfold drag_camera.
    destruct (_ && _); done.
  - now injection Hev as <-.
Qed.

Lemma handle_input_well_formed events s running s' :
  handle_input L gl events s = Ok (running, s') →
  well_formed s → well_formed s'.
Proof.
  revert s. induction events as [|ev events IH]; intros s; cbn.
  - now intros [= _ <-].
  - intros (o & Hev & Hrest)%bind_Ok Hwf. destruct o as [s1|].
    + eauto using handle_event_well_formed.
    + now injection Hrest as _ <-.
Qed.

End Reachable.

(** * Further properties *)

(** ** Evaluation helpers *)

(** Membership in a list of float literals, by evaluation. *)
Ltac float_elem :=
  vm_compute;
  repeat first [apply list_elem_of_here | apply list_elem_of_further].

Ltac elem_cases H :=
  repeat (apply elem_of_cons in H as [->|H]); [..|by apply elem_of_nil in H].

Lemma speed_up_in_range ts : ts ∈ speeds → Py.min 5.0 (ts + 0.5) ∈ speeds.
Proof. intros H. unfold speeds in H. elem_cases H; float_elem. Qed.

Lemma slow_down_in_range ts : ts ∈ speeds → Py.max 0.5 (ts - 0.5) ∈ speeds.
Proof. intros H. unfold speeds in H. elem_cases H; float_elem. Qed.

Lemma zoom_in_in_range d : d ∈ zoom_levels → Py.max 10 (d - 2) ∈ zoom_levels.
Proof.
  intros H. vm_compute in H. elem_cases H; float_elem.
Qed.

Lemma zoom_out_in_range d : d ∈ zoom_levels → Py.min 100 (d + 2) ∈ zoom_levels.
Proof.
  intros H. vm_compute in H. elem_cases H; float_elem.
Qed.

Lemma clamp_in_range x :
  (-90 <=? Py.max (-90) (Py.min 90 x)) = true
  ∧ (Py.max (-90) (Py.min 90 x) <=? 90) = true.
Proof.
  unfold Py.max, Py.min. destruct (x <? 90) eqn:Hhi.
  - destruct (-90 <? x) eqn:Hlo.
    + split; eauto using ltb_leb.
    + split; by vm_compute.
  - change (-90 <? 90) with true. cbn. split; by vm_compute.
Qed.

(** ** [list.remove] and the solver's frame *)

Lemma list_remove_Raise x xs e :
  list_remove x xs = Raise e ↔ e = ValueError ∧ x ∉ xs.
Proof.
  revert e. induction xs as [|y xs IH]; intros e; cbn.
  - split; [intros [= <-]; split; [done | apply not_elem_of_nil] | now intros [-> _]].
  - destruct (decide (y = x)) as [->|Hne].
    + split; [done|]. intros [_ H]. destruct H. left.
    + destruct (list_remove x xs) as [ys|e'] eqn:E; cbn.
      * split; [done|]. intros [-> H]. apply not_elem_of_cons in H as [_ H].
        now pose proof (proj2 (IH ValueError) (conj eq_refl H)).
      * split.
        -- intros [= <-]. destruct (proj1 (IH e') eq_refl) as [-> H].
           split; [done|]. apply not_elem_of_cons. split; [congruence | done].
        -- intros [-> H]. apply not_elem_of_cons in H as [_ H].
           now rewrite (proj2 (IH ValueError) (conj eq_refl H)).
Qed.

Lemma list_remove_Ok_split x xs ys :
  list_remove x xs = Ok ys ↔
  ∃ l1 l2, xs = l1 ++ (x :: l2) ∧ (x ∉ l1) ∧ ys = l1 ++ l2.
Proof.
  revert ys. induction xs as [|y xs IH]; intros ys; cbn.
  - split; [done|]. intros (l1 & l2 & H & _). by destruct l1.
  - destruct (decide (y = x)) as [->|Hne].
    + split.
      * intros [= <-]. exists [], xs. split; [done|]. split; [apply not_elem_of_nil | done].
      * intros (l1 & l2 & H & Hx & ->). destruct l1 as [|z l1]; cbn in *.
        -- now injection H as ->.
        -- injection H as <- _. destruct Hx. left.
    + split.
      * intros (ys' & Hrem & ->)%fmap_Ok.
        apply IH in Hrem as (l1 & l2 & -> & Hx & ->).
        exists (y :: l1), l2. split; [done|]. split; [|done].
        apply not_elem_of_cons. split; [congruence | done].
      * intros (l1 & l2 & H & Hx & ->). destruct l1 as [|z l1]; cbn in *.
        -- injection H as -> _. done.
        -- injection H as <- ->. apply not_elem_of_cons in Hx as [_ Hx].
           assert (list_remove x (l1 ++ x :: l2) = Ok (l1 ++ l2)) as ->.
           { apply IH. eauto. }
           done.
Qed.

Lemma list_remove_gone x xs ys :
  list_remove x xs = Ok ys → NoDup xs → x ∉ ys.
Proof.
  intros (l1 & l2 & -> & Hx & ->)%list_remove_Ok_split Hnd.
  apply NoDup_app in Hnd as (_ & _ & [Hx2 _]%NoDup_cons).
  intros [?|?]%elem_of_app; done.
Qed.

Section SolverFrame.
Context (L : Libm).

Lemma moved_only_refl m : moved_only m m.
Proof. repeat split; done. Qed.

Lemma moved_only_trans m1 m2 m3 :
  moved_only m1 m2 → moved_only m2 m3 → moved_only m1 m3.
Proof.
  intros (? & ? & ? & ? & ? & ? & ?) (? & ? & ? & ? & ? & ? & ?).
  repeat split; try congruence. eauto.
Qed.

Lemma move_mass_moved_only ps masses dt h i r h' r' :
  move_mass L ps masses dt h (i, r) = Ok h' →
  moved_only (h !!! r') (h' !!! r').
Proof.
  intros (force & pos & vel & _ & Hint & ->)%move_mass_Ok.
  destruct (decide (r' = r)) as [->|Hne].
  - rewrite lookup_total_insert_eq.
    apply integrate_Ok in Hint as (ax & az & _ & _ & -> & ->).
    repeat split; cbn; try done. apply add_to_trail_bound.
  - rewrite lookup_total_insert_ne by done. apply moved_only_refl.
Qed.

Lemma move_loop_moved_only ps masses dt n l h h' r' :
  for_each (move_mass L ps masses dt) h (enumerate_from n l) = Ok h' →
  moved_only (h !!! r') (h' !!! r').
Proof.
  revert n h. induction l as [|r l IH]; intros n h; cbn [for_each enumerate_from].
  - intros [= <-]. apply moved_only_refl.
  - intros (h1 & Hturn & Hrun)%bind_Ok.
    eapply moved_only_trans; [eapply move_mass_moved_only; done | eauto].
Qed.

Lemma move_loop_dom_eq ps masses dt n l h h' :
  for_each (move_mass L ps masses dt) h (enumerate_from n l) = Ok h' →
  (∀ r, r ∈ l → r ∈ dom h) → dom h' = dom h.
Proof.
  revert n h. induction l as [|r l IH]; intros n h; cbn [for_each enumerate_from].
  - now intros [= <-].
  - intros (h1 & Hturn & Hrun)%bind_Ok Hdom.
    apply move_mass_Ok in Hturn as (? & ? & ? & _ & _ & ->).
    assert (dom (<[r:=CustomMass.with_motion x0 x1
                   (add_to_trail (CustomMass.trail (h !!! r)) (v_0 x0, v_2 x0))
                   (h !!! r)]> h) = dom h) as Hd.
    { rewrite dom_insert_L. apply subseteq_union_1_L, singleton_subseteq_l.
      apply Hdom. left. }
    rewrite <- Hd. eapply IH; [done|]. intros r' Hr'. rewrite Hd.
    apply Hdom. now right.
Qed.

(** What a physics step leaves: the attributes of the simulation
    but the store and the planets. *)
Lemma apply_gravitational_forces_frame dt s s' :
  apply_gravitational_forces L dt s = Ok s' →
  ∃ h ps, s' = set_planets ps (set_objs h s)
    ∧ (∀ r, moved_only (objs s !!! r) (h !!! r))
    ∧ ((∀ r, r ∈ custom_masses s → r ∈ dom (objs s)) → dom h = dom (objs s))
    ∧ (∀ r, r ∉ custom_masses s → h !!! r = objs s !!! r)
    ∧ (physics_enabled s = false → ps = planets s)
    ∧ (physics_enabled s = true →
       perturb_planets L h (custom_masses s) (planets s) = Ok ps).
Proof.
  unfold apply_gravitational_forces. destruct (physics_enabled s); cbn [negb].
  - intros (h & Hloop & (ps & Hps & [= <-])%bind_Ok)%bind_Ok.
    exists h, ps. split; [done|]. split; [|split; [|split; [|split]]].
    + intros r. eapply move_loop_moved_only. exact Hloop.
    + intros Hdom. eapply move_loop_dom_eq; done.
    + intros r Hr. eapply move_loop_frame; done.
    + done.
    + done.
  - intros [= <-]. exists (objs s), (planets s).
    split; [by destruct s|]. split; [intros; apply moved_only_refl|].
    repeat split; done.
Qed.

End SolverFrame.

Lemma for_each_invariant {A B : Type} (P : A → Prop) (body : A → B → result A)
    a xs a' :
  (∀ a x a', x ∈ xs → body a x = Ok a' → P a → P a') →
  for_each body a xs = Ok a' → P a → P a'.
Proof.
  revert a. induction xs as [|x xs IH]; intros a Hbody; cbn [for_each].
  - now intros [= <-].
  - intros (a1 & Hx & Hrun)%bind_Ok Ha. eapply IH; [|done|].
    + intros ? ? ? ?. apply Hbody. now right.
    + eapply Hbody; [left|done..].
Qed.

Lemma mapM_result_Forall2 {A B : Type} (f : A → result B) xs ys :
  mapM f xs = Ok ys → Forall2 (λ x y, f x = Ok y) xs ys.
Proof.
  revert ys. induction xs as [|x xs IH]; intros ys; cbn.
  - intros [= <-]. constructor.
  - intros (y & Hy & (ys' & Hys & [= <-])%bind_Ok)%bind_Ok.
    constructor; eauto.
Qed.

Lemma alter_lookup_total (f : CustomMass.t → CustomMass.t) (h : store) r r' :
  r ∈ dom h →
  alter f r h !!! r' = if decide (r = r') then f (h !!! r) else h !!! r'.
Proof.
  intros Hr. rewrite lookup_total_alter. destruct (decide (r = r')); [|done].
  now rewrite (lookup_lookup_total_dom _ _ Hr).
Qed.

(** ** The grid keeps its shape *)

Lemma grid_add_shape i j c g g' :
  grid_add i j c g = Ok g' → length <$> g' = length <$> g.
Proof.
  unfold grid_add, index. destruct (g !! i) as [row|] eqn:Hi; cbn; [|done].
  destruct (row !! j); cbn; [|done]. intros [= <-].
  rewrite list_fmap_insert, length_insert. apply list_insert_id.
  now rewrite list_lookup_fmap, Hi.
Qed.

Lemma add_mass_to_grid_shape L size spacing x z mass g g' :
  _add_mass_to_grid L size spacing x z mass g = Ok g' →
  length <$> g' = length <$> g.
Proof.
  unfold _add_mass_to_grid. intros H.
  apply (for_each_invariant (λ g', length <$> g' = length <$> g) _ _ _ _) in H;
    [done| |done].
  intros g1 i g2 _ Hrow Hg1. rewrite <- Hg1.
  apply (for_each_invariant (λ g', length <$> g' = length <$> g1) _ _ _ _) in Hrow;
    [done| |done].
  intros g3 j g4 _ (c & _ & Hadd)%bind_Ok <-. eauto using grid_add_shape.
Qed.

Lemma fill_zero_keeps_shape g : length <$> fill_zero g = length <$> g.
Proof.
  unfold fill_zero. rewrite <- list_fmap_compose. apply list_fmap_ext.
  intros _ row _. cbn. apply length_fmap.
Qed.

Lemma update_spacetime_grid_shape L s s' :
  update_spacetime_grid L s = Ok s' →
  ∃ g, s' = set_grid_heights g s ∧ length <$> g = length <$> grid_heights s.
Proof.
  unfold update_spacetime_grid.
  intros (g1 & H1 & (g2 & H2 & [= <-])%bind_Ok)%bind_Ok.
  exists g2. split; [done|].
  apply (for_each_invariant
           (λ g', length <$> g' = length <$> grid_heights s) _ _ _ _) in H2;
    [done| |].
  - intros g3 r g4 _ Hadd <-. eauto using add_mass_to_grid_shape.
  - apply (for_each_invariant
             (λ g', length <$> g' = length <$> grid_heights s) _ _ _ _) in H1;
      [done| |apply fill_zero_keeps_shape].
    intros g3 planet g4 _ Hadd <-.
    apply bind_Ok in Hadd as ([px pz] & _ & (m & _ & Hadd)%bind_Ok).
    eauto using add_mass_to_grid_shape.
Qed.

Lemma square_shape size g :
  square size g ↔ length <$> g = replicate (Z.to_nat size) (Z.to_nat size).
Proof.
  unfold square. split.
  - intros [Hlen Hrows]. rewrite <- Hlen at 1. clear Hlen.
    induction Hrows as [|row g Hrow _ IH]; cbn; [done|]. now rewrite Hrow, IH.
  - intros H. split.
    + apply (f_equal length) in H. now rewrite length_fmap, length_replicate in H.
    + apply Forall_forall. intros row Hrow.
      apply (list_elem_of_fmap_2 length) in Hrow. rewrite H in Hrow.
      now apply elem_of_replicate in Hrow as [-> _].
Qed.

(** ** The invariant of the reachable states *)

Section Invariant.
Context (L : Libm) (gl : GLContext).

(** *** Startup *)

Lemma same_body_refl p : same_body p p.
Proof. by destruct p. Qed.

Lemma init_planets_length ps : init_planets L = Ok ps → length ps = 9%nat.
Proof.
  unfold init_planets. intros H.
  do 9 (apply bind_Ok in H as (? & _ & H)). now injection H as <-.
Qed.

Lemma init_invariant s : init L = Ok s → invariant L s.
Proof.
  intros Hinit. split; [eauto using init_well_formed|].
  unfold init in Hinit. apply bind_Ok in Hinit as (ps & Hps & [= <-]).
  split; [|split; [|split; [|split]]].
  - intros r Hr. by apply elem_of_nil in Hr.
  - repeat split; cbn; try by vm_compute. all: float_elem.
  - intros r Hr. cbn in Hr. by rewrite dom_empty_L in Hr.
  - exists ps. split; [done|]. split; [done|]. split; [|done]. cbn.
    clear. induction ps; constructor; eauto using same_body_refl.
  - split; [done|]. split; [done|]. apply square_shape. by vm_compute.
Qed.

(** *** The keys *)

Lemma reset_simulation_planets s s' :
  reset_simulation s = Ok s' → planets_as_built L s →
  ∃ ps0, init_planets L = Ok ps0 ∧ planets s' = ps0
         ∧ original_planets s' = snapshot_of <$> ps0.
Proof.
  unfold reset_simulation. intros (ps & Hps & [= <-])%bind_Ok.
  intros (ps0 & Hinit & Horig & Hsame & Hsun). exists ps0.
  split; [done|]. split; [|done]. cbn in *.
  apply list_eq_same_length with (length ps0).
  - done.
  - rewrite (mapM_result_length _ _ _ Hps). unfold enumerate.
    rewrite enumerate_from_length. eauto using Forall2_length.
  - intros i p' p0 Hi Hp' Hp0.
    destruct (Forall2_lookup_r _ _ _ _ _ Hsame Hp0) as (p & Hp & Hpp0).
    assert (enumerate (planets s) !! i = Some (i, p)) as Hip.
    { apply enumerate_from_lookup. done. }
    destruct (mapM_result_lookup _ _ _ _ _ Hps Hip) as (p'' & Hreset & Hp'').
    apply reset_planet_frame in Hreset as (o & Ho & ->).
    rewrite Horig, list_lookup_fmap, Hp0 in Ho. injection Ho as <-.
    cbn in Hp''. congruence.
Qed.

Lemma planets_as_built_same ps0 :
  init_planets L = Ok ps0 →
  ∀ s, planets s = ps0 → original_planets s = snapshot_of <$> ps0 →
       planets_as_built L s.
Proof.
  intros Hinit s Hps Horig. exists ps0. rewrite Hps.
  split; [done|]. split; [done|]. split; [|done].
  clear. induction ps0; constructor; eauto using same_body_refl.
Qed.

Lemma handle_keydown_invariant k s s' :
  handle_keydown k s = Ok (Some s') → invariant L s → invariant L s'.
Proof.
  intros Hk (Hwf & Hhl & Hctl & Hobj & Hpl & Hgrid).
  split; [eauto using handle_keydown_well_formed|].
  destruct Hctl as (Hts & Hzoom & Hsm & Hlo & Hhi).
  destruct k; cbn in Hk; try discriminate.
  all: try (injection Hk as <-;
            split; [exact Hhl|];
            split; [|split; [exact Hobj | split; [exact Hpl | exact Hgrid]]];
            unfold controls_in_range; cbn;
            repeat split;
            first [ assumption
                  | apply speed_up_in_range; assumption
                  | apply slow_down_in_range; assumption
                  | apply zoom_in_in_range; assumption
                  | apply zoom_out_in_range; assumption
                  | float_elem ]).
  - (* R *)
    apply fmap_Ok in Hk as (s1 & Hreset & [= ->]).
    destruct (reset_simulation_planets _ _ Hreset Hpl) as (ps0 & Hinit & Hps & Horig).
    unfold reset_simulation in Hreset.
    apply bind_Ok in Hreset as (ps & _ & [= <-]). cbn in *.
    split; [intros r Hr; by apply elem_of_nil in Hr|].
    split; [repeat split; assumption|]. split; [exact Hobj|].
    split; [eapply planets_as_built_same; done | exact Hgrid].
  - (* C *)
    injection Hk as <-. split; [intros r Hr; by apply elem_of_nil in Hr|].
    split; [|split; [exact Hobj | split; [exact Hpl | exact Hgrid]]].
    repeat split; assumption.
  - (* Delete *)
    destruct (selected_mass s) as [r|] eqn:Hr.
    2:{ injection Hk as <-. split; [exact Hhl|].
        split; [|split; [exact Hobj | split; [exact Hpl | exact Hgrid]]].
        repeat split; assumption. }
    apply bind_Ok in Hk as (masses & Hrem & [= <-]).
    destruct Hwf as (Hnd & Hdom & Hsel).
    pose proof (list_remove_gone _ _ _ Hrem Hnd) as Hgone.
    destruct (list_remove_Ok _ _ _ Hrem Hnd) as [_ Hsub].
    split; [|split; [|split; [exact Hobj | split; [exact Hpl | exact Hgrid]]];
             repeat split; assumption].
    intros r' Hr'. cbn in *. split; [|done].
    intros Hflag. apply Hhl in Hflag; [|eauto]. rewrite Hr in Hflag.
    injection Hflag as ->. done.
Qed.

(** *** The mouse *)

Lemma index_elem {A : Type} (xs : list A) i x : index xs i = Ok x → x ∈ xs.
Proof.
  unfold index. destruct (xs !! i) eqn:E; [|done]. intros [= <-].
  eauto using list_elem_of_lookup_2.
Qed.

Lemma spawn_custom_mass_invariant x z s s' :
  spawn_custom_mass L x z s = Ok s' → invariant L s → invariant L s'.
Proof.
  intros Hspawn (Hwf & Hhl & Hctl & Hobj & Hpl & Hgrid).
  split; [eauto using spawn_custom_mass_well_formed|].
  unfold spawn_custom_mass, new_mass in Hspawn.
  apply bind_Ok in Hspawn as (color & Hcolor & Hspawn).
  apply bind_Ok in Hspawn as (m & (p & Hp & [= <-])%bind_Ok & [= <-]).
  pose proof (is_fresh (dom (objs s))) as Hfresh.
  destruct Hwf as (Hnd & Hdom & Hsel).
  split; [|split; [exact Hctl | split; [|split; [exact Hpl | exact Hgrid]]]].
  - intros r Hr. cbn in *.
    apply elem_of_app in Hr as [Hr| ->%list_elem_of_singleton].
    + rewrite lookup_total_insert_ne by (intros <-; eauto). eauto.
    + rewrite lookup_total_insert_eq. cbn. split; [done|].
      intros Hs. destruct Hfresh. eauto.
  - intros r Hr. cbn in *. apply elem_of_dom in Hr as [m Hm].
    rewrite (lookup_total_correct _ _ _ Hm).
    apply lookup_insert_Some in Hm as [[_ <-]|[Hne Hm]].
    + destruct Hctl as (_ & _ & Hsm & _).
      repeat split; cbn; eauto using index_elem. lia.
    + rewrite <- (lookup_total_correct _ _ _ Hm). apply Hobj.
      apply elem_of_dom. eauto.
Qed.

Lemma spawned_with_selected b m : spawned L m → spawned L (CustomMass.with_selected b m).
Proof. done. Qed.

Lemma click_select_invariant pos s s' :
  click_select gl pos s = Ok s' → invariant L s → invariant L s'.
Proof.
  intros Hclick (Hwf & Hhl & Hctl & Hobj & Hpl & Hgrid).
  split; [eauto using click_select_well_formed|].
  unfold click_select in Hclick.
  apply bind_Ok in Hclick as (nearest & Hnear & Hclick).
  destruct nearest as [r|]; injection Hclick as <-.
  2:{ split; [exact Hhl|].
      split; [exact Hctl | split; [exact Hobj | split; [exact Hpl | exact Hgrid]]]. }
  apply find_nearest_mass_elem in Hnear.
  destruct Hwf as (Hnd & Hdom & Hsel).
  set (h := match selected_mass s with
            | Some old => alter (CustomMass.with_selected false) old (objs s)
            | None => objs s
            end).
  assert (dom h = dom (objs s)) as Hdomh.
  { subst h. destruct (selected_mass s); [apply dom_alter_L | done]. }
  assert (∀ r', selected_mass s = Some r'
                  ∧ h !!! r' = CustomMass.with_selected false (objs s !!! r')
                ∨ selected_mass s ≠ Some r' ∧ h !!! r' = objs s !!! r') as Hh.
  { intros r'. subst h. destruct (selected_mass s) as [old|] eqn:Hold; [|by right].
    rewrite alter_lookup_total by eauto.
    destruct (decide (old = r')) as [->|]; [left | right]; split; congruence. }
  split; [|split; [exact Hctl | split; [|split; [exact Hpl | exact Hgrid]]]].
  - intros r' Hr'. cbn in *.
    rewrite alter_lookup_total by (rewrite Hdomh; eauto).
    destruct (decide (r = r')) as [->|Hne]; [done|].
    split; [|intros [= ?]; done].
    destruct (Hh r') as [[_ ->] | [Hold ->]]; [done|].
    intros Hflag. apply Hhl in Hflag; done.
  - intros r' Hr'. cbn in *. rewrite dom_alter_L, Hdomh in Hr'.
    rewrite alter_lookup_total by (rewrite Hdomh; eauto).
    assert (spawned L (h !!! r')) as Hs.
    { destruct (Hh r') as [[_ ->] | [_ ->]]; eauto using spawned_with_selected. }
    destruct (decide (r = r')) as [->|Hne]; eauto using spawned_with_selected.
Qed.

Lemma click_move_invariant pos s :
  invariant L s → invariant L (click_move gl pos s).
Proof.
  intros (Hwf & Hhl & Hctl & Hobj & Hpl & Hgrid).
  split; [eauto using click_move_well_formed|].
  unfold click_move. destruct (selected_mass s) as [r|] eqn:Hr.
  2:{ split; [exact Hhl|].
      split; [exact Hctl | split; [exact Hobj | split; [exact Hpl | exact Hgrid]]]. }
  destruct Hwf as (Hnd & Hdom & Hsel).
  split; [|split; [exact Hctl | split; [|split; [exact Hpl | exact Hgrid]]]].
  - intros r' Hr'. cbn in *. rewrite alter_lookup_total by eauto.
    destruct (decide (r = r')) as [->|Hne]; [cbn|]; apply Hhl; done.
  - intros r' Hr'. cbn in *. rewrite dom_alter_L in Hr'.
    rewrite alter_lookup_total by eauto.
    destruct (decide (r = r')) as [->|Hne]; [|eauto].
    destruct (Hobj r' Hr') as (? & ? & ? & ? & ? & ?).
    repeat split; cbn; try done. lia.
Qed.

Lemma drag_camera_invariant pos s : invariant L s → invariant L (drag_camera pos s).
Proof.
  intros (Hwf & Hhl & Hctl & Hobj & Hpl & Hgrid).
  unfold drag_camera. destruct (_ && _); [|done].
  split; [exact Hwf|]. split; [exact Hhl|].
  split; [|split; [exact Hobj | split; [exact Hpl | exact Hgrid]]].
  destruct Hctl as (Hts & Hzoom & Hsm & _).
  split; [exact Hts|]. split; [exact Hzoom|]. split; [exact Hsm|].
  cbn. apply clamp_in_range.
Qed.

Lemma handle_event_invariant ev s s' :
  handle_event L gl ev s = Ok (Some s') → invariant L s → invariant L s'.
Proof.
  intros Hev Hinv. destruct ev as [|k|button pos|button|pos|]; cbn in Hev.
  - done.
  - eauto using handle_keydown_invariant.
  - destruct (button =? 1)%Z.
    + destruct (spawn_mode s).
      * apply fmap_Ok in Hev as (s1 & Hspawn & [= ->]).
        eauto using spawn_custom_mass_invariant.
      * apply fmap_Ok in Hev as (s1 & Hsel & [= ->]).
        eauto using click_select_invariant.
    + destruct (button =? 3)%Z; injection Hev as <-;
        [apply click_move_invariant|]; done.
  - destruct (button =? 1)%Z; injection Hev as <-; exact Hinv.
  - injection Hev as <-. now apply drag_camera_invariant.
  - now injection Hev as <-.
Qed.

(** *** The frame *)

Lemma same_body_with_angle a p p0 :
  same_body p p0 → same_body (Planet.with_angle a p) p0.
Proof. done. Qed.

Lemma same_body_with_orbit a r w p p0 :
  same_body p p0 → same_body (Planet.with_orbit a r w p) p0.
Proof. done. Qed.

Lemma advance_planets_as_built dt ts ps ps0 :
  Forall2 same_body ps ps0 →
  Forall2 same_body (advance_planets dt ts ps) ps0
  ∧ advance_planets dt ts ps !! 0%nat = ps !! 0%nat.
Proof.
  intros [|sun sun0 rest rest0 Hsun Hrest]; [done|]. split; [|done].
  cbn. constructor; [done|]. clear -Hrest.
  induction Hrest; constructor; eauto using same_body_with_angle.
Qed.

Lemma perturb_planets_as_built h masses ps ps' ps0 :
  perturb_planets L h masses ps = Ok ps' →
  Forall2 same_body ps ps0 →
  Forall2 same_body ps' ps0 ∧ ps' !! 0%nat = ps !! 0%nat.
Proof.
  unfold perturb_planets. intros Hps Hsame. revert Hps.
  destruct Hsame as [|sun sun0 rest rest0 Hsun Hrest]; intros Hps.
  { injection Hps as <-. split; [constructor | done]. }
  apply fmap_Ok in Hps as (rest' & Hmap & ->). split; [|done].
  constructor; [done|]. apply mapM_result_Forall2 in Hmap.
  clear -Hmap Hrest. revert rest0 Hrest.
  induction Hmap as [|p p' rest rest' Hp _ IH]; intros rest0 Hrest.
  - inversion Hrest. constructor.
  - inversion Hrest as [|? p0 ? rest0' Hpp0 Hrest']; subst. constructor; [|eauto].
    rewrite perturb_planet_feedback in Hp.
    apply feedback_Ok in Hp as (? & ? & pp & _ & _ & _ & ->).
    unfold perturbed. destruct (_ || _); eauto using same_body_with_orbit.
Qed.

Lemma spawned_moved_only m m' : moved_only m m' → spawned L m → spawned L m'.
Proof.
  intros (Hm & Hr & Hc & _ & Hp & Hv & Ht) (? & ? & (p & ? & ?) & ? & ? & ?).
  unfold spawned. rewrite Hm, Hr, Hc, Hp, Hv. eauto 10.
Qed.

Lemma apply_gravitational_forces_invariant dt s s' :
  apply_gravitational_forces L dt s = Ok s' → invariant L s → invariant L s'.
Proof.
  intros Hstep (Hwf & Hhl & Hctl & Hobj & Hpl & Hgrid).
  split; [eauto using apply_gravitational_forces_well_formed|].
  destruct (apply_gravitational_forces_frame L dt s s' Hstep)
    as (h & ps & -> & Hmoved & Hdom & _ & Hoff & Hon).
  destruct Hwf as (Hnd & Hdoms & Hsel). specialize (Hdom Hdoms).
  split; [|split; [exact Hctl | split; [|split; [|exact Hgrid]]]].
  - intros r Hr. cbn in *. destruct (Hmoved r) as (_ & _ & _ & -> & _). eauto.
  - intros r Hr. cbn in *. rewrite Hdom in Hr. eauto using spawned_moved_only.
  - destruct Hpl as (ps0 & Hinit & Horig & Hsame & Hsun).
    exists ps0. split; [done|]. split; [done|]. cbn.
    destruct (physics_enabled s).
    + destruct (perturb_planets_as_built _ _ _ _ _ (Hon eq_refl) Hsame) as [? ->].
      done.
    + rewrite (Hoff eq_refl). done.
Qed.

Lemma update_spacetime_grid_invariant s s' :
  update_spacetime_grid L s = Ok s' → invariant L s → invariant L s'.
Proof.
  intros (g & -> & Hshape)%update_spacetime_grid_shape
    (Hwf & Hhl & Hctl & Hobj & Hpl & Hgs & Hsp & Hsq).
  split; [exact Hwf|]. split; [exact Hhl|]. split; [exact Hctl|].
  split; [exact Hobj|]. split; [exact Hpl|].
  split; [exact Hgs|]. split; [exact Hsp|]. cbn.
  apply square_shape. rewrite Hshape. now apply square_shape.
Qed.

Lemma update_invariant dt s s' :
  update L dt s = Ok s' → invariant L s → invariant L s'.
Proof.
  unfold update. destruct (paused s); cbn [negb]; [now intros [= <-]|].
  intros (s1 & Hstep & Hgrid)%bind_Ok Hinv.
  eapply update_spacetime_grid_invariant; [done|].
  eapply apply_gravitational_forces_invariant; [done|].
  destruct Hinv as (Hwf & Hhl & Hctl & Hobj & Hpl & Hg).
  split; [exact Hwf|]. split; [exact Hhl|]. split; [exact Hctl|].
  split; [exact Hobj|]. split; [|exact Hg].
  destruct Hpl as (ps0 & Hinit & Horig & Hsame & Hsun).
  exists ps0. split; [done|]. split; [done|]. cbn.
  destruct (advance_planets_as_built dt (time_speed s) _ _ Hsame) as [? ->]. done.
Qed.

Lemma reachable_invariant s : reachable L gl s → invariant L s.
Proof.
  induction 1; eauto using init_invariant, handle_event_invariant, update_invariant.
Qed.

End Invariant.

(** ** Reachable states *)

Lemma handle_input_reachable L gl events s running s' :
  handle_input L gl events s = Ok (running, s') →
  reachable L gl s → reachable L gl s'.
Proof.
  revert s. induction events as [|ev events IH]; intros s; cbn.
  - now intros [= _ <-].
  - intros (o & Hev & Hrest)%bind_Ok Hs. destruct o as [s1|].
    + eauto using reachable_event.
    + now injection Hrest as _ <-.
Qed.

(** The state after the events [events], handled from startup, is
    reachable. *)
Lemma after_reachable events s :
  handle_input Table.libm Table.gl events Table.startup = Ok (true, s) →
  reachable Table.libm Table.gl s.
Proof.
  intros H. eapply handle_input_reachable; [exact H|].
  apply reachable_init. by vm_compute.
Qed.

(** X1.  In every state the program reaches, the list of custom masses
    holds no mass twice, and a mass of the list has its [is_selected] flag
    set exactly when it is the selected mass; so at most one mass of the
    list is drawn highlighted. *)
Theorem reachable_highlights_the_selection (L : Libm) (gl : GLContext) (s : Sim) :
  reachable L gl s →
  NoDup (custom_masses s)
  ∧ (∀ r, r ∈ custom_masses s →
       (CustomMass.is_selected (objs s !!! r) = true ↔ selected_mass s = Some r))
  ∧ (∀ r r', r ∈ custom_masses s → r' ∈ custom_masses s →
       CustomMass.is_selected (objs s !!! r) = true →
       CustomMass.is_selected (objs s !!! r') = true → r = r').
Proof.
  intros ((Hnd & _ & _) & Hhl & _)%reachable_invariant.
  split; [exact Hnd|]. split; [exact Hhl|].
  intros r r' Hr Hr' H H'. apply Hhl in H, H'; [|done..]. congruence.
Qed.

Lemma reachable_highlights_the_selection_witness :
  let click := MOUSEBUTTONDOWN 1 (500, 400)%Z in
  let s := Table.after [KEYDOWN K_m; MOUSEBUTTONDOWN 1 (300, 400)%Z; click;
                        KEYDOWN K_m; click] Table.startup in
  reachable Table.libm Table.gl s
  ∧ custom_masses s = [0%nat; 1%nat] ∧ selected_mass s = Some 1%nat
  ∧ CustomMass.is_selected (objs s !!! 0%nat) = false
  ∧ CustomMass.is_selected (objs s !!! 1%nat) = true.
Proof.
  cbv zeta.
  assert (reachable Table.libm Table.gl
            (Table.after [KEYDOWN K_m; MOUSEBUTTONDOWN 1 (300, 400)%Z;
                          MOUSEBUTTONDOWN 1 (500, 400)%Z; KEYDOWN K_m;
                          MOUSEBUTTONDOWN 1 (500, 400)%Z] Table.startup)) as Hs.
  { apply (after_reachable
             [KEYDOWN K_m; MOUSEBUTTONDOWN 1 (300, 400)%Z;
              MOUSEBUTTONDOWN 1 (500, 400)%Z; KEYDOWN K_m;
              MOUSEBUTTONDOWN 1 (500, 400)%Z]). by vm_compute. }
  split; [exact Hs|]. split; [by vm_compute|]. split; [by vm_compute|].
  destruct (reachable_highlights_the_selection _ _ _ Hs) as (_ & Hhl & _).
  split.
  - destruct (CustomMass.is_selected _) eqn:E; [|done].
    apply Hhl in E; [by vm_compute in E | float_elem].
  - apply Hhl; [float_elem | by vm_compute].
Defined.

(** X2.  In every state the program reaches, the time scale is one of
    0.5, 1.0, ..., 5.0, the camera distance one of the even numbers from 10
    to 100 and the spawn mass one of 1, 5, 10, 20 and 50: the keys step
    and clamp them, and nothing else writes them. *)
Theorem reachable_controls_take_key_values (L : Libm) (gl : GLContext) (s : Sim) :
  reachable L gl s →
  time_speed s ∈ speeds ∧ camera_distance s ∈ zoom_levels
  ∧ spawn_mass s ∈ spawn_masses.
Proof.
  intros (_ & _ & (? & ? & ? & _) & _)%reachable_invariant. done.
Qed.

Lemma reachable_controls_take_key_values_witness :
  let s := Table.after (replicate 12 (KEYDOWN K_f) ++ replicate 30 (KEYDOWN K_PLUS)
                        ++ [KEYDOWN K_4]) Table.startup in
  reachable Table.libm Table.gl s
  ∧ time_speed s = 5 ∧ camera_distance s = 10 ∧ spawn_mass s = 20
  ∧ time_speed s ∈ speeds ∧ camera_distance s ∈ zoom_levels
  ∧ spawn_mass s ∈ spawn_masses.
Proof.
  cbv zeta.
  split; [|split; [by vm_compute | split; [by vm_compute | split; [by vm_compute|]]]].
  - apply (after_reachable
             (replicate 12 (KEYDOWN K_f) ++ replicate 30 (KEYDOWN K_PLUS)
              ++ [KEYDOWN K_4])). by vm_compute.
  - apply (reachable_controls_take_key_values Table.libm Table.gl).
    apply (after_reachable
             (replicate 12 (KEYDOWN K_f) ++ replicate 30 (KEYDOWN K_PLUS)
              ++ [KEYDOWN K_4])). by vm_compute.
Defined.

(** X3.  In every state the program reaches, the vertical camera angle
    lies between -90 and 90, however far the mouse was dragged. *)
Theorem reachable_camera_pitch_is_clamped (L : Libm) (gl : GLContext) (s : Sim) :
  reachable L gl s →
  (-90 <=? camera_angle_x s) = true ∧ (camera_angle_x s <=? 90) = true.
Proof.
  intros (_ & _ & (_ & _ & _ & ? & ?) & _)%reachable_invariant. done.
Qed.

Lemma reachable_camera_pitch_is_clamped_witness :
  let s := Table.after [MOUSEBUTTONDOWN 1 (600, 100)%Z; MOUSEMOTION (600, 700)%Z]
             Table.startup in
  reachable Table.libm Table.gl s
  ∧ mouse_pressed s = true ∧ camera_angle_x s = 90
  ∧ (-90 <=? camera_angle_x s) = true ∧ (camera_angle_x s <=? 90) = true.
Proof.
  cbv zeta. split; [|split; [by vm_compute | split; [by vm_compute|]]].
  - apply (after_reachable
             [MOUSEBUTTONDOWN 1 (600, 100)%Z; MOUSEMOTION (600, 700)%Z]).
    by vm_compute.
  - apply (reachable_camera_pitch_is_clamped Table.libm Table.gl).
    apply (after_reachable
             [MOUSEBUTTONDOWN 1 (600, 100)%Z; MOUSEMOTION (600, 700)%Z]).
    by vm_compute.
Defined.

Lemma spawn_masses_nonzero m : m ∈ spawn_masses → (m =? 0) = false.
Proof. intros H. unfold spawn_masses in H. elem_cases H; by vm_compute. Qed.

(** X4.  A custom mass of the list of a reachable state is as
    [spawn_custom_mass] built it, its motion and selection apart: its mass
    is one of the five spawn masses, its colour one of the palette, its
    radius half the cube root of its mass, and the y components of its
    position and velocity are 0.0.  Its mass is not zero, so the division
    by it in the solver does not raise. *)
Theorem reachable_masses_stay_as_spawned (L : Libm) (gl : GLContext) (s : Sim)
    (r : ref) :
  reachable L gl s → r ∈ custom_masses s →
  let m := objs s !!! r in
  CustomMass.mass m ∈ spawn_masses
  ∧ CustomMass.color m ∈ colors
  ∧ (∃ p, float_pow L (CustomMass.mass m) (1 / 3) = Ok p
          ∧ CustomMass.radius m = p * 0.5)
  ∧ v_1 (CustomMass.position m) = 0
  ∧ v_1 (CustomMass.velocity m) = 0
  ∧ (∀ dt force, ∃ pos vel, integrate dt m force = Ok (pos, vel)).
Proof.
  intros ((_ & Hdom & _) & _ & _ & Hobj & _)%reachable_invariant Hr m.
  destruct (Hobj r (Hdom r Hr)) as (Hm & Hc & Hp & Hy & Hvy & _).
  split; [done|]. split; [done|]. split; [done|]. split; [done|]. split; [done|].
  intros dt [fx fz]. unfold integrate.
  rewrite !div_Ok by eauto using spawn_masses_nonzero. cbn. eauto.
Qed.

Lemma reachable_masses_stay_as_spawned_witness :
  let s := Table.two_apart in
  reachable Table.libm Table.gl s ∧ 1%nat ∈ custom_masses s
  ∧ CustomMass.mass (objs s !!! 1%nat) = 5
  ∧ CustomMass.radius (objs s !!! 1%nat) = 1.7099759466766968 * 0.5
  ∧ v_1 (CustomMass.position (objs s !!! 1%nat)) = 0.
Proof.
  cbv zeta.
  assert (reachable Table.libm Table.gl Table.two_apart) as Hs.
  { apply (after_reachable (Table.spawn_at [(300, 400)%Z; (500, 400)%Z])).
    by vm_compute. }
  assert (1%nat ∈ custom_masses Table.two_apart) as Hr by float_elem.
  split; [exact Hs|]. split; [exact Hr|]. split; [by vm_compute|].
  split; [by vm_compute|].
  apply (reachable_masses_stay_as_spawned Table.libm Table.gl _ _ Hs Hr).
Defined.

(** X5.  In every state the program reaches, no trail holds more than
    101 points. *)
Theorem reachable_trails_hold_at_most_101_points (L : Libm) (gl : GLContext)
    (s : Sim) (r : ref) :
  reachable L gl s → (length (CustomMass.trail (objs s !!! r)) ≤ 101)%nat.
Proof.
  intros (_ & _ & _ & Hobj & _)%reachable_invariant.
  destruct (decide (r ∈ dom (objs s))) as [Hr|Hr].
  - apply Hobj in Hr as (_ & _ & _ & _ & _ & ?). done.
  - apply not_elem_of_dom in Hr. rewrite lookup_total_alt, Hr. cbn. lia.
Qed.

Lemma updates_reachable L gl n dt s s' :
  updates L n dt s = Ok s' → reachable L gl s → reachable L gl s'.
Proof.
  revert s. induction n as [|n IH]; intros s; cbn.
  - now intros [= <-].
  - intros (s1 & Hup & Hrest)%bind_Ok Hs. eauto using reachable_update.
Qed.

Lemma reachable_trails_hold_at_most_101_points_witness :
  ∃ s, updates Table.libm 2 0 Table.one_mass = Ok s
       ∧ reachable Table.libm Table.gl s
       ∧ length (CustomMass.trail (objs s !!! 0%nat)) = 2%nat
       ∧ (length (CustomMass.trail (objs s !!! 0%nat)) ≤ 101)%nat.
Proof.
  assert ((λ s, length (CustomMass.trail (objs s !!! 0%nat)))
            <$> updates Table.libm 2 0 Table.one_mass = Ok 2%nat) as Hlen
    by (vm_compute; reflexivity).
  destruct (updates Table.libm 2 0 Table.one_mass) as [s|e] eqn:Hs;
    [|discriminate Hlen].
  injection Hlen as Hlen.
  exists s. split; [reflexivity|].
  assert (reachable Table.libm Table.gl s) as Hr.
  { apply (updates_reachable _ _ _ _ _ _ Hs).
    apply (after_reachable (Table.spawn_at [(300, 400)%Z])).
    vm_compute. reflexivity. }
  split; [exact Hr|]. split; [exact Hlen|].
  exact (reachable_trails_hold_at_most_101_points Table.libm Table.gl _ _ Hr).
Defined.

Lemma init_planets_of L s0 :
  init L = Ok s0 →
  init_planets L = Ok (planets s0)
  ∧ original_planets s0 = snapshot_of <$> planets s0.
Proof.
  unfold init. intros (ps & Hps & [= <-])%bind_Ok. done.
Qed.

Lemma reset_simulation_total s :
  length (planets s) = length (original_planets s) →
  ∃ s', reset_simulation s = Ok s'.
Proof.
  intros Hlen. unfold reset_simulation.
  destruct (mapM_result_total (reset_planet (original_planets s))
              (enumerate (planets s))) as [ps' Hps].
  { intros [i planet] Hin. apply list_elem_of_lookup in Hin as [k Hk].
    apply enumerate_from_lookup in Hk as [-> Hk]. unfold reset_planet, index.
    apply lookup_lt_Some in Hk.
    destruct (lookup_lt_is_Some_2 (original_planets s) (0 + k)) as [o ->]; [lia|].
    cbn. eauto. }
  cbn [original_planets planets set_current_time set_custom_masses
       set_selected_mass] in *.
  rewrite Hps. cbn. eauto.
Qed.

(** X6.  From every reachable state the reset returns, and it leaves
    exactly the planets of the startup state, whatever the custom masses
    have done to their orbits; the snapshots are still those of startup,
    the list of custom masses is empty and nothing is selected. *)
Theorem reset_restores_the_startup_planets (L : Libm) (gl : GLContext)
    (s0 s : Sim) :
  init L = Ok s0 → reachable L gl s →
  ∃ s', reset_simulation s = Ok s'
    ∧ planets s' = planets s0
    ∧ original_planets s' = original_planets s0
    ∧ custom_masses s' = [] ∧ selected_mass s' = None.
Proof.
  intros [Hps0 Horig0]%init_planets_of (_ & _ & _ & _ & Hpl & _)%reachable_invariant.
  destruct (reset_simulation_total s) as [s' Hreset].
  { destruct Hpl as (ps0 & _ & -> & Hsame & _).
    rewrite length_fmap. eauto using Forall2_length. }
  exists s'. split; [done|].
  destruct (reset_simulation_planets L _ _ Hreset Hpl) as (ps0 & Hinit & -> & ->).
  rewrite Hps0 in Hinit. injection Hinit as <-.
  split; [done|]. split; [done|].
  unfold reset_simulation in Hreset.
  apply bind_Ok in Hreset as (ps & _ & [= <-]). done.
Qed.

(** X7.  In every reachable state there are nine planets, each the
    startup planet of the same index but for its angle, orbit radius and
    orbit speed (radius, rotation speed, colour, name and mass never
    change); the first planet, the sun, is the startup sun, and the
    snapshots are those taken at startup. *)
Theorem reachable_planets_keep_their_bodies (L : Libm) (gl : GLContext)
    (s0 s : Sim) :
  init L = Ok s0 → reachable L gl s →
  planets s !! 0%nat = planets s0 !! 0%nat
  ∧ length (planets s) = 9%nat
  ∧ original_planets s = original_planets s0
  ∧ ∀ i p, planets s !! i = Some p →
      ∃ p0, planets s0 !! i = Some p0
        ∧ p = Planet.with_orbit (Planet.current_angle p) (Planet.orbit_radius p)
                (Planet.orbit_speed p) p0.
Proof.
  intros [Hps0 Horig0]%init_planets_of (_ & _ & _ & _ & Hpl & _)%reachable_invariant.
  destruct Hpl as (ps0 & Hinit & Horig & Hsame & Hsun).
  rewrite Hps0 in Hinit. injection Hinit as <-.
  split; [done|]. split; [|split; [congruence|]].
  - rewrite (Forall2_length _ _ _ Hsame). eauto using init_planets_length.
  - intros i p Hp. destruct (Forall2_lookup_l _ _ _ _ _ Hsame Hp) as (p0 & Hp0 & Hpp0).
    exists p0. split; [done|]. unfold same_body in Hpp0. rewrite <- Hpp0.
    by destruct p.
Qed.

Lemma heavy_beside_mercury_reachable :
  reachable Table.libm Table.gl heavy_beside_mercury.
Proof.
  apply (after_reachable
           [KEYDOWN K_5; KEYDOWN K_m; MOUSEBUTTONDOWN 1 (500, 750)%Z]).
  vm_compute. reflexivity.
Qed.

Lemma reset_restores_the_startup_planets_witness :
  init Table.libm = Ok Table.startup
  ∧ ∃ s, update Table.libm 0 heavy_beside_mercury = Ok s
      ∧ reachable Table.libm Table.gl s
      ∧ Planet.orbit_radius <$> planets s !! 1%nat = Some 5.0009999999999994
      ∧ ∃ s', reset_simulation s = Ok s' ∧ planets s' = planets Table.startup.
Proof.
  assert (init Table.libm = Ok Table.startup) as Hinit
    by (vm_compute; reflexivity).
  split; [exact Hinit|].
  assert ((λ s, Planet.orbit_radius <$> planets s !! 1%nat)
            <$> update Table.libm 0 heavy_beside_mercury
          = Ok (Some 5.0009999999999994)) as Hradius
    by (vm_compute; reflexivity).
  destruct (update Table.libm 0 heavy_beside_mercury) as [s|e] eqn:Hs;
    [|discriminate Hradius].
  injection Hradius as Hradius.
  exists s. split; [reflexivity|].
  assert (reachable Table.libm Table.gl s) as Hr.
  { exact (reachable_update _ _ _ _ _ heavy_beside_mercury_reachable Hs). }
  split; [exact Hr|]. split; [exact Hradius|].
  destruct (reset_restores_the_startup_planets Table.libm Table.gl _ _ Hinit Hr)
    as (s' & Hreset & Hps & _).
  exists s'. split; [exact Hreset | exact Hps].
Defined.

Lemma reachable_planets_keep_their_bodies_witness :
  init Table.libm = Ok Table.startup
  ∧ ∃ s, update Table.libm 0 heavy_beside_mercury = Ok s
      ∧ reachable Table.libm Table.gl s
      ∧ Planet.orbit_radius <$> planets s !! 1%nat = Some 5.0009999999999994
      ∧ planets s !! 0%nat = planets Table.startup !! 0%nat
      ∧ length (planets s) = 9%nat.
Proof.
  assert (init Table.libm = Ok Table.startup) as Hinit
    by (vm_compute; reflexivity).
  split; [exact Hinit|].
  assert ((λ s, Planet.orbit_radius <$> planets s !! 1%nat)
            <$> update Table.libm 0 heavy_beside_mercury
          = Ok (Some 5.0009999999999994)) as Hradius
    by (vm_compute; reflexivity).
  destruct (update Table.libm 0 heavy_beside_mercury) as [s|e] eqn:Hs;
    [|discriminate Hradius].
  injection Hradius as Hradius.
  exists s. split; [reflexivity|].
  assert (reachable Table.libm Table.gl s) as Hr.
  { exact (reachable_update _ _ _ _ _ heavy_beside_mercury_reachable Hs). }
  split; [exact Hr|]. split; [exact Hradius|].
  destruct (reachable_planets_keep_their_bodies Table.libm Table.gl _ _ Hinit Hr)
    as (Hsun & Hlen & _).
  split; [exact Hsun | exact Hlen].
Defined.

(** ** The grid in closed form *)

Section GridFacts.
Context (L : Libm) (size : Z) (spacing x z mass : float).
Context (c : nat → nat → float).

Lemma dent_row_0 i row : dent_row c i 0 row = row.
Proof.
  apply list_eq. intros j. unfold dent_row. rewrite list_lookup_imap.
  now destruct (row !! j).
Qed.

Lemma dent_row_next i k row old :
  row !! k = Some old → dent_row c i k row !! k = Some old.
Proof.
  intros Hk. unfold dent_row. now rewrite list_lookup_imap, Hk, Nat.ltb_irrefl.
Qed.

Lemma dent_row_S i k row old :
  row !! k = Some old →
  <[k := old + c i k]> (dent_row c i k row) = dent_row c i (S k) row.
Proof.
  intros Hk. apply list_eq. intros j. unfold dent_row.
  rewrite list_lookup_imap. destruct (decide (k = j)) as [<-|Hne].
  - rewrite list_lookup_insert_eq
      by (rewrite length_imap; eauto using lookup_lt_Some).
    rewrite Hk, (proj2 (Nat.ltb_lt k (S k))) by lia. done.
  - rewrite list_lookup_insert_ne, list_lookup_imap by done.
    destruct (Nat.ltb_spec j k), (Nat.ltb_spec j (S k)); try done; lia.
Qed.

Lemma dent_row_all i n row :
  length row = n → dent_row c i n row = imap (λ j old, old + c i j) row.
Proof.
  intros Hlen. apply list_eq. intros j. unfold dent_row.
  rewrite !list_lookup_imap. destruct (row !! j) eqn:Hj; [|done].
  apply lookup_lt_Some in Hj. now rewrite (proj2 (Nat.ltb_lt j n)) by lia.
Qed.

Lemma dent_rows_0 n g : dent_rows c n 0 g = g.
Proof.
  apply list_eq. intros j. unfold dent_rows. rewrite list_lookup_imap.
  now destruct (g !! j).
Qed.

Lemma dent_rows_S n k g row :
  g !! k = Some row →
  <[k := dent_row c k n row]> (dent_rows c n k g) = dent_rows c n (S k) g.
Proof.
  intros Hk. apply list_eq. intros j. unfold dent_rows.
  rewrite list_lookup_imap. destruct (decide (k = j)) as [<-|Hne].
  - rewrite list_lookup_insert_eq
      by (rewrite length_imap; eauto using lookup_lt_Some).
    rewrite Hk, (proj2 (Nat.ltb_lt k (S k))) by lia. done.
  - rewrite list_lookup_insert_ne, list_lookup_imap by done.
    destruct (Nat.ltb_spec j k), (Nat.ltb_spec j (S k)); try done; lia.
Qed.

Lemma dent_rows_all n g :
  square (Z.of_nat n) g → dent_rows c n n g = dented c g.
Proof.
  intros [Hlen Hrows]. rewrite Nat2Z.id in Hlen, Hrows.
  apply list_eq. intros i. unfold dent_rows, dented.
  rewrite !list_lookup_imap. destruct (g !! i) as [row|] eqn:Hi; [|done].
  pose proof (lookup_lt_Some _ _ _ Hi).
  rewrite (proj2 (Nat.ltb_lt i n)) by lia. cbn. f_equal.
  apply dent_row_all. eapply (proj1 (Forall_forall _ _) Hrows).
  eauto using list_elem_of_lookup_2.
Qed.

Context (n : nat) (Hsize : size = Z.of_nat n).
Context (Hc : ∀ i j, (i < n)%nat → (j < n)%nat →
                curvature_at L size spacing x z mass (Z.of_nat i) (Z.of_nat j)
                = Ok (c i j)).

Lemma inner_loop i k g row :
  (i < n)%nat → (k ≤ n)%nat → g !! i = Some row → length row = n →
  for_each (λ g j,
      curvature ← curvature_at L size spacing x z mass (Z.of_nat i) j;
      grid_add (Z.to_nat (Z.of_nat i)) (Z.to_nat j) curvature g)
    g (seqZ 0 (Z.of_nat k))
  = Ok (<[i := dent_row c i k row]> g).
Proof using Hc.
  intros Hi Hk Hrow Hlen. induction k as [|k IH].
  - cbn. rewrite dent_row_0. now rewrite list_insert_id.
  - rewrite seqZ_S, for_each_app, IH by lia. cbn [for_each mbind result_bind].
    rewrite Z.add_0_l, Hc by lia. cbn [mbind result_bind].
    rewrite !Nat2Z.id. unfold grid_add, index.
    rewrite list_lookup_insert_eq by eauto using lookup_lt_Some.
    cbn [mbind result_bind].
    destruct (lookup_lt_is_Some_2 row k) as [old Hold]; [lia|].
    rewrite (dent_row_next _ _ _ _ Hold). cbn [mbind result_bind].
    now rewrite list_insert_insert_eq, (dent_row_S _ _ _ _ Hold).
Qed.

Lemma outer_loop k g :
  (k ≤ n)%nat → square size g →
  for_each (λ g i,
      for_each (λ g j,
          curvature ← curvature_at L size spacing x z mass i j;
          grid_add (Z.to_nat i) (Z.to_nat j) curvature g)
        g (range size))
    g (seqZ 0 (Z.of_nat k))
  = Ok (dent_rows c n k g).
Proof using Hc Hsize.
  intros Hk [Hlen Hrows]. rewrite Hsize, Nat2Z.id in Hlen, Hrows.
  induction k as [|k IH].
  - cbn. now rewrite dent_rows_0.
  - rewrite seqZ_S, for_each_app, IH by lia. cbn [for_each mbind result_bind].
    rewrite Z.add_0_l. unfold range.
    replace (seqZ 0 size) with (seqZ 0 (Z.of_nat n)) by now rewrite Hsize.
    destruct (lookup_lt_is_Some_2 g k) as [row Hrow]; [lia|].
    assert (length row = n) as Hrowlen.
    { eapply (proj1 (Forall_forall _ _) Hrows). eauto using list_elem_of_lookup_2. }
    rewrite (inner_loop k n (dent_rows c n k g) row); [|lia|lia| |done].
    + cbn. now rewrite (dent_rows_S _ _ _ _ Hrow).
    + unfold dent_rows. now rewrite list_lookup_imap, Hrow, Nat.ltb_irrefl.
Qed.

Lemma add_mass_to_grid_dented g :
  square size g →
  _add_mass_to_grid L size spacing x z mass g = Ok (dented c g).
Proof using Hc Hsize.
  intros Hsq. unfold _add_mass_to_grid.
  pose proof (outer_loop n g (le_n _) Hsq) as Hloop.
  rewrite <- Hsize in Hloop. fold (range size) in Hloop. rewrite Hloop. f_equal.
  apply dent_rows_all. now rewrite <- Hsize.
Qed.

End GridFacts.

Lemma dented_cell c g i j :
  cell (dented c g) i j = (λ old, old + c i j) <$> cell g i j.
Proof.
  unfold cell, dented. rewrite list_lookup_imap.
  destruct (g !! i) as [row|]; cbn; [|done]. now rewrite list_lookup_imap.
Qed.

(** X8.  On a grid of [size] rows of [size] heights, when the curvature
    of the body is computable at every sample point, [_add_mass_to_grid]
    returns, and the grid it returns is the grid it was given with the
    curvature at the sample point [(i, j)] added to the height of row [i]
    and column [j]: no index is out of range and every height is touched
    once. *)
Theorem add_mass_to_grid_adds_the_curvature (L : Libm) (size : Z)
    (spacing x z mass : float) (c : nat → nat → float) (g : list (list float)) :
  (0 ≤ size)%Z → square size g →
  (∀ i j, (i < Z.to_nat size)%nat → (j < Z.to_nat size)%nat →
     curvature_at L size spacing x z mass (Z.of_nat i) (Z.of_nat j)
     = Ok (c i j)) →
  _add_mass_to_grid L size spacing x z mass g = Ok (dented c g)
  ∧ square size (dented c g)
  ∧ ∀ i j, cell (dented c g) i j = (λ old, old + c i j) <$> cell g i j.
Proof.
  intros Hsize Hsq Hc.
  pose proof (add_mass_to_grid_dented L size spacing x z mass c (Z.to_nat size)
                ltac:(lia) Hc g Hsq) as Hrun.
  split; [exact Hrun|]. split; [|apply dented_cell].
  apply square_shape. rewrite (add_mass_to_grid_shape _ _ _ _ _ _ _ _ Hrun).
  now apply square_shape.
Qed.

Lemma below_forallb (P : nat → bool) n :
  forallb P (seq 0 n) = true → ∀ i, (i < n)%nat → P i = true.
Proof.
  intros H i Hi. eapply (proj1 (forallb_forall _ _) H).
  apply in_seq. lia.
Qed.

Lemma add_mass_to_grid_adds_the_curvature_witness :
  let g := grid_heights Table.startup in
  let c i j :=
    match curvature_at Table.libm 80 0.6 3 4 5 (Z.of_nat i) (Z.of_nat j) with
    | Ok curvature => curvature
    | Raise _ => 0
    end in
  square 80 g
  ∧ cell g 45 47 = Some 0
  ∧ c 45%nat 47%nat = -249.99999999999957
  ∧ _add_mass_to_grid Table.libm 80 0.6 3 4 5 g = Ok (dented c g)
  ∧ cell (dented c g) 45 47 = Some (0 + -249.99999999999957).
Proof.
  cbv zeta.
  assert (square 80 (grid_heights Table.startup)) as Hsq.
  { apply square_shape. vm_compute. reflexivity. }
  assert (cell (grid_heights Table.startup) 45 47 = Some 0) as Hcell
    by (vm_compute; reflexivity).
  assert (match curvature_at Table.libm 80 0.6 3 4 5 (Z.of_nat 45) (Z.of_nat 47)
          with Ok curvature => curvature | Raise _ => 0 end
          = -249.99999999999957) as Hc by (vm_compute; reflexivity).
  split; [exact Hsq|]. split; [exact Hcell|]. split; [exact Hc|].
  destruct (add_mass_to_grid_adds_the_curvature Table.libm 80 0.6 3 4 5
              (λ i j,
                 match curvature_at Table.libm 80 0.6 3 4 5 (Z.of_nat i)
                         (Z.of_nat j)
                 with Ok curvature => curvature | Raise _ => 0 end)
              (grid_heights Table.startup)) as (Hrun & _ & Hcells);
    [lia | exact Hsq | |].
  - intros i j Hi Hj.
    assert (forallb (λ i, forallb (λ j,
              match curvature_at Table.libm 80 0.6 3 4 5 (Z.of_nat i) (Z.of_nat j)
              with Ok _ => true | Raise _ => false end) (seq 0 80)) (seq 0 80)
            = true) as Hall by (vm_compute; reflexivity).
    pose proof (below_forallb _ _ (below_forallb _ _ Hall i Hi) j Hj) as Hij.
    cbn beta in Hij.
    destruct (curvature_at Table.libm 80 0.6 3 4 5 (Z.of_nat i) (Z.of_nat j));
      [reflexivity | discriminate Hij].
  - split; [exact Hrun|]. rewrite Hcells, Hcell. vm_compute. reflexivity.
Defined.

(** X9.  [update_spacetime_grid] is idempotent: called again on the
    state it returned, it returns that state.  The heights of the last
    frame do not add up with those of this one. *)
Theorem update_spacetime_grid_idempotent (L : Libm) (s s' : Sim) :
  update_spacetime_grid L s = Ok s' → update_spacetime_grid L s' = Ok s'.
Proof.
  intros Hs. destruct (update_spacetime_grid_shape L s s' Hs) as (g & -> & Hshape).
  pose proof (update_spacetime_grid_stateless L s g Hshape) as Hsame.
  rewrite Hs in Hsame.
  destruct (update_spacetime_grid L (set_grid_heights g s)) as [s''|e] eqn:Hs'';
    [|discriminate Hsame].
  injection Hsame as Hg.
  apply update_spacetime_grid_shape in Hs'' as (g'' & -> & _).
  cbn in Hg. now subst g''.
Qed.

Lemma update_spacetime_grid_idempotent_witness :
  ∃ s', update_spacetime_grid Table.libm Table.two_apart = Ok s'
    ∧ cell (grid_heights Table.two_apart) 40 40 = Some 0
    ∧ cell (grid_heights s') 40 40 = Some (-800.6922656963086)
    ∧ update_spacetime_grid Table.libm s' = Ok s'.
Proof.
  assert ((λ s', cell (grid_heights s') 40 40)
            <$> update_spacetime_grid Table.libm Table.two_apart
          = Ok (Some (-800.6922656963086))) as Hcell
    by (vm_compute; reflexivity).
  destruct (update_spacetime_grid Table.libm Table.two_apart) as [s'|e] eqn:Hs;
    [|discriminate Hcell].
  injection Hcell as Hcell.
  exists s'. split; [reflexivity|]. split; [vm_compute; reflexivity|].
  split; [exact Hcell|].
  exact (update_spacetime_grid_idempotent Table.libm _ _ Hs).
Defined.

(** ** The solver, the keys and the mouse *)

(** X10.  A physics step that returns changes the store of custom masses
    and the planets and nothing else of the simulation.  A mass that is
    not in the list is not touched, and a mass keeps its mass, radius,
    colour and selection flag and the y components of its position and
    velocity. *)
Theorem apply_gravitational_forces_moves_masses_only (L : Libm) (dt : float)
    (s s' : Sim) :
  apply_gravitational_forces L dt s = Ok s' →
  (∃ h ps, s' = set_planets ps (set_objs h s))
  ∧ (∀ r, r ∉ custom_masses s → objs s' !!! r = objs s !!! r)
  ∧ (∀ r,
       let m := objs s !!! r in
       let m' := objs s' !!! r in
       CustomMass.mass m' = CustomMass.mass m
       ∧ CustomMass.radius m' = CustomMass.radius m
       ∧ CustomMass.color m' = CustomMass.color m
       ∧ CustomMass.is_selected m' = CustomMass.is_selected m
       ∧ v_1 (CustomMass.position m') = v_1 (CustomMass.position m)
       ∧ v_1 (CustomMass.velocity m') = v_1 (CustomMass.velocity m)).
Proof.
  intros (h & ps & -> & Hmoved & _ & Hframe & _)%apply_gravitational_forces_frame.
  split; [eauto|]. split; [exact Hframe|].
  intros r. destruct (Hmoved r) as (? & ? & ? & ? & ? & ? & _). done.
Qed.

Lemma apply_gravitational_forces_moves_masses_only_witness :
  ∃ s', apply_gravitational_forces Table.libm 0.016 Table.two_apart = Ok s'
    ∧ custom_masses s' = [0%nat; 1%nat]
    ∧ CustomMass.position (objs Table.two_apart !!! 0%nat) = Vec3 3 0 4
    ∧ CustomMass.position (objs s' !!! 0%nat)
      = Vec3 2.999982865152 0 3.999934529536
    ∧ CustomMass.mass (objs s' !!! 0%nat)
      = CustomMass.mass (objs Table.two_apart !!! 0%nat).
Proof.
  assert ((λ s', (custom_masses s', CustomMass.position (objs s' !!! 0%nat)))
            <$> apply_gravitational_forces Table.libm 0.016 Table.two_apart
          = Ok ([0%nat; 1%nat], Vec3 2.999982865152 0 3.999934529536))
    as Hrun by (vm_compute; reflexivity).
  destruct (apply_gravitational_forces Table.libm 0.016 Table.two_apart)
    as [s'|e] eqn:Hs; [|discriminate Hrun].
  injection Hrun as Hl Hp.
  exists s'. split; [reflexivity|]. split; [exact Hl|].
  split; [vm_compute; reflexivity|]. split; [exact Hp|].
  destruct (apply_gravitational_forces_moves_masses_only Table.libm 0.016 _ _ Hs)
    as (_ & _ & Hkeep).
  exact (proj1 (Hkeep 0%nat)).
Defined.

Lemma integrate_zero_mass dt m force :
  (CustomMass.mass m =? 0) = true →
  integrate dt m force = Raise ZeroDivisionError.
Proof.
  intros Hm. destruct force as [fx fz]. unfold integrate, Py.div.
  now rewrite Hm.
Qed.

Lemma move_loop_zero_mass L ps masses dt n l h r :
  r ∈ l → (CustomMass.mass (h !!! r) =? 0) = true →
  ∃ e, for_each (move_mass L ps masses dt) h (enumerate_from n l) = Raise e.
Proof.
  revert n h. induction l as [|r1 l IH]; intros n h Hr Hm.
  { by apply elem_of_nil in Hr. }
  cbn [for_each enumerate_from].
  destruct (move_mass L ps masses dt h (n, r1)) as [h1|e] eqn:Hturn; cbn; [|eauto].
  apply elem_of_cons in Hr as [->|Hr].
  - apply move_mass_Ok in Hturn as (force & pos & vel & _ & Hint & _).
    now rewrite integrate_zero_mass in Hint.
  - apply IH; [done|].
    destruct (move_mass_moved_only L _ _ _ _ _ _ _ r Hturn) as (-> & _). done.
Qed.

(** X11.  With physics on, a custom mass of mass zero in the list makes
    the step raise: the solver divides the force on it by its mass. *)
Theorem a_mass_of_zero_stops_the_solver (L : Libm) (dt : float) (s : Sim)
    (r : ref) :
  physics_enabled s = true → r ∈ custom_masses s →
  (CustomMass.mass (objs s !!! r) =? 0) = true →
  ∃ e, apply_gravitational_forces L dt s = Raise e.
Proof.
  intros Hon Hr Hm. unfold apply_gravitational_forces. rewrite Hon. cbn [negb].
  destruct (move_loop_zero_mass L (planets s) (custom_masses s) dt 0
              (custom_masses s) (objs s) r Hr Hm) as [e He].
  unfold enumerate. rewrite He. cbn. eauto.
Qed.

Lemma a_mass_of_zero_stops_the_solver_witness :
  physics_enabled with_massless_body = true
  ∧ 0%nat ∈ custom_masses with_massless_body
  ∧ (CustomMass.mass (objs with_massless_body !!! 0%nat) =? 0) = true
  ∧ apply_gravitational_forces Table.libm 0.016 with_massless_body
    = Raise ZeroDivisionError
  ∧ ∃ e, apply_gravitational_forces Table.libm 0.016 with_massless_body = Raise e.
Proof.
  assert (0%nat ∈ custom_masses with_massless_body) as Hr by float_elem.
  split; [vm_compute; reflexivity|]. split; [exact Hr|].
  split; [vm_compute; reflexivity|]. split; [vm_compute; reflexivity|].
  apply (a_mass_of_zero_stops_the_solver Table.libm 0.016 with_massless_body 0%nat);
    [vm_compute; reflexivity | exact Hr | vm_compute; reflexivity].
Defined.

(** X12.  [handle_input] handles a queue of events by handling a first
    part of it and then, unless that part asked to quit, the rest from the
    state the first part left.  A QUIT event or the escape key returns
    [False] at once: the events behind it are not handled, and the state
    is the one the events before it left. *)
Theorem handle_input_handles_events_in_turn (L : Libm) (gl : GLContext)
    (events events' : list event) (s : Sim) :
  handle_input L gl (events ++ events') s =
    ('(running, s1) ← handle_input L gl events s;
     if running : bool then handle_input L gl events' s1 else Ok (false, s1))
  ∧ handle_input L gl (QUIT :: events') s = Ok (false, s)
  ∧ handle_input L gl (KEYDOWN K_ESCAPE :: events') s = Ok (false, s).
Proof.
  split; [|done]. revert s. induction events as [|ev events IH]; intros s; cbn.
  - done.
  - destruct (handle_event L gl ev s) as [[s1|]|e]; cbn; [apply IH | done..].
Qed.

(** X13.  The space, M, T and P keys are toggles: one press changes the
    state, a second press restores it exactly. *)
Theorem toggle_keys_are_involutions k (s : Sim) :
  k ∈ [K_SPACE; K_m; K_t; K_p] →
  ∃ s1, handle_keydown k s = Ok (Some s1) ∧ s1 ≠ s
        ∧ handle_keydown k s1 = Ok (Some s).
Proof.
  intros Hk. elem_cases Hk.
  - exists (set_paused (negb (paused s)) s). split; [cbn; reflexivity|]. split.
    + intros H. apply (f_equal paused) in H. cbn in H. by destruct (paused s).
    + destruct s. cbn. now rewrite negb_involutive.
  - exists (set_spawn_mode (negb (spawn_mode s)) s). split; [cbn; reflexivity|]. split.
    + intros H. apply (f_equal spawn_mode) in H. cbn in H. by destruct (spawn_mode s).
    + destruct s. cbn. now rewrite negb_involutive.
  - exists (set_show_trails (negb (show_trails s)) s). split; [cbn; reflexivity|]. split.
    + intros H. apply (f_equal show_trails) in H. cbn in H. by destruct (show_trails s).
    + destruct s. cbn. now rewrite negb_involutive.
  - exists (set_physics_enabled (negb (physics_enabled s)) s).
    split; [cbn; reflexivity|]. split.
    + intros H. apply (f_equal physics_enabled) in H. cbn in H. by destruct (physics_enabled s).
    + destruct s. cbn. now rewrite negb_involutive.
Qed.

Lemma toggle_keys_are_involutions_witness :
  K_p ∈ [K_SPACE; K_m; K_t; K_p]
  ∧ ∃ s1, handle_keydown K_p Table.startup = Ok (Some s1)
      ∧ physics_enabled s1 = false
      ∧ handle_keydown K_p s1 = Ok (Some Table.startup).
Proof.
  assert (K_p ∈ [K_SPACE; K_m; K_t; K_p]) as Hk
    by (do 3 apply list_elem_of_further; apply list_elem_of_here).
  split; [exact Hk|].
  destruct (toggle_keys_are_involutions K_p Table.startup Hk)
    as (s1 & H1 & _ & H2).
  exists s1. split; [exact H1|]. split; [|exact H2].
  cbn in H1. injection H1 as <-. vm_compute. reflexivity.
Defined.

Ltac float_case := vm_compute; first [reflexivity | discriminate].

Lemma faster_then_slower ts :
  ts ∈ speeds → (ts <? 5) = true → Py.max 0.5 (Py.min 5.0 (ts + 0.5) - 0.5) = ts.
Proof. intros H. unfold speeds in H. elem_cases H; float_case. Qed.

Lemma slower_then_faster ts :
  ts ∈ speeds → (0.5 <? ts) = true → Py.min 5.0 (Py.max 0.5 (ts - 0.5) + 0.5) = ts.
Proof. intros H. unfold speeds in H. elem_cases H; float_case. Qed.

Lemma nearer_then_farther d :
  d ∈ zoom_levels → (10 <? d) = true → Py.min 100 (Py.max 10 (d - 2) + 2) = d.
Proof. intros H. vm_compute in H. elem_cases H; float_case. Qed.

Lemma farther_then_nearer d :
  d ∈ zoom_levels → (d <? 100) = true → Py.max 10 (Py.min 100 (d + 2) - 2) = d.
Proof. intros H. vm_compute in H. elem_cases H; float_case. Qed.

(** X14.  In a reachable state, F then S, S then F, plus then minus and
    minus then plus each restore the state, provided the first of the two
    keys is not stopped by its limit (a time scale below 5.0, above 0.5, a
    camera distance above 10, below 100). *)
Theorem speed_and_zoom_keys_undo_each_other (L : Libm) (gl : GLContext) (s : Sim) :
  reachable L gl s →
  ((time_speed s <? 5) = true →
     handle_input L gl [KEYDOWN K_f; KEYDOWN K_s] s = Ok (true, s))
  ∧ ((0.5 <? time_speed s) = true →
     handle_input L gl [KEYDOWN K_s; KEYDOWN K_f] s = Ok (true, s))
  ∧ ((10 <? camera_distance s) = true →
     handle_input L gl [KEYDOWN K_PLUS; KEYDOWN K_MINUS] s = Ok (true, s))
  ∧ ((camera_distance s <? 100) = true →
     handle_input L gl [KEYDOWN K_MINUS; KEYDOWN K_PLUS] s = Ok (true, s)).
Proof.
  intros (_ & _ & (Hts & Hd & _) & _)%reachable_invariant.
  split; [|split; [|split]]; intros Hlt; cbn; do 2 f_equal.
  - rewrite faster_then_slower by done. by destruct s.
  - rewrite slower_then_faster by done. by destruct s.
  - rewrite nearer_then_farther by done. by destruct s.
  - rewrite farther_then_nearer by done. by destruct s.
Qed.

Lemma speed_and_zoom_keys_undo_each_other_witness :
  reachable Table.libm Table.gl Table.startup
  ∧ time_speed Table.startup = 1 ∧ camera_distance Table.startup = 50
  ∧ handle_input Table.libm Table.gl [KEYDOWN K_f; KEYDOWN K_s] Table.startup
    = Ok (true, Table.startup)
  ∧ handle_input Table.libm Table.gl [KEYDOWN K_MINUS; KEYDOWN K_PLUS]
      Table.startup = Ok (true, Table.startup).
Proof.
  assert (reachable Table.libm Table.gl Table.startup) as Hr.
  { apply reachable_init. vm_compute. reflexivity. }
  split; [exact Hr|]. split; [vm_compute; reflexivity|].
  split; [vm_compute; reflexivity|].
  destruct (speed_and_zoom_keys_undo_each_other Table.libm Table.gl _ Hr)
    as (Hfs & _ & _ & Hmp).
  split; [apply Hfs | apply Hmp]; vm_compute; reflexivity.
Defined.

Lemma filter_others (x : ref) (xs : list ref) : x ∉ xs → filter (λ y, y ≠ x) xs = xs.
Proof.
  induction xs as [|y xs IH]; [done|]. intros [Hne Hx]%not_elem_of_cons.
  rewrite filter_cons_True by congruence. now rewrite IH.
Qed.

Lemma list_remove_filter x xs :
  NoDup xs → x ∈ xs → list_remove x xs = Ok (filter (λ y, y ≠ x) xs).
Proof.
  induction xs as [|y xs IH]; intros Hnd Hx; [by apply elem_of_nil in Hx|].
  apply NoDup_cons in Hnd as [Hy Hnd]. cbn [list_remove].
  destruct (decide (y = x)) as [->|Hne].
  - rewrite filter_cons_False by (intros H; apply H; reflexivity).
    now rewrite filter_others.
  - rewrite filter_cons_True by done.
    apply elem_of_cons in Hx as [->|Hx]; [done|]. now rewrite IH.
Qed.

(** X15.  In a reachable state with a selected mass: if the mass is in
    the list, the delete key returns, removes that mass and no other (the
    others keep their order), clears the selection and changes nothing
    else; if the mass is no longer in the list, as after the clear-all
    key, the delete key raises [ValueError]. *)
Theorem delete_removes_the_selected_mass_only (L : Libm) (gl : GLContext)
    (s : Sim) (r : ref) :
  reachable L gl s → selected_mass s = Some r →
  (r ∈ custom_masses s →
     ∃ s', handle_keydown K_DELETE s = Ok (Some s')
       ∧ custom_masses s' = filter (λ r', r' ≠ r) (custom_masses s)
       ∧ S (length (custom_masses s')) = length (custom_masses s)
       ∧ selected_mass s' = None
       ∧ s' = set_selected_mass None (set_custom_masses (custom_masses s') s))
  ∧ (r ∉ custom_masses s → handle_keydown K_DELETE s = Raise ValueError).
Proof.
  intros ((Hnd & _) & _)%reachable_invariant Hsel. cbn. rewrite Hsel. split.
  - intros Hr. rewrite (list_remove_filter _ _ Hnd Hr). cbn.
    eexists. split; [reflexivity|]. cbn. split; [done|]. split; [|done].
    destruct (proj1 (list_remove_Ok_split _ _ _) (list_remove_filter _ _ Hnd Hr))
      as (l1 & l2 & Hl & _ & ->).
    rewrite Hl, !length_app. cbn. lia.
  - intros Hr. now rewrite (proj2 (list_remove_Raise r _ ValueError) (conj eq_refl Hr)).
Qed.

Lemma second_selected_reachable : reachable Table.libm Table.gl second_selected.
Proof.
  apply (after_reachable
           [KEYDOWN K_m; MOUSEBUTTONDOWN 1 (300, 400)%Z;
            MOUSEBUTTONDOWN 1 (500, 400)%Z; KEYDOWN K_m;
            MOUSEBUTTONDOWN 1 (500, 400)%Z]).
  vm_compute. reflexivity.
Qed.

Lemma delete_removes_the_selected_mass_only_witness :
  reachable Table.libm Table.gl second_selected
  ∧ custom_masses second_selected = [0%nat; 1%nat]
  ∧ selected_mass second_selected = Some 1%nat
  ∧ ∃ s', handle_keydown K_DELETE second_selected = Ok (Some s')
      ∧ custom_masses s' = [0%nat] ∧ selected_mass s' = None.
Proof.
  assert (selected_mass second_selected = Some 1%nat) as Hsel
    by (vm_compute; reflexivity).
  split; [exact second_selected_reachable|]. split; [vm_compute; reflexivity|].
  split; [exact Hsel|].
  destruct (delete_removes_the_selected_mass_only Table.libm Table.gl _ _
              second_selected_reachable Hsel) as [Hin _].
  destruct Hin as (s' & Hdel & Hl & _ & Hnone & _); [float_elem|].
  exists s'. split; [exact Hdel|]. split; [|exact Hnone].
  rewrite Hl. vm_compute. reflexivity.
Defined.

(** X16.  In a reachable state, when the cube root of the spawn mass is
    computable, [spawn_custom_mass] returns: a new mass, which was not in
    the list and is not the selected one, is appended at the end of the
    list, at [(x, 0.0, z)], at rest, unselected, with an empty trail, the
    current spawn mass and the colour of the palette at the index the
    length of the list modulo 5; no other object changes, and nothing
    else of the simulation. *)
Theorem spawn_custom_mass_appends_a_mass_at_rest (L : Libm) (gl : GLContext)
    (x z p : float) (s : Sim) :
  reachable L gl s → float_pow L (spawn_mass s) (1 / 3) = Ok p →
  ∃ s' r color,
    spawn_custom_mass L x z s = Ok s'
    ∧ colors !! (length (custom_masses s) `mod` 5)%nat = Some color
    ∧ (r ∉ custom_masses s) ∧ selected_mass s ≠ Some r
    ∧ custom_masses s' = custom_masses s ++ [r]
    ∧ (objs s' !!! r)
      = CustomMass.mk (Vec3 x 0 z) (spawn_mass s) (p * 0.5) color (Vec3 0 0 0)
          false []
    ∧ (∀ r', r' ≠ r → objs s' !!! r' = objs s !!! r')
    ∧ s' = set_custom_masses (custom_masses s') (set_objs (objs s') s).
Proof.
  intros ((_ & Hdom & Hsel) & _)%reachable_invariant Hp.
  unfold spawn_custom_mass, new_mass, index. rewrite Hp.
  destruct (lookup_lt_is_Some_2 colors (length (custom_masses s) `mod` length colors))
    as [color Hcolor].
  { apply Nat.mod_upper_bound. done. }
  rewrite Hcolor. cbn [mbind result_bind].
  pose proof (is_fresh (dom (objs s))) as Hfresh.
  eexists _, (fresh (dom (objs s))), color. split; [reflexivity|].
  split; [exact Hcolor|]. split; [eauto|]. split; [eauto|]. cbn.
  split; [done|]. split; [apply lookup_total_insert_eq|]. split; [|done].
  intros r' Hr'. now rewrite lookup_total_insert_ne.
Qed.

Lemma spawn_custom_mass_appends_a_mass_at_rest_witness :
  reachable Table.libm Table.gl Table.two_apart
  ∧ custom_masses Table.two_apart = [0%nat; 1%nat]
  ∧ float_pow Table.libm (spawn_mass Table.two_apart) (1 / 3)
    = Ok 1.7099759466766968
  ∧ ∃ s', spawn_custom_mass Table.libm 1 2 Table.two_apart = Ok s'
      ∧ custom_masses s' = [0%nat; 1%nat; 2%nat]
      ∧ (objs s' !!! 2%nat)
        = CustomMass.mk (Vec3 1 0 2) 5 (1.7099759466766968 * 0.5)
            (Vec3 0.0 1.0 0.5) (Vec3 0 0 0) false [].
Proof.
  assert (reachable Table.libm Table.gl Table.two_apart) as Hs.
  { apply (after_reachable (Table.spawn_at [(300, 400)%Z; (500, 400)%Z])).
    vm_compute. reflexivity. }
  assert (float_pow Table.libm (spawn_mass Table.two_apart) (1 / 3)
          = Ok 1.7099759466766968) as Hp by (vm_compute; reflexivity).
  split; [exact Hs|]. split; [vm_compute; reflexivity|]. split; [exact Hp|].
  destruct (spawn_custom_mass_appends_a_mass_at_rest Table.libm Table.gl 1 2 _ _
              Hs Hp) as (s' & r & color & Hspawn & _).
  exists s'. split; [exact Hspawn|].
  vm_compute in Hspawn. injection Hspawn as <-.
  split; vm_compute; reflexivity.
Defined.

(** X17.  [math.sqrt(dx*dx + dz*dz)], the distance of lines 210, 234,
    244 and 280, never raises [ValueError]: for all floats, infinities
    and NaN included, the sum of the two squares is not below zero. *)
Theorem sqrt_of_a_sum_of_squares_never_raises (dx dz : float) :
  Py.math_sqrt (dx * dx + dz * dz) = Ok (sqrt (dx * dx + dz * dz)).
Proof. unfold Py.math_sqrt. now rewrite sum_of_squares_not_negative. Qed.

(** ** Drawing *)

Lemma gl_run_app st calls calls' :
  gl_run st (calls ++ calls') = gl_run st calls ≫= λ st', gl_run st' calls'.
Proof.
  unfold gl_run. rewrite foldl_app.
  destruct (foldl _ (Some st) calls) as [st'|]; [done|]. cbn.
  induction calls' as [|c calls' IH]; [done|]. cbn. exact IH.
Qed.

Lemma gl_run_cons st c calls :
  gl_run st (c :: calls) = gl_step st c ≫= λ st', gl_run st' calls.
Proof. apply (gl_run_app st [c] calls). Qed.

#[local] Arguments gl_run : simpl never.

Ltac gl_steps := repeat (rewrite gl_run_cons; cbn).

Lemma gl_neutral_app st calls calls' :
  gl_neutral st calls → gl_neutral st calls' → gl_neutral st (calls ++ calls').
Proof.
  unfold gl_neutral. intros H H'. rewrite gl_run_app, H. exact H'.
Qed.

Lemma gl_neutral_join st (css : list (list gl_call)) :
  Forall (gl_neutral st) css → gl_neutral st (mjoin css).
Proof.
  induction 1 as [|cs css Hcs _ IH]; [done|]. cbn.
  now apply gl_neutral_app.
Qed.

Lemma draw_each_Ok {A : Type} (body : A → result (list gl_call)) xs calls :
  draw_each body xs = Ok calls →
  ∃ css, calls = mjoin css ∧ Forall2 (λ x cs, body x = Ok cs) xs css.
Proof.
  unfold draw_each. intros (css & Hcss & ->)%fmap_Ok.
  eauto using mapM_result_Forall2.
Qed.

Lemma draw_each_neutral {A : Type} st (body : A → result (list gl_call)) xs calls :
  (∀ x cs, x ∈ xs → body x = Ok cs → gl_neutral st cs) →
  draw_each body xs = Ok calls → gl_neutral st calls.
Proof.
  intros Hbody (css & -> & Hcss)%draw_each_Ok. apply gl_neutral_join.
  induction Hcss as [|x cs xs css Hx _ IH]; constructor.
  - eapply Hbody; [left | done].
  - apply IH. intros ? ? ?. apply Hbody. now right.
Qed.

Lemma gl_run_vertices st calls :
  in_primitive st = true → Forall is_vertex calls → gl_neutral st calls.
Proof.
  intros Hst. induction 1 as [|c calls Hc _ IH]; [done|].
  unfold gl_neutral. rewrite gl_run_cons. unfold gl_step. rewrite Hst.
  destruct c; try done.
Qed.

(** Calls that are accepted have only vertices between a [glBegin] and
    its [glEnd]. *)
Lemma gl_run_between st calls st' :
  gl_run st calls = Some st' →
  Forall is_vertex (between_begin_and_end (in_primitive st) calls).
Proof.
  revert st. induction calls as [|c calls IH]; intros st; [constructor|].
  rewrite gl_run_cons.
  destruct (gl_step st c) as [st1|] eqn:Hstep; [|discriminate].
  cbn [mbind option_bind]. intros Hrun. specialize (IH st1 Hrun).
  destruct st as [l b d p q]. unfold gl_step, set_cap in Hstep.
  cbn [in_primitive lighting blend matrix_depth quadrics] in *.
  destruct p, c; try discriminate Hstep;
    repeat match type of Hstep with
           | context [match ?x with _ => _ end] =>
               destruct x; try discriminate Hstep
           end;
    injection Hstep as <-; cbn in IH |- *;
    first [exact IH | constructor; [exact I | exact IH]].
Qed.

Lemma draw_sphere_neutral st radius :
  in_primitive st = false → gl_neutral st (draw_sphere radius).
Proof. intros Hst. unfold gl_neutral. destruct st. cbn in *. now subst. Qed.

Section DrawingFacts.
Context (L : Libm).

Lemma draw_grid_cell_vertices s i j calls :
  draw_grid_cell s i j = Ok calls → Forall is_vertex calls ∧ length calls = 4%nat.
Proof.
  unfold draw_grid_cell. intros H. repeat (apply bind_Ok in H as (? & _ & H)).
  injection H as <-. split; [|done]. repeat constructor.
Qed.

Lemma draw_each_vertices {A : Type} (body : A → result (list gl_call)) xs calls :
  (∀ x cs, body x = Ok cs → Forall is_vertex cs) →
  draw_each body xs = Ok calls → Forall is_vertex calls.
Proof.
  intros Hbody (css & -> & Hcss)%draw_each_Ok. apply Forall_join.
  induction Hcss; constructor; eauto.
Qed.

Lemma draw_spacetime_grid_neutral st s calls :
  gl_lit st → draw_spacetime_grid s = Ok calls → gl_neutral st calls.
Proof.
  intros [Hl Hp]. unfold draw_spacetime_grid.
  intros (lines & Hlines & [= <-])%bind_Ok.
  assert (Forall is_vertex lines) as Hv.
  { eapply draw_each_vertices; [|exact Hlines]. intros i cs Hi. cbn in Hi.
    eapply draw_each_vertices; [|exact Hi]. intros j cs' Hj.
    now apply draw_grid_cell_vertices in Hj. }
  destruct st as [l b d p q]. cbn in Hl, Hp. subst.
  unfold gl_neutral. cbn [app]. gl_steps.
  rewrite gl_run_app, (gl_run_vertices (GLState false b d true q) _ eq_refl Hv).
  done.
Qed.

Lemma orbit_vertex_is_vertex planet i c :
  orbit_vertex L planet i = Ok c → is_vertex c.
Proof.
  unfold orbit_vertex. intros H. repeat (apply bind_Ok in H as (? & _ & H)).
  now injection H as <-.
Qed.

Lemma draw_orbits_neutral st s calls :
  gl_lit st → draw_orbits L s = Ok calls → gl_neutral st calls.
Proof.
  intros [Hl Hp]. unfold draw_orbits.
  intros (loops & Hloops & [= <-])%bind_Ok.
  destruct st as [l b d p q]. cbn in Hl, Hp. subst.
  unfold gl_neutral. cbn [app]. gl_steps.
  rewrite gl_run_app.
  assert (gl_run (GLState false b d false q) loops
          = Some (GLState false b d false q)) as ->; [|done].
  eapply draw_each_neutral; [|exact Hloops].
  intros planet cs _ (vs & Hvs & [= <-])%bind_Ok.
  unfold gl_neutral. cbn [app]. gl_steps. rewrite gl_run_app.
  rewrite (gl_run_vertices (GLState false b d true q) vs eq_refl); [done|].
  apply mapM_result_Forall2 in Hvs. clear -Hvs.
  induction Hvs; constructor; eauto using orbit_vertex_is_vertex.
Qed.

Lemma draw_planet_neutral st s ip calls :
  gl_lit st → blend st = false → draw_planet L s ip = Ok calls →
  gl_neutral st calls.
Proof.
  intros [Hl Hp] Hb. destruct ip as [i planet]. unfold draw_planet.
  intros (body & Hbody & [= <-])%bind_Ok.
  destruct st as [l b d p q]. cbn in Hl, Hp, Hb. subst.
  destruct (bool_decide (i = 0%nat)).
  - injection Hbody as <-. reflexivity.
  - apply bind_Ok in Hbody as (c & _ & Hbody).
    apply bind_Ok in Hbody as (sn & _ & [= <-]). reflexivity.
Qed.

Lemma draw_trail_neutral st mass :
  in_primitive st = false → gl_neutral st (draw_trail mass).
Proof.
  intros Hp. unfold draw_trail. destruct (_ <? _)%nat; [|done].
  destruct st as [l b d p q]. cbn in Hp. subst.
  unfold gl_neutral. cbn [app]. gl_steps. rewrite gl_run_app.
  rewrite (gl_run_vertices (GLState l b d true q) _ eq_refl); [done|].
  apply Forall_fmap, Forall_true. done.
Qed.

Lemma draw_mass_neutral st mass :
  gl_lit st → gl_neutral st (draw_mass mass).
Proof.
  intros [Hl Hp]. destruct st as [l b d p q]. cbn in Hl, Hp. subst.
  unfold draw_mass. destruct (CustomMass.is_selected mass); reflexivity.
Qed.

Lemma draw_custom_masses_neutral st s :
  gl_lit st → gl_neutral st (draw_custom_masses s).
Proof.
  intros [Hl Hp]. unfold draw_custom_masses.
  destruct st as [l b d p q]. cbn in Hl, Hp. subst.
  assert (gl_run (GLState false b d false q)
            (if show_trails s
             then glLineWidth 2.0
                  :: mjoin ((λ r, draw_trail (objs s !!! r)) <$> custom_masses s)
             else [])
          = Some (GLState false b d false q)) as Htrails.
  { destruct (show_trails s); [|done]. gl_steps.
    apply gl_neutral_join, Forall_fmap, Forall_true. intros r.
    now apply draw_trail_neutral. }
  unfold gl_neutral. cbn [app]. gl_steps. rewrite gl_run_app, Htrails. cbn.
  gl_steps.
  apply gl_neutral_join, Forall_fmap, Forall_true. intros r.
  now apply draw_mass_neutral.
Qed.

End DrawingFacts.

(** X18.  When [render] returns, the calls it made, issued in a state
    with lighting on, blending off and no [glBegin] open, are all accepted
    and leave that state as it was: every [glBegin] is closed by a
    [glEnd], every pushed matrix is popped, every quadric is deleted, and
    lighting is on and blending off again.  And the calls between a
    [glBegin] and its [glEnd] are all vertices. *)
Theorem render_leaves_opengl_as_it_found_it (L : Libm) (s : Sim)
    (calls : list gl_call) (st : gl_state) :
  render L s = Ok calls →
  lighting st = true → blend st = false → in_primitive st = false →
  gl_run st calls = Some st
  ∧ Forall is_vertex (between_begin_and_end false calls).
Proof.
  intros Hrender Hl Hb Hp.
  assert (gl_run st calls = Some st) as Hrun; [|split; [exact Hrun|]].
  2:{ rewrite <- Hp. exact (gl_run_between _ _ _ Hrun). }
  unfold render in Hrender.
  apply bind_Ok in Hrender as (grid & Hgrid & Hrender).
  apply bind_Ok in Hrender as (orbits & Horbits & Hrender).
  apply bind_Ok in Hrender as (bodies & Hbodies & [= <-]).
  assert (gl_lit st) as Hlit by done.
  change (gl_neutral st
            ([glClear; glLoadIdentity; glTranslatef 0 0 (- camera_distance s);
              glRotatef (camera_angle_x s) 1 0 0;
              glRotatef (camera_angle_y s) 0 1 0]
             ++ grid ++ orbits ++ bodies ++ draw_custom_masses s ++ [display_flip])).
  apply gl_neutral_app;
    [|apply gl_neutral_app;
      [|apply gl_neutral_app;
        [|apply gl_neutral_app; [|apply gl_neutral_app]]]].
  - destruct st as [l b d p q]. cbn in Hp. now subst.
  - eauto using draw_spacetime_grid_neutral.
  - eauto using draw_orbits_neutral.
  - eapply draw_each_neutral; [|exact Hbodies].
    intros ip cs _ Hip. eauto using draw_planet_neutral.
  - now apply draw_custom_masses_neutral.
  - destruct st as [l b d p q]. cbn in Hp. now subst.
Qed.

Lemma draw_each_total {A : Type} (body : A → result (list gl_call)) xs :
  (∀ x, x ∈ xs → ∃ cs, body x = Ok cs) → ∃ calls, draw_each body xs = Ok calls.
Proof.
  intros Hbody. unfold draw_each.
  destruct (mapM_result_total body xs Hbody) as [css ->]. cbn. eauto.
Qed.

Lemma square_lookup size g i j :
  square size g → (i < Z.to_nat size)%nat → (j < Z.to_nat size)%nat →
  ∃ row h, g !! i = Some row ∧ row !! j = Some h.
Proof.
  intros [Hlen Hrows] Hi Hj.
  destruct (lookup_lt_is_Some_2 g i) as [row Hrow]; [lia|].
  assert (length row = Z.to_nat size) as Hrowlen.
  { eapply (proj1 (Forall_forall _ _) Hrows). eauto using list_elem_of_lookup_2. }
  destruct (lookup_lt_is_Some_2 row j) as [h Hh]; [lia|]. eauto.
Qed.

Lemma draw_spacetime_grid_total s :
  square (grid_size s) (grid_heights s) →
  ∃ calls, draw_spacetime_grid s = Ok calls.
Proof.
  intros Hsq. unfold draw_spacetime_grid.
  destruct (draw_each_total
              (λ i, draw_each (draw_grid_cell s i) (range (grid_size s - 1)))
              (range (grid_size s - 1))) as [lines ->]; [|cbn; eauto].
  intros i [Hi0 Hi]%elem_of_seqZ. apply draw_each_total.
  intros j [Hj0 Hj]%elem_of_seqZ. unfold draw_grid_cell, index.
  destruct (square_lookup _ _ (Z.to_nat i) (Z.to_nat j) Hsq)
    as (row & here & Hrow & Hhere); [lia..|].
  destruct (square_lookup _ _ (Z.to_nat i) (Z.to_nat (j + 1)) Hsq)
    as (row1 & beside & Hrow1 & Hbeside); [lia..|].
  destruct (square_lookup _ _ (Z.to_nat (i + 1)) (Z.to_nat j) Hsq)
    as (row' & below & Hrow' & Hbelow); [lia..|].
  assert (row1 = row) as -> by congruence.
  rewrite Hrow, Hrow'. cbn. rewrite Hhere, Hbelow. cbn. rewrite Hbeside. cbn.
  eauto.
Qed.

Section RenderReturns.
Context (L : Libm).

Lemma draw_orbits_total s :
  (length (planets s) ≤ 1 ∨ Forall (trig_returns L) orbit_angles)%nat →
  ∃ calls, draw_orbits L s = Ok calls.
Proof.
  intros Htrig. unfold draw_orbits.
  destruct (draw_each_total
              (λ planet,
                 vertices ← mapM (orbit_vertex L planet) (range 100);
                 Ok ([glBegin GL_LINE_LOOP] ++ vertices ++ [glEnd]))
              (drop 1 (planets s))) as [loops ->]; [|cbn; eauto].
  intros planet Hplanet.
  destruct Htrig as [Hone|Htrig].
  { rewrite drop_ge in Hplanet by done. by apply elem_of_nil in Hplanet. }
  destruct (mapM_result_total (orbit_vertex L planet) (range 100)) as [vs ->];
    [|cbn; eauto].
  intros i Hi. unfold orbit_vertex.
  assert (trig_returns L (2.0 * Py.math_pi * Py.float_of_Z i / 100.0))
    as [[c ->] [sn ->]].
  { eapply (proj1 (Forall_forall _ _) Htrig). unfold orbit_angles.
    now apply (list_elem_of_fmap_2
                 (λ i, 2.0 * Py.math_pi * Py.float_of_Z i / 100.0)). }
  cbn. eauto.
Qed.

Lemma draw_planets_total s :
  Forall (trig_returns L) (Planet.current_angle <$> drop 1 (planets s)) →
  ∃ calls, draw_planets L s = Ok calls.
Proof.
  intros Htrig. unfold draw_planets. apply draw_each_total.
  intros [i planet] Hip. apply list_elem_of_lookup in Hip as [k Hk].
  apply enumerate_from_lookup in Hk as [-> Hk]. unfold draw_planet.
  destruct k as [|k]; [cbn; eauto|].
  assert (trig_returns L (Planet.current_angle planet)) as [[c ->] [sn ->]].
  { eapply (proj1 (Forall_forall _ _) Htrig).
    apply list_elem_of_fmap_2. apply list_elem_of_lookup. exists k.
    now rewrite lookup_drop. }
  cbn. eauto.
Qed.

Lemma render_total s :
  square (grid_size s) (grid_heights s) →
  Forall (trig_returns L)
    (orbit_angles ++ (Planet.current_angle <$> drop 1 (planets s))) →
  ∃ calls, render L s = Ok calls.
Proof.
  intros Hsq [Horbit Hplanets]%Forall_app. unfold render.
  destruct (draw_spacetime_grid_total s Hsq) as [grid ->].
  destruct (draw_orbits_total s (or_intror Horbit)) as [orbits ->].
  destruct (draw_planets_total s Hplanets) as [bodies ->]. cbn. eauto.
Qed.

End RenderReturns.

Lemma reachable_render_total (L : Libm)
    (gl : GLContext) (s : Sim) :
  reachable L gl s →
  Forall (trig_returns L)
    (orbit_angles ++ (Planet.current_angle <$> drop 1 (planets s))) →
  ∃ calls, render L s = Ok calls.
Proof.
  intros (_ & _ & _ & _ & _ & Hsize & _ & Hsq)%reachable_invariant Htrig.
  apply render_total; [|exact Htrig]. now rewrite Hsize.
Qed.

(** X19.  In a reachable state, if [math.cos] and [math.sin] return at
    the hundred angles of an orbit and at the angles of the planets other
    than the first, [render] returns: reading the grid never leaves its
    bounds. *)
Theorem render_returns_when_the_trigonometry_does (L : Libm) (gl : GLContext)
    (s : Sim) :
  reachable L gl s →
  Forall (trig_returns L)
    (orbit_angles ++ (Planet.current_angle <$> drop 1 (planets s))) →
  ∃ calls, render L s = Ok calls.
Proof.
  intros (_ & _ & _ & _ & _ & Hsize & _ & Hsq)%reachable_invariant Htrig.
  apply render_total; [|exact Htrig]. now rewrite Hsize.
Qed.

(** ** The main loop *)

Lemma frame_Ok L view rendered ms events s running s' :
  frame L view rendered ms events s = Ok (running, s') ↔
  ∃ s1 calls,
    handle_input L (view rendered) events s = Ok (running, s1)
    ∧ update L (Py.float_of_Z ms / 1000.0) s1 = Ok s'
    ∧ render L s' = Ok calls.
Proof.
  unfold frame. split.
  - intros ([running' s1] & Hin & (s2 & Hup & (calls & Hr & [= <- <-])%bind_Ok)%bind_Ok)%bind_Ok.
    eauto.
  - intros (s1 & calls & -> & Hup & Hr). cbn. rewrite Hup. cbn. now rewrite Hr.
Qed.

Lemma handle_input_invariant L gl events s running s' :
  handle_input L gl events s = Ok (running, s') →
  invariant L s → invariant L s'.
Proof.
  revert s. induction events as [|ev events IH]; intros s; cbn.
  - now intros [= _ <-].
  - intros (o & Hev & Hrest)%bind_Ok Hs. destruct o as [s1|].
    + eauto using handle_event_invariant.
    + now injection Hrest as _ <-.
Qed.

Lemma main_loop_invariant L view rendered frames s s' :
  invariant L s → main_loop L view rendered frames s = Ok s' → invariant L s'.
Proof.
  revert rendered s.
  induction frames as [|[ms events] frames IH]; intros rendered s Hs;
    cbn [main_loop].
  - now intros [= <-].
  - intros ([running s2] & Hframe & Hrest)%bind_Ok.
    apply frame_Ok in Hframe as (s1 & calls & Hin & Hup & _).
    assert (invariant L s2) as Hs2
      by eauto using handle_input_invariant, update_invariant.
    destruct running; [eauto | now injection Hrest as <-].
Qed.

(** X20.  The main loop keeps the invariant of the reachable states,
    whatever the frames and whatever OpenGL answers [screen_to_world]
    before the first [render] and after each one: in the state [run] ends
    in, no mass is listed twice and every reference has its object, the
    highlighted masses of the list are the selected one, the controls
    have the values the keys give them, every mass is as it was spawned
    with a trail of at most 101 points, the planets are those of startup
    but for their orbits, and the grid has 80 rows of 80 heights. *)
Theorem run_keeps_the_invariant (L : Libm)
    (view : option (float * float * float) → GLContext)
    (frames : list (Z * list event)) (s s' : Sim) :
  invariant L s → run L view frames s = Ok s' → invariant L s'.
Proof.
  intros Hs Hrun. unfold run in Hrun.
  eapply main_loop_invariant; [exact Hs | exact Hrun].
Qed.

Lemma trig_returnsb_Forall L xs :
  forallb (trig_returnsb L) xs = true → Forall (trig_returns L) xs.
Proof.
  induction xs as [|x xs IH]; cbn; [constructor|].
  intros [Hx Hxs]%andb_prop. constructor; [|auto].
  unfold trig_returnsb in Hx. unfold trig_returns.
  destruct (math_cos L x), (math_sin L x); try discriminate. eauto.
Qed.

Lemma Ok_fmap_inj {A B : Type} (f : A → B) a b : f <$> Ok a = Ok b → f a = b.
Proof. now intros [= <-]. Qed.

Lemma orbit_startup : init Orbit.libm = Ok Table.startup.
Proof. vm_compute. reflexivity. Qed.

(** The first frame of a session: a mass is spawned at [(3.0, 4.0)] and
    the clock has ticked 16 ms. *)
Lemma first_frame :
  ∃ s', update Orbit.libm 0.016 Table.one_mass = Ok s'
    ∧ reachable Orbit.libm Table.gl s'
    ∧ Forall (trig_returns Orbit.libm)
        (orbit_angles ++ (Planet.current_angle <$> drop 1 (planets s')))
    ∧ current_time s' = 0.016
    ∧ custom_masses s' = [0%nat]
    ∧ Planet.current_angle <$> planets s' !! 1%nat = Some 0.032
    ∧ ∃ calls, render Orbit.libm s' = Ok calls.
Proof.
  assert (reachable Orbit.libm Table.gl Table.one_mass) as Hstart.
  { apply (handle_input_reachable Orbit.libm Table.gl
             (Table.spawn_at [(300, 400)%Z]) Table.startup true).
    - vm_compute. reflexivity.
    - exact (reachable_init _ _ _ orbit_startup). }
  assert ((λ s, forallb (trig_returnsb Orbit.libm)
                  (orbit_angles
                   ++ (Planet.current_angle <$> drop 1 (planets s))))
            <$> update Orbit.libm 0.016 Table.one_mass
          = Ok true) as Htrig
    by (vm_compute; reflexivity).
  assert ((λ s, (current_time s, custom_masses s,
                 Planet.current_angle <$> planets s !! 1%nat))
            <$> update Orbit.libm 0.016 Table.one_mass
          = Ok (0.016, [0%nat], Some 0.032)) as Hfacts
    by (vm_compute; reflexivity).
  destruct (update Orbit.libm 0.016 Table.one_mass) as [s'|e] eqn:Hup;
    [|discriminate Hfacts].
  apply Ok_fmap_inj in Htrig. injection Hfacts as Htime Hmasses Hangle.
  apply trig_returnsb_Forall in Htrig.
  assert (reachable Orbit.libm Table.gl s') as Hs'
    by exact (reachable_update _ _ _ _ _ Hstart Hup).
  exists s'. split; [reflexivity|]. split; [exact Hs'|]. split; [exact Htrig|].
  split; [exact Htime|]. split; [exact Hmasses|]. split; [exact Hangle|].
  exact (reachable_render_total _ _ _ Hs' Htrig).
Qed.

(** The second frame of that session, from the state [s1] the first one
    left: the click on the pixel of the first frame now lands on
    [(6.0, 8.0)], since the camera of the first [render] is in force. *)
Lemma second_frame :
  ∃ s1 s2,
    update Orbit.libm 0.016 Table.one_mass = Ok s1
    ∧ camera s1 = (50, 30, 0)
    ∧ handle_input Orbit.libm (zooming_view (Some (camera s1)))
        [KEYDOWN K_SPACE; MOUSEBUTTONDOWN 1 (300, 400)%Z] s1 = Ok (true, s2)
    ∧ paused s2 = true
    ∧ custom_masses s2 = [0%nat; 1%nat]
    ∧ CustomMass.position (objs s2 !!! 1%nat) = Vec3 6 0 8
    ∧ Forall (trig_returns Orbit.libm)
        (orbit_angles ++ (Planet.current_angle <$> drop 1 (planets s2))).
Proof.
  assert ((λ s1, (camera s1,
                  (λ rs : bool * Sim,
                     (rs.1, paused rs.2, custom_masses rs.2,
                      CustomMass.position (objs rs.2 !!! 1%nat),
                      forallb (trig_returnsb Orbit.libm)
                        (Planet.current_angle <$> drop 1 (planets rs.2))))
                  <$> handle_input Orbit.libm (zooming_view (Some (camera s1)))
                        [KEYDOWN K_SPACE; MOUSEBUTTONDOWN 1 (300, 400)%Z] s1))
            <$> update Orbit.libm 0.016 Table.one_mass
          = Ok ((50, 30, 0), Ok (true, true, [0%nat; 1%nat], Vec3 6 0 8, true)))
    as Hfacts by (vm_compute; reflexivity).
  destruct (update Orbit.libm 0.016 Table.one_mass) as [s1|e] eqn:Hup;
    [|discriminate Hfacts].
  apply Ok_fmap_inj in Hfacts. apply pair_equal_spec in Hfacts as [Hcamera Hin].
  destruct (handle_input Orbit.libm (zooming_view (Some (camera s1)))
              [KEYDOWN K_SPACE; MOUSEBUTTONDOWN 1 (300, 400)%Z] s1)
    as [[running s2]|e] eqn:Hinput; [|discriminate Hin].
  apply Ok_fmap_inj in Hin. cbn [fst snd] in Hin.
  injection Hin as Hrunning Hpaused Hmasses Hpos Htrig.
  exists s1, s2. split; [reflexivity|]. split; [exact Hcamera|].
  split; [rewrite Hinput, Hrunning; reflexivity|]. split; [exact Hpaused|].
  split; [exact Hmasses|]. split; [exact Hpos|].
  apply Forall_app. split; [|exact (trig_returnsb_Forall _ _ Htrig)].
  destruct first_frame as (_ & _ & _ & [Horbit _]%Forall_app & _). exact Horbit.
Qed.

Lemma run_keeps_the_invariant_witness :
  ∃ s', run Orbit.libm zooming_view two_frames Table.startup = Ok s'
    ∧ invariant Orbit.libm s'
    ∧ paused s' = true
    ∧ custom_masses s' = [0%nat; 1%nat]
    ∧ CustomMass.position (objs Table.one_mass !!! 0%nat) = Vec3 3 0 4
    ∧ CustomMass.position (objs s' !!! 1%nat) = Vec3 6 0 8.
Proof.
  destruct second_frame
    as (s1 & s2 & Hup & Hcamera & Hin & Hpaused & Hmasses & Hpos & Htrig).
  assert (invariant Orbit.libm Table.startup) as Hstart
    by exact (init_invariant _ _ orbit_startup).
  assert (invariant Orbit.libm Table.one_mass) as Hone.
  { apply (handle_input_invariant Orbit.libm Table.gl
             (Table.spawn_at [(300, 400)%Z]) Table.startup true);
      [vm_compute; reflexivity | exact Hstart]. }
  assert (invariant Orbit.libm s1) as Hs1
    by exact (update_invariant _ _ _ _ Hup Hone).
  assert (invariant Orbit.libm s2) as Hs2
    by exact (handle_input_invariant _ _ _ _ _ _ Hin Hs1).
  assert (∃ calls, render Orbit.libm s1 = Ok calls) as [calls1 Hcalls1].
  { destruct first_frame as (s1' & Hup' & _ & _ & _ & _ & _ & Hrender).
    rewrite Hup in Hup'. injection Hup' as <-. exact Hrender. }
  assert (∃ calls, render Orbit.libm s2 = Ok calls) as [calls2 Hcalls2].
  { apply render_total; [|exact Htrig].
    destruct Hs2 as (_ & _ & _ & _ & _ & Hsize & _ & Hsq). now rewrite Hsize. }
  assert (run Orbit.libm zooming_view two_frames Table.startup = Ok s2) as Hrun.
  { assert (frame Orbit.libm zooming_view None 16
              (Table.spawn_at [(300, 400)%Z]) Table.startup = Ok (true, s1))
      as Hframe1.
    { apply frame_Ok. exists Table.one_mass, calls1.
      split; [vm_compute; reflexivity|]. split; [exact Hup | exact Hcalls1]. }
    assert (frame Orbit.libm zooming_view (Some (camera s1)) 16
              [KEYDOWN K_SPACE; MOUSEBUTTONDOWN 1 (300, 400)%Z] s1
            = Ok (true, s2)) as Hframe2.
    { apply frame_Ok. exists s2, calls2.
      split; [exact Hin|]. split; [|exact Hcalls2].
      unfold update. rewrite Hpaused. reflexivity. }
    unfold run, two_frames. cbn [main_loop]. rewrite Hframe1.
    cbn [mbind result_bind main_loop]. rewrite Hframe2. reflexivity. }
  exists s2. split; [exact Hrun|].
  split; [exact (run_keeps_the_invariant _ _ _ _ _ Hstart Hrun)|].
  split; [exact Hpaused|]. split; [exact Hmasses|].
  split; [vm_compute; reflexivity | exact Hpos].
Defined.

Lemma render_returns_when_the_trigonometry_does_witness :
  ∃ s', update Orbit.libm 0.016 Table.one_mass = Ok s'
    ∧ reachable Orbit.libm Table.gl s'
    ∧ Forall (trig_returns Orbit.libm)
        (orbit_angles ++ (Planet.current_angle <$> drop 1 (planets s')))
    ∧ ∃ calls, render Orbit.libm s' = Ok calls.
Proof.
  destruct first_frame as (s' & Hup & Hs' & Htrig & _).
  exists s'. split; [exact Hup|]. split; [exact Hs'|]. split; [exact Htrig|].
  exact (render_returns_when_the_trigonometry_does _ _ _ Hs' Htrig).
Defined.

Lemma render_leaves_opengl_as_it_found_it_witness :
  ∃ s' calls,
    update Orbit.libm 0.016 Table.one_mass = Ok s'
    ∧ render Orbit.libm s' = Ok calls
    ∧ lighting gl_ready = true ∧ blend gl_ready = false
    ∧ in_primitive gl_ready = false
    ∧ gl_run gl_ready calls = Some gl_ready
    ∧ Forall is_vertex (between_begin_and_end false calls).
Proof.
  destruct first_frame as (s' & Hup & _ & _ & _ & _ & _ & calls & Hcalls).
  exists s', calls. split; [exact Hup|]. split; [exact Hcalls|].
  split; [reflexivity|]. split; [reflexivity|]. split; [reflexivity|].
  exact (render_leaves_opengl_as_it_found_it _ _ _ gl_ready Hcalls
           eq_refl eq_refl eq_refl).
Defined.

(** ** The exceptions of the event handler *)

Lemma find_nearest_mass_total s world_pos max_distance :
  ∃ nearest, find_nearest_mass s world_pos max_distance = Ok nearest.
Proof.
  unfold find_nearest_mass.
  destruct (scan_loop (objs s) world_pos max_distance [] (None, max_distance)
              (custom_masses s)) as ([nearest min_distance] & -> & _).
  { split; [done|]. intros r Hr. by apply elem_of_nil in Hr. }
  cbn. eauto.
Qed.

(** X21.  In a reachable state an event of [handle_input] raises in two
    cases only: the delete key while the selected mass is no longer in
    [custom_masses] ([ValueError] from [list.remove]), and a left click in
    spawn mode when the cube root of the constructor raises.  The reset
    finds a snapshot for every planet, the colour index is in range and
    the square root of [find_nearest_mass] has its argument. *)
Theorem handle_event_raises_in_two_cases_only (L : Libm) (gl : GLContext)
    (s : Sim) ev (e : exn) :
  reachable L gl s → handle_event L gl ev s = Raise e →
  (ev = KEYDOWN K_DELETE ∧ e = ValueError
   ∧ ∃ r, selected_mass s = Some r ∧ r ∉ custom_masses s)
  ∨ (∃ pos, ev = MOUSEBUTTONDOWN 1 pos ∧ spawn_mode s = true
            ∧ float_pow L (spawn_mass s) (1 / 3) = Raise e).
Proof.
  intros (_ & _ & _ & _ & Hpl & _)%reachable_invariant Hev.
  destruct ev as [|k|button pos|button|pos|]; cbn [handle_event] in Hev;
    try discriminate.
  - destruct k; cbn [handle_keydown] in Hev; try discriminate.
    + destruct (reset_simulation_total s) as [s' Hs'].
      { destruct Hpl as (ps0 & _ & -> & Hsame & _).
        rewrite length_fmap. eauto using Forall2_length. }
      rewrite Hs' in Hev. discriminate.
    + left. destruct (selected_mass s) as [r|]; [|discriminate].
      destruct (list_remove r (custom_masses s)) as [masses|e'] eqn:Hrem;
        [discriminate|].
      cbn in Hev. injection Hev as ->.
      apply list_remove_Raise in Hrem as [-> Hr]. eauto.
  - destruct (Z.eqb_spec button 1) as [->|Hne].
    + destruct (spawn_mode s) eqn:Hmode.
      * right. exists pos. split; [done|]. split; [done|].
        unfold spawn_custom_mass, new_mass, index in Hev.
        destruct (lookup_lt_is_Some_2 colors
                    (length (custom_masses s) `mod` length colors))
          as [color Hcolor].
        { apply Nat.mod_upper_bound. done. }
        rewrite Hcolor in Hev.
        destruct (float_pow L (spawn_mass s) (1 / 3)); cbn in Hev;
          [discriminate|congruence].
      * unfold click_select in Hev.
        destruct (find_nearest_mass_total s (screen_to_world gl pos.1 pos.2) 2)
          as [nearest Hnear].
        rewrite Hnear in Hev. cbn in Hev. destruct nearest; discriminate.
    + destruct (button =? 3)%Z; discriminate.
  - destruct (button =? 1)%Z; discriminate.
Qed.

Lemma handle_event_raises_in_two_cases_only_witness :
  reachable Table.libm Table.gl stale_selection
  ∧ handle_event Table.libm Table.gl (KEYDOWN K_DELETE) stale_selection
    = Raise ValueError
  ∧ ∃ r, selected_mass stale_selection = Some r
         ∧ r ∉ custom_masses stale_selection.
Proof.
  assert (reachable Table.libm Table.gl stale_selection) as Hs.
  { apply (after_reachable
             [KEYDOWN K_m; MOUSEBUTTONDOWN 1 (300, 400)%Z; KEYDOWN K_m;
              MOUSEBUTTONDOWN 1 (300, 400)%Z; KEYDOWN K_c]).
    vm_compute. reflexivity. }
  assert (handle_event Table.libm Table.gl (KEYDOWN K_DELETE) stale_selection
          = Raise ValueError) as Hev by (vm_compute; reflexivity).
  split; [exact Hs|]. split; [exact Hev|].
  destruct (handle_event_raises_in_two_cases_only _ _ _ _ _ Hs Hev)
    as [(_ & _ & Hstale) | (pos & Hpos & _)]; [exact Hstale | discriminate Hpos].
Defined.

(** ** The exceptions of the frame update *)

Lemma bind_Raise {A B : Type} (m : result A) (f : A → result B) (e : exn) :
  m ≫= f = Raise e → m = Raise e ∨ ∃ a, m = Ok a ∧ f a = Raise e.
Proof.
  destruct m as [a|e']; cbn; intros H.
  - right. exists a. split; [reflexivity | exact H].
  - left. congruence.
Qed.

Lemma fmap_Raise {A B : Type} (f : A → B) (m : result A) (e : exn) :
  f <$> m = Raise e → m = Raise e.
Proof. destruct m; cbn; congruence. Qed.

Lemma for_each_Raise {A B : Type} (P : A → Prop) (body : A → B → result A)
    a xs e :
  (∀ a x a', x ∈ xs → body a x = Ok a' → P a → P a') → P a →
  for_each body a xs = Raise e →
  ∃ a' x, P a' ∧ x ∈ xs ∧ body a' x = Raise e.
Proof.
  revert a. induction xs as [|x xs IH]; intros a Hbody Ha; cbn [for_each];
    [discriminate|].
  intros [Hx | (a1 & Hx & Hrun)]%bind_Raise.
  - exists a, x. split; [exact Ha|]. split; [left | exact Hx].
  - destruct (IH a1) as (a' & x' & Ha' & Hx' & Hraise).
    + intros ? ? ? ?. apply Hbody. now right.
    + eapply Hbody; [left | exact Hx | exact Ha].
    + exact Hrun.
    + exists a', x'. split; [exact Ha'|]. split; [now right | exact Hraise].
Qed.

Lemma mapM_result_Raise {A B : Type} (f : A → result B) xs e :
  mapM f xs = Raise e → ∃ x, x ∈ xs ∧ f x = Raise e.
Proof.
  induction xs as [|x xs IH]; cbn; [discriminate|].
  intros [Hx | (y & _ & [Hxs | (ys & _ & [=])]%bind_Raise)]%bind_Raise.
  - exists x. split; [left | exact Hx].
  - destruct (IH Hxs) as (x' & Hin & Hx'). exists x'. split; [now right | exact Hx'].
Qed.

Lemma enumerate_from_elem {A : Type} n (xs : list A) i x :
  (i, x) ∈ enumerate_from n xs → x ∈ xs.
Proof.
  intros [k Hk]%list_elem_of_lookup.
  apply enumerate_from_lookup in Hk as [_ Hk]. eauto using list_elem_of_lookup_2.
Qed.

Section Raises.
Context (L : Libm).
Local Open Scope float_scope.

Lemma above_floor_nonzero d : (0.1 <? d) = true → (d =? 0) = false.
Proof.
  intros Hd. apply ltb_not_eqb. apply (ltb_trans _ 0.1); [reflexivity | exact Hd].
Qed.

Lemma above_floor_not_below d : (0.1 <? d) = true → (d <? 0.1) = false.
Proof. intros Hd. now apply leb_not_ltb, ltb_leb. Qed.

Lemma max_floor_not_below d : (Py.max d 0.1 <? 0.1) = false.
Proof.
  unfold Py.max. destruct (d <? 0.1) eqn:Hd; [apply ltb_irrefl | exact Hd].
Qed.

Lemma div_Raise x y e :
  Py.div x y = Raise e → e = ZeroDivisionError ∧ (y =? 0) = true.
Proof. unfold Py.div. destruct (y =? 0); [now intros [= <-] | discriminate]. Qed.

Lemma float_pow_raises x y e :
  float_pow L x y = Raise e → arithmetic_error L e.
Proof. left. left. eauto. Qed.

Lemma math_cos_raises x e : math_cos L x = Raise e → arithmetic_error L e.
Proof. left. right. left. eauto. Qed.

Lemma math_sin_raises x e : math_sin L x = Raise e → arithmetic_error L e.
Proof. left. right. right. eauto. Qed.

Lemma div_square_raises n x p e :
  (x <? 0.1) = false → float_pow L x 2 = Ok p → Py.div n p = Raise e →
  arithmetic_error L e.
Proof.
  intros Hx Hp [-> Hzero]%div_Raise. right. left. split; [done|].
  exists x, p. eauto.
Qed.

(** The pull the three loops compute: a quotient by the square of the
    distance, shared out along [dx] and [dz]. *)
Lemma pull_raises {A : Type} n dx dz d (k : float → float → result A) e :
  (0.1 <? d) = true →
  (d2 ← float_pow L d 2;
   q ← Py.div n d2;
   fx ← Py.div (q * dx) d;
   fz ← Py.div (q * dz) d;
   k fx fz) = Raise e →
  arithmetic_error L e ∨ ∃ fx fz, k fx fz = Raise e.
Proof.
  intros Hd [Hpow | (d2 & Hpow & [Hdiv | (q & _ & H)]%bind_Raise)]%bind_Raise.
  - left. eauto using float_pow_raises.
  - left. eauto using div_square_raises, above_floor_not_below.
  - rewrite !div_Ok in H by now apply above_floor_nonzero. cbn in H. eauto.
Qed.

Lemma add_pair_force_raises h i mass1 force jm e :
  add_pair_force L h i mass1 force jm = Raise e → arithmetic_error L e.
Proof.
  unfold add_pair_force. destruct force as [force_x force_z], jm as [j r2].
  destruct (bool_decide (i ≠ j)); [|discriminate]. rewrite math_sqrt_squares.
  cbn [mbind result_bind].
  destruct (0.1 <? _) eqn:Hd; [|discriminate].
  intros [Hbad | (fx & fz & [=])]%pull_raises; done.
Qed.

Lemma add_sun_force_raises ps mass1 force e :
  ps ≠ [] → add_sun_force L ps mass1 force = Raise e → arithmetic_error L e.
Proof.
  unfold add_sun_force. destruct force as [force_x force_z].
  intros Hps. rewrite math_sqrt_squares. cbn [mbind result_bind].
  destruct (0.1 <? _) eqn:Hd; [|discriminate].
  destruct ps as [|sun ps]; [done|]. cbn [index lookup list_lookup mbind result_bind].
  intros [Hpow | (r3 & _ & [Hbad | (fx & fz & [=])]%pull_raises)]%bind_Raise;
    eauto using float_pow_raises.
Qed.

Lemma integrate_total dt mass1 force :
  (CustomMass.mass mass1 =? 0) = false →
  ∃ pos vel, integrate dt mass1 force = Ok (pos, vel).
Proof.
  intros Hm. unfold integrate. destruct force as [force_x force_z].
  rewrite !div_Ok by exact Hm. cbn. eauto.
Qed.

Lemma move_mass_raises ps masses dt h i r e :
  ps ≠ [] → (CustomMass.mass (h !!! r) =? 0) = false →
  move_mass L ps masses dt h (i, r) = Raise e → arithmetic_error L e.
Proof.
  intros Hps Hm. unfold move_mass.
  intros [Hloop | (force & _ & [Hsun | (force' & _ & H)]%bind_Raise)]%bind_Raise.
  - apply (for_each_Raise (λ _, True)) in Hloop as (? & ? & _ & _ & Hpair);
      eauto using add_pair_force_raises.
  - eauto using add_sun_force_raises.
  - destruct (integrate_total dt (h !!! r) force' Hm) as (pos & vel & Hint).
    rewrite Hint in H. discriminate.
Qed.

Lemma move_loop_raises ps masses dt h e :
  ps ≠ [] → (∀ r, r ∈ masses → (CustomMass.mass (h !!! r) =? 0) = false) →
  for_each (move_mass L ps masses dt) h (enumerate masses) = Raise e →
  arithmetic_error L e.
Proof.
  intros Hps Hm Hloop.
  apply (for_each_Raise
           (λ h', ∀ r, r ∈ masses → (CustomMass.mass (h' !!! r) =? 0) = false))
    in Hloop as (h' & [i r] & Hm' & Hin & Hmove); [|clear Hloop|exact Hm].
  - apply enumerate_from_elem in Hin. eauto using move_mass_raises.
  - intros h1 [i r] h2 _ Hmove Hm1 r' Hr'.
    destruct (move_mass_moved_only L _ _ _ _ _ _ _ r' Hmove) as (-> & _). eauto.
Qed.

Lemma add_perturbation_raises h planet_x planet_z total r e :
  add_perturbation L h planet_x planet_z total r = Raise e →
  arithmetic_error L e.
Proof.
  unfold add_perturbation. destruct total as [tx tz].
  rewrite math_sqrt_squares. cbn [mbind result_bind].
  destruct (0.1 <? _) eqn:Hd; [|discriminate].
  intros [Hpow | (d2 & Hpow & [Hdiv | (q & _ & H)]%bind_Raise)]%bind_Raise.
  - eauto using float_pow_raises.
  - eauto using div_square_raises, above_floor_not_below.
  - rewrite !div_Ok in H by now apply above_floor_nonzero. discriminate.
Qed.

Lemma perturb_planet_raises h masses planet e :
  perturb_planet L h masses planet = Raise e → arithmetic_error L e.
Proof.
  unfold perturb_planet.
  intros [Hcos | (c & _ & [Hsin | (sn & _ & [Hloop | ([tx tz] & _ & H)]%bind_Raise)
                            ]%bind_Raise)]%bind_Raise.
  - eauto using math_cos_raises.
  - eauto using math_sin_raises.
  - apply (for_each_Raise (λ _, True)) in Hloop as (? & ? & _ & _ & Hadd);
      eauto using add_perturbation_raises.
  - destruct (_ || _); discriminate.
Qed.

Lemma apply_gravitational_forces_raises dt s e :
  planets s ≠ [] →
  (∀ r, r ∈ custom_masses s → (CustomMass.mass (objs s !!! r) =? 0) = false) →
  apply_gravitational_forces L dt s = Raise e → arithmetic_error L e.
Proof.
  intros Hps Hm. unfold apply_gravitational_forces.
  destruct (physics_enabled s); cbn [negb]; [|discriminate].
  intros [Hloop | (h & _ & [Hpert | (ps & _ & [=])]%bind_Raise)]%bind_Raise.
  - eauto using move_loop_raises.
  - unfold perturb_planets in Hpert. destruct (planets s) as [|sun rest]; [done|].
    apply fmap_Raise, mapM_result_Raise in Hpert as (planet & _ & Hpert).
    eauto using perturb_planet_raises.
Qed.

Lemma curvature_at_raises size spacing x z mass i j e :
  curvature_at L size spacing x z mass i j = Raise e → arithmetic_error L e.
Proof.
  unfold curvature_at.
  intros [Hsx | (sx & Hsx & [Hsz | (sz & Hsz & H)]%bind_Raise)]%bind_Raise;
    [eauto using float_pow_raises..|].
  unfold Py.math_sqrt in H. destruct (sx + sz <? 0) eqn:Hneg.
  - injection H as <-. right. right. split; [done|].
    eexists _, _, sx, sz. eauto.
  - cbn [mbind result_bind] in H.
    apply bind_Raise in H as [Hpow | (d2 & Hpow & [Hdiv | (q & _ & [=])]%bind_Raise)].
    + eauto using float_pow_raises.
    + eauto using div_square_raises, max_floor_not_below.
Qed.

Lemma grid_add_total size i j c g :
  square size g → (i < Z.to_nat size)%nat → (j < Z.to_nat size)%nat →
  ∃ g', grid_add i j c g = Ok g'.
Proof.
  intros Hsq Hi Hj. unfold grid_add, index.
  destruct (square_lookup _ _ i j Hsq Hi Hj) as (row & old & -> & Hold).
  cbn. rewrite Hold. cbn. eauto.
Qed.

Lemma add_mass_to_grid_raises size spacing x z mass g e :
  square size g →
  _add_mass_to_grid L size spacing x z mass g = Raise e → arithmetic_error L e.
Proof.
  intros Hsq. unfold _add_mass_to_grid. intros Houter.
  apply (for_each_Raise (square size)) in Houter
    as (g1 & i & Hsq1 & [Hi0 Hi]%elem_of_seqZ & Hinner); [|clear Houter|exact Hsq].
  - apply (for_each_Raise (square size)) in Hinner
      as (g2 & j & Hsq2 & [Hj0 Hj]%elem_of_seqZ & Hcell);
      [|clear Hinner|exact Hsq1].
    + apply bind_Raise in Hcell as [Hcurv | (c & _ & Hadd)].
      * eauto using curvature_at_raises.
      * destruct (grid_add_total size (Z.to_nat i) (Z.to_nat j) c g2 Hsq2)
          as [g3 Hg3]; [lia..|]. rewrite Hg3 in Hadd. discriminate.
    + intros g2 j g3 _ (c & _ & Hadd)%bind_Ok Hsq2.
      apply square_shape. rewrite (grid_add_shape _ _ _ _ _ Hadd).
      now apply square_shape.
  - intros g1 i g2 _ Hrow Hsq1. apply square_shape.
    apply (for_each_invariant (λ g', length <$> g' = length <$> g1) _ _ _ _)
      in Hrow; [rewrite Hrow; now apply square_shape| |done].
    intros g3 j g4 _ (c & _ & Hadd)%bind_Ok <-. eauto using grid_add_shape.
Qed.

Lemma add_mass_to_grid_square size spacing x z mass g g' :
  _add_mass_to_grid L size spacing x z mass g = Ok g' →
  square size g → square size g'.
Proof.
  intros Hadd Hsq. apply square_shape.
  rewrite (add_mass_to_grid_shape _ _ _ _ _ _ _ _ Hadd). now apply square_shape.
Qed.

Lemma planet_xz_raises planet e :
  planet_xz L planet = Raise e → arithmetic_error L e.
Proof.
  unfold planet_xz. destruct (_ =? 0); [discriminate|].
  intros [Hcos | (c & _ & [Hsin | (sn & _ & [=])]%bind_Raise)]%bind_Raise;
    eauto using math_cos_raises, math_sin_raises.
Qed.

Lemma update_spacetime_grid_raises s e :
  square (grid_size s) (grid_heights s) →
  update_spacetime_grid L s = Raise e → arithmetic_error L e.
Proof.
  intros Hsq. unfold update_spacetime_grid.
  assert (square (grid_size s) (fill_zero (grid_heights s))) as Hzero.
  { apply square_shape. rewrite fill_zero_keeps_shape. now apply square_shape. }
  intros [Hplanets | (g1 & Hg1 & [Hmasses | (g2 & _ & [=])]%bind_Raise)]%bind_Raise.
  - apply (for_each_Raise (square (grid_size s))) in Hplanets
      as (g & planet & Hg & _ & Hbody); [|clear Hplanets|exact Hzero].
    + apply bind_Raise in Hbody
        as [Hxz | ([px pz] & _ & [Hpow | (m & _ & Hadd)]%bind_Raise)];
        eauto using planet_xz_raises, float_pow_raises, add_mass_to_grid_raises.
    + intros g planet g' _ ([px pz] & _ & (m & _ & Hadd)%bind_Ok)%bind_Ok.
      eauto using add_mass_to_grid_square.
  - assert (square (grid_size s) g1) as Hsq1.
    { revert Hzero.
      apply (for_each_invariant (square (grid_size s)) _ _ _ _) with (2 := Hg1).
      intros g planet g' _ ([px pz] & _ & (m & _ & Hadd)%bind_Ok)%bind_Ok.
      eauto using add_mass_to_grid_square. }
    apply (for_each_Raise (square (grid_size s))) in Hmasses
      as (g & r & Hg & _ & Hbody); [|clear Hmasses|exact Hsq1].
    + eauto using add_mass_to_grid_raises.
    + intros g r g' _ Hadd. eauto using add_mass_to_grid_square.
Qed.

Lemma update_raises dt s e :
  invariant L s → update L dt s = Raise e → arithmetic_error L e.
Proof.
  intros Hinv. unfold update. destruct (paused s); cbn [negb]; [discriminate|].
  set (s1 := set_planets _ _).
  assert (invariant L s1) as Hinv1.
  { destruct Hinv as (Hwf & Hhl & Hctl & Hobj & Hpl & Hg).
    split; [exact Hwf|]. split; [exact Hhl|]. split; [exact Hctl|].
    split; [exact Hobj|]. split; [|exact Hg].
    destruct Hpl as (ps0 & Hinit & Horig & Hsame & Hsun).
    exists ps0. split; [done|]. split; [done|]. cbn.
    destruct (advance_planets_as_built dt (time_speed s) _ _ Hsame) as [? ->].
    done. }
  intros [Hstep | (s2 & Hstep & Hgrid)]%bind_Raise.
  - destruct Hinv1 as ((_ & Hdom & _) & _ & _ & Hobj & Hpl & _).
    eapply apply_gravitational_forces_raises; [| |exact Hstep].
    + destruct Hpl as (ps0 & Hinit & _ & Hsame & _).
      apply init_planets_length in Hinit. apply Forall2_length in Hsame.
      intros Hnil. rewrite Hnil in Hsame. cbn in Hsame. lia.
    + intros r Hr. apply spawn_masses_nonzero. apply Hobj, Hdom, Hr.
  - apply (apply_gravitational_forces_invariant L) in Hstep; [|exact Hinv1].
    destruct Hstep as (_ & _ & _ & _ & _ & Hsize & _ & Hsq).
    eapply update_spacetime_grid_raises; [|exact Hgrid]. now rewrite Hsize.
Qed.

End Raises.

(** X22.  In a reachable state [update] raises only what the arithmetic
    raises: an exception of [**], [math.cos] or [math.sin];
    [ZeroDivisionError] when a square [x ** 2], [x] not below 0.1, came out
    zero; [ValueError] when two squares came out with a sum below zero.
    The grid and the planet list are never read out of range, the
    solver's square roots have their argument, and the divisions by a
    distance and by a mass have a divisor that is not zero. *)
Theorem update_raises_arithmetic_errors_only (L : Libm) (gl : GLContext)
    (dt : float) (s : Sim) (e : exn) :
  reachable L gl s → update L dt s = Raise e →
  libm_raises L e
  ∨ (e = ZeroDivisionError ∧ zero_square L)
  ∨ (e = ValueError ∧ negative_squares L).
Proof.
  intros Hs%reachable_invariant Hraise. exact (update_raises L dt s e Hs Hraise).
Qed.

(** A run of the theorem: one mass of 5.0 at [(3.0, 4.0)] and a frame of
    [1e80] seconds.  The planets are advanced, the solver pulls the mass
    towards the origin and leaves it at about [-1.9e159] along x, the
    planets feel nothing of it, and the grid, after the nine planets,
    squares the distance from the first sample point, at x = -24.0, to
    the mass: that [**] overflows, which is an [OverflowError]. *)
Lemma update_raises_arithmetic_errors_only_witness :
  reachable LongFrame.libm Table.gl Table.one_mass
  ∧ CustomMass.position (objs Table.one_mass !!! 0%nat) = Vec3 3 0 4
  ∧ (∃ s1,
       apply_gravitational_forces LongFrame.libm (1e80 * 1.0)
         (set_planets (advance_planets 1e80 1.0 (planets Table.one_mass))
            (set_current_time (0.0 + 1e80 * 1.0) Table.one_mass)) = Ok s1
       ∧ CustomMass.position (objs s1 !!! 0%nat)
         = Vec3 (-1.9180800000000001e+159) 0 (-2.55744e+159))
  ∧ float_pow LongFrame.libm (-24 - -1.9180800000000001e+159) 2
    = Raise OverflowError
  ∧ update LongFrame.libm 1e80 Table.one_mass = Raise OverflowError
  ∧ libm_raises LongFrame.libm OverflowError.
Proof.
  assert (reachable LongFrame.libm Table.gl Table.one_mass) as Hs.
  { apply (handle_input_reachable LongFrame.libm Table.gl
             (Table.spawn_at [(300, 400)%Z]) Table.startup true).
    - vm_compute. reflexivity.
    - apply reachable_init. vm_compute. reflexivity. }
  assert (update LongFrame.libm 1e80 Table.one_mass = Raise OverflowError)
    as Hraise by (vm_compute; reflexivity).
  split; [exact Hs|]. split; [vm_compute; reflexivity|]. split.
  { assert ((λ s1, CustomMass.position (objs s1 !!! 0%nat))
              <$> apply_gravitational_forces LongFrame.libm (1e80 * 1.0)
                    (set_planets
                       (advance_planets 1e80 1.0 (planets Table.one_mass))
                       (set_current_time (0.0 + 1e80 * 1.0) Table.one_mass))
            = Ok (Vec3 (-1.9180800000000001e+159) 0 (-2.55744e+159)))
      as Hpos by (vm_compute; reflexivity).
    destruct (apply_gravitational_forces _ _ _) as [s1|e];
      [|discriminate Hpos].
    exists s1. split; [reflexivity|]. exact (Ok_fmap_inj _ _ _ Hpos). }
  split; [vm_compute; reflexivity|]. split; [exact Hraise|].
  destruct (update_raises_arithmetic_errors_only _ _ _ _ _ Hs Hraise)
    as [Hlibm | [[Hzero _] | [Hvalue _]]];
    [exact Hlibm | discriminate Hzero | discriminate Hvalue].
Defined.


(** ** The spheres of the custom masses *)

Lemma spheres_app calls calls' :
  spheres (calls ++ calls') = spheres calls ++ spheres calls'.
Proof. apply omap_app. Qed.

Lemma spheres_join (css : list (list gl_call)) :
  spheres (mjoin css) = mjoin (spheres <$> css).
Proof.
  induction css as [|cs css IH]; [done|].
  change (spheres (cs ++ mjoin css) = spheres cs ++ mjoin (spheres <$> css)).
  now rewrite spheres_app, IH.
Qed.

Lemma spheres_draw_trail mass : spheres (draw_trail mass) = [].
Proof.
  unfold draw_trail. destruct (_ <? _)%nat; [|done].
  rewrite !spheres_app. cbn. rewrite app_nil_r.
  induction (CustomMass.trail mass) as [|p trail IH]; [done|exact IH].
Qed.

Lemma spheres_trails (h : store) (l : list ref) :
  spheres (mjoin ((λ r, draw_trail (h !!! r)) <$> l)) = [].
Proof.
  induction l as [|r l IH]; [done|].
  change (spheres (draw_trail (h !!! r)
                   ++ mjoin ((λ r, draw_trail (h !!! r)) <$> l)) = []).
  now rewrite spheres_app, spheres_draw_trail, IH.
Qed.

Lemma spheres_draw_mass mass :
  spheres (draw_mass mass)
  = (if CustomMass.is_selected mass
     then [(CustomMass.radius mass * 1.3)%float] else [])
    ++ [CustomMass.radius mass].
Proof. unfold draw_mass. now destruct (CustomMass.is_selected mass). Qed.

Lemma mass_spheres_length s l :
  NoDup l →
  length (mjoin (mass_spheres s <$> l))
  = (length l
     + match selected_mass s with
       | Some r => if decide (r ∈ l) then 1 else 0
       | None => 0
       end)%nat.
Proof.
  induction 1 as [|x l Hx Hnd IH].
  { cbn. destruct (selected_mass s) as [r|]; [|done].
    destruct (decide (r ∈ [])) as [Hin|]; [|done]. now apply elem_of_nil in Hin. }
  change (mjoin (mass_spheres s <$> x :: l))
    with (mass_spheres s x ++ mjoin (mass_spheres s <$> l)).
  rewrite length_app, IH. unfold mass_spheres. cbn [length].
  destruct (selected_mass s) as [r|].
  - destruct (decide (Some r = Some x)) as [[= ->]|Hne].
    + destruct (decide (x ∈ l)); [done|].
      destruct (decide (x ∈ x :: l)) as [|Hout]; [cbn; lia|].
      destruct Hout. left.
    + assert (r ≠ x) by congruence.
      destruct (decide (r ∈ l)) as [Hin|Hout].
      * destruct (decide (r ∈ x :: l)) as [|Hout]; [cbn; lia|].
        destruct Hout. now right.
      * destruct (decide (r ∈ x :: l)) as [Hin|]; [|cbn; lia].
        apply elem_of_cons in Hin as [?|?]; done.
  - destruct (decide (None = Some x)); [done|]. cbn. lia.
Qed.

(** X23.  In a reachable state [draw_custom_masses] draws, in the order
    of [custom_masses], one sphere per mass, of its radius, preceded by a
    sphere of 1.3 times that radius exactly when the mass is
    [selected_mass]; the trails add none.  So it draws as many spheres as
    there are masses, and one more when the selected mass is in the
    list. *)
Theorem draw_custom_masses_highlights_the_selection (L : Libm) (gl : GLContext)
    (s : Sim) :
  reachable L gl s →
  spheres (draw_custom_masses s) = mjoin (mass_spheres s <$> custom_masses s)
  ∧ length (spheres (draw_custom_masses s))
    = (length (custom_masses s)
       + match selected_mass s with
         | Some r => if decide (r ∈ custom_masses s) then 1 else 0
         | None => 0
         end)%nat.
Proof.
  intros ((Hnd & _) & Hhl & _)%reachable_invariant.
  assert (spheres (draw_custom_masses s)
          = mjoin (mass_spheres s <$> custom_masses s)) as Heq.
  { unfold draw_custom_masses. rewrite !spheres_app.
    assert (spheres (if show_trails s
                     then glLineWidth 2.0
                          :: mjoin ((λ r, draw_trail (objs s !!! r))
                                      <$> custom_masses s)
                     else []) = []) as ->.
    { destruct (show_trails s); [|done]. apply spheres_trails. }
    cbn [spheres omap list_omap app]. rewrite spheres_join, <- list_fmap_compose.
    f_equal. apply list_fmap_ext. intros _ r Hr%list_elem_of_lookup_2.
    unfold compose. rewrite spheres_draw_mass. unfold mass_spheres.
    specialize (Hhl r Hr). destruct (decide (selected_mass s = Some r)) as [Hsel|Hsel].
    - now rewrite (proj2 Hhl Hsel).
    - destruct (CustomMass.is_selected (objs s !!! r)); [|done].
      destruct Hsel. now apply Hhl. }
  split; [exact Heq|]. rewrite Heq. now apply mass_spheres_length.
Qed.

Lemma draw_custom_masses_highlights_the_selection_witness :
  reachable Table.libm Table.gl second_selected
  ∧ custom_masses second_selected = [0%nat; 1%nat]
  ∧ selected_mass second_selected = Some 1%nat
  ∧ spheres (draw_custom_masses second_selected)
    = [0.8549879733383484; 1.111484365339853; 0.8549879733383484]%float.
Proof.
  assert (reachable Table.libm Table.gl second_selected) as Hs
    by exact second_selected_reachable.
  split; [exact Hs|].
  destruct (draw_custom_masses_highlights_the_selection _ _ _ Hs) as [-> _].
  repeat split; vm_compute; reflexivity.
Defined.

(** ** The right mouse button *)

(** X24.  In a reachable state the right mouse button moves the selected
    mass and nothing else: its position becomes the ground point under
    the pointer, its velocity zero and its trail empty, while it keeps
    its mass, radius, colour and flag; every other object and attribute
    is as before.  With nothing selected the state is unchanged. *)
Theorem right_button_puts_the_selected_mass_at_rest (L : Libm) (gl : GLContext)
    (s : Sim) (pos : Z * Z) :
  reachable L gl s →
  let world_pos := screen_to_world gl pos.1 pos.2 in
  match selected_mass s with
  | None => handle_event L gl (MOUSEBUTTONDOWN 3 pos) s = Ok (Some s)
  | Some r =>
      ∃ s', handle_event L gl (MOUSEBUTTONDOWN 3 pos) s = Ok (Some s')
        ∧ (objs s' !!! r)
          = CustomMass.with_motion (Vec3 (v_0 world_pos) 0 (v_2 world_pos))
              (Vec3 0 0 0) [] (objs s !!! r)
        ∧ (∀ r', r' ≠ r → objs s' !!! r' = objs s !!! r')
        ∧ s' = set_objs (objs s') s
  end.
Proof.
  intros ((_ & _ & Hsel) & _ & _ & Hobj & _)%reachable_invariant world_pos.
  cbn [handle_event]. change (3 =? 1)%Z with false. change (3 =? 3)%Z with true.
  cbn match. unfold click_move. fold world_pos.
  destruct (selected_mass s) as [r|]; [|reflexivity].
  specialize (Hsel r eq_refl).
  destruct (Hobj r Hsel) as (_ & _ & _ & Hy & _).
  eexists. split; [reflexivity|]. cbn [objs set_objs].
  split; [|split; [|reflexivity]].
  - rewrite alter_lookup_total by exact Hsel.
    destruct (decide (r = r)); [|done]. unfold set_2, set_0. cbn [v_0 v_1 v_2].
    now rewrite Hy.
  - intros r' Hr'. rewrite alter_lookup_total by exact Hsel.
    destruct (decide (r = r')); [congruence | reflexivity].
Qed.

Lemma right_button_puts_the_selected_mass_at_rest_witness :
  reachable Table.libm Table.gl second_selected
  ∧ selected_mass second_selected = Some 1%nat
  ∧ ∃ s', handle_event Table.libm Table.gl (MOUSEBUTTONDOWN 3 (700, 100)%Z)
            second_selected = Ok (Some s')
      ∧ CustomMass.position (objs s' !!! 1%nat) = Vec3 7 0 7
      ∧ CustomMass.velocity (objs s' !!! 1%nat) = Vec3 0 0 0
      ∧ CustomMass.position (objs s' !!! 0%nat) = Vec3 3 0 4.
Proof.
  assert (reachable Table.libm Table.gl second_selected) as Hs
    by exact second_selected_reachable.
  split; [exact Hs|]. split; [vm_compute; reflexivity|].
  pose proof (right_button_puts_the_selected_mass_at_rest _ _ _ (700, 100)%Z Hs)
    as Hmove.
  change (selected_mass second_selected) with (Some 1%nat) in Hmove.
  destruct Hmove as (s' & Hev & Hmoved & Hrest & _).
  exists s'. split; [exact Hev|]. rewrite Hmoved, (Hrest 0%nat) by done.
  repeat split; vm_compute; reflexivity.
Defined.
